(** * Leaky integrate-and-fire simulator of [exercises/exe_02_jit.ipynb]

    The notebook holds two renderings of the same simulator: a driver
    [run_simulation] that delegates every time step to the jitted
    [run_step], and an earlier driver whose loop body is written out in
    place.  Both are embedded here.

    Numbers.  The arrays hold floating-point numbers in the notebook.  The
    simulator is embedded twice.  Over the exact rationals [Q] first, where
    rounding, overflow, [inf] and [nan] do not exist: what is proved there
    of an arithmetic value is a statement about exact arithmetic, and what
    is proved of masks, shapes, resets and objects does not depend on the
    arithmetic.  Then over an arithmetic that is a parameter, with the two
    precisions the notebook computes in; IEEE 754 arithmetic is one
    instance of it, and the results that depend on how a number is rounded
    are stated there.

    Arrays.  A one-dimensional array is a list, its shape is its length.  A
    two-dimensional array carries its column count next to its rows, so that
    a matrix without rows still has a shape.  Shape errors of the array
    library (contraction of unequal dimensions, shapes that do not
    broadcast) are results of the operations, not preconditions.

    Objects.  The drivers are embedded twice: on values, where an array is
    its content, and on a store of objects, where a name holds a reference
    and [spike_train.append] and [V += dV] can update an object in place.
    The second embedding is shown to compute what the first computes. *)

From Stdlib Require Import QArith Qround Qabs Lqa Lia ZArith String SpecFloat.
From stdpp Require Import base option list.

Local Open Scope Q_scope.

(** ** Exceptions *)

Inductive error : Set :=
| DimensionMismatch   (* shapes that neither contract nor broadcast *)
| ZeroDivision        (* division of Python floats by 0.0; a zero step *)
| IndexOutOfRange     (* subscript of a Python list outside its range *)
| TypeError           (* a name bound to no object, or to one of another type *)
| ValueError.         (* shapes NumPy cannot align; a length that is no number *)

Inductive result (A : Type) : Type :=
| Ok (a : A)
| Raise (e : error).
Arguments Ok {A} a.
Arguments Raise {A} e.

#[global] Instance result_ret : MRet result := λ A a, Ok a.
#[global] Instance result_bind : MBind result := λ A B f m,
  match m with
  | Ok a => f a
  | Raise e => Raise e
  end.

(** The value of a result, if it is one. *)
Definition lift_ok {A} (r : result A) : option A :=
  match r with
  | Ok a => Some a
  | Raise _ => None
  end.

(** ** Arrays *)

Abbreviation Vec := (list Q).
Abbreviation BVec := (list bool).

Record Mat : Type := mkMat { ncols : nat; mrows : list (list Q) }.

Definition nrows (W : Mat) : nat := length (mrows W).

(** Every row of an array has as many entries as the shape says. *)
Definition wf_mat (W : Mat) : Prop := Forall (λ r, length r = ncols W) (mrows W).

(** [W] has shape (N, N). *)
Definition square (N : nat) (W : Mat) : Prop :=
  wf_mat W ∧ nrows W = N ∧ ncols W = N.

(** Elementwise binary operation on two one-dimensional arrays, with the
    array library's broadcasting: equal lengths pair up, a length-one
    operand is stretched, anything else is a shape error. *)
Definition broadcast {A B C} (f : A → B → C) (x : list A) (y : list B)
  : result (list C) :=
  if (length x =? length y)%nat then Ok (zip_with f x y)
  else match x, y with
       | [a], _ => Ok (f a <$> y)
       | _, [b] => Ok ((λ a, f a b) <$> x)
       | _, _ => Raise DimensionMismatch
       end.

(** A boolean used as a number. *)
Definition b2q (b : bool) : Q := if b then 1 else 0.

(** [x >= c] for an array [x] and a scalar [c]. *)
Definition vge (x : Vec) (c : Q) : BVec := (λ v, Qle_bool c v) <$> x.

(** [jnp.where(c, a, y)] for a mask [c], a scalar [a] and an array [y]. *)
Definition jnp_where (c : BVec) (a : Q) (y : Vec) : result Vec :=
  broadcast (λ (b : bool) v, if b then a else v) c y.

(** [-x], [x + c], [c * x] for an array [x] and a scalar [c]; [x + y] for
    two arrays. *)
Definition vneg (x : Vec) : Vec := Qopp <$> x.
Definition vadds (x : Vec) (c : Q) : Vec := (λ v, v + c) <$> x.
Definition smulv (c : Q) (x : Vec) : Vec := (λ v, c * v) <$> x.
Definition vadd (x y : Vec) : result Vec := broadcast Qplus x y.

(** One entry of a matrix-vector product with a mask. *)
Definition dot_row (r : list Q) (s : BVec) : Q :=
  foldr Qplus 0 (zip_with (λ w b, w * b2q b) r s).

(** [W.dot(s)] for a two-dimensional [W] and a one-dimensional mask [s]:
    the last dimension of [W] is contracted with [s]. *)
Definition dot (W : Mat) (s : BVec) : result Vec :=
  if (ncols W =? length s)%nat then Ok ((λ r, dot_row r s) <$> mrows W)
  else Raise DimensionMismatch.

(** [jnp.arange(start, stop, step)] on floats: [ceil((stop - start) / step)]
    points [start + i * step], none when that count is not positive. *)
Definition arange (start stop step : Q) : result (list Q) :=
  if Qeq_bool step 0 then Raise ZeroDivision
  else Ok ((λ i : nat, start + inject_Z (Z.of_nat i) * step)
             <$> seq 0 (Z.to_nat (Qceiling ((stop - start) / step)))).

(** [enumerate(xs)]. *)
Definition enumerate {A} (xs : list A) : list (nat * A) :=
  zip (seq 0 (length xs)) xs.

(** [x / y] on Python floats. *)
Definition py_div (x y : Q) : result Q :=
  if Qeq_bool y 0 then Raise ZeroDivision else Ok (x / y).

(** [xs[-1]] on a Python list. *)
Definition py_last {A} (xs : list A) : result A :=
  match last xs with
  | Some x => Ok x
  | None => Raise IndexOutOfRange
  end.

(** A [for] loop over a list: the body maps the loop-carried variables and
    the current item to the new loop-carried variables, or raises. *)
Fixpoint for_each {S X} (body : S → X → result S) (s : S) (xs : list X)
  : result S :=
  match xs with
  | [] => Ok s
  | x :: xs' => s' ← body s x; for_each body s' xs'
  end.

(** ** The jitted step and its driver *)

Module Jitted.

(** The local variables of [run_step] when it returns: the mask, [V] after
    each of its three assignments, the synaptic current and the increment. *)
Record locals : Type := mkLocals {
  l_spiked : BVec;
  l_V_reset : Vec;
  l_I_syn : Vec;
  l_dV : Vec;
  l_V_euler : Vec;
  l_V : Vec
}.

(** Body of [run_step].  Under [jax.jit] the scalars are traced values, so
    [dt / tau_m] is the array library's division, which does not raise; its
    value at [tau_m = 0] is not a rational and is outside the model. *)
Definition run_step_locals (v_prev : Vec) (v_thresh v_reset : Q) (W : Mat)
    (tau_m dt membr_R : Q) : result locals :=
  let spiked := vge v_prev v_thresh in
  V0 ← jnp_where spiked v_reset v_prev;
  I_syn ← dot W spiked;
  drive ← vadd (vadds (vneg V0) v_reset) (smulv membr_R I_syn);
  let dV := smulv (dt / tau_m) drive in
  V1 ← vadd V0 dV;
  V2 ← jnp_where spiked v_reset V1;
  Ok (mkLocals spiked V0 I_syn dV V1 V2).

(** [run_step]: its body, returning [V, spiked]. *)
Definition run_step (v_prev : Vec) (v_thresh v_reset : Q) (W : Mat)
    (tau_m dt membr_R : Q) : result (Vec * BVec) :=
  l ← run_step_locals v_prev v_thresh v_reset W tau_m dt membr_R;
  Ok (l_V l, l_spiked l).

(** Body of the [for] loop of [run_simulation]; the loop carries [V] and
    [spike_train]. *)
Definition loop_body (W : Mat) (tau_m v_reset v_thresh membr_R dt : Q)
    (s : Vec * list BVec) (it : nat * Q) : result (Vec * list BVec) :=
  let '(V, spike_train) := s in
  let '(i, t) := it in
  if (i =? 0)%nat then Ok (V, spike_train)
  else
    '(V, spiked) ← run_step V v_thresh v_reset W tau_m dt membr_R;
    Ok (V, spike_train ++ [spiked]).

(** The loop of [run_simulation] run over the first [n] time points: the
    loop-carried variables when the [n]-th iteration has ended. *)
Definition run_loop (n : nat) (W : Mat) (V : Vec)
    (tau_m v_reset v_thresh membr_R t_max dt : Q)
  : result (Vec * list BVec) :=
  ts ← arange 0 t_max dt;
  for_each (loop_body W tau_m v_reset v_thresh membr_R dt) (V, [])
           (take n (enumerate ts)).

(** [run_simulation]. *)
Definition run_simulation (W : Mat) (V : Vec)
    (tau_m v_reset v_thresh membr_R t_max dt : Q) : result (list BVec) :=
  ts ← arange 0 t_max dt;
  '(V, spike_train) ← for_each (loop_body W tau_m v_reset v_thresh membr_R dt)
                               (V, []) (enumerate ts);
  Ok spike_train.

End Jitted.

(** ** The driver with the step written out in place *)

Module Inlined.

(** Body of the [for] loop.  The scalars are Python floats here, so
    [dt / tau_m] raises on a zero [tau_m]; [V += dV] on an immutable array
    rebinds [V] to the sum. *)
Definition loop_body (W : Mat) (tau_m v_reset v_thresh membr_R dt : Q)
    (s : Vec * list BVec) (it : nat * Q) : result (Vec * list BVec) :=
  let '(V, spike_train) := s in
  let '(i, t) := it in
  if (i =? 0)%nat then Ok (V, spike_train)
  else
    let fired := vge V v_thresh in
    V ← jnp_where fired v_reset V;
    let spike_train := spike_train ++ [fired] in
    newest ← py_last spike_train;
    I_syn ← dot W newest;
    rate ← py_div dt tau_m;
    drive ← vadd (vadds (vneg V) v_reset) (smulv membr_R I_syn);
    let dV := smulv rate drive in
    V ← vadd V dV;
    V ← jnp_where fired v_reset V;
    Ok (V, spike_train).

(** The loop run over the first [n] time points. *)
Definition run_loop (n : nat) (W : Mat) (V : Vec)
    (tau_m v_reset v_thresh membr_R t_max dt : Q)
  : result (Vec * list BVec) :=
  ts ← arange 0 t_max dt;
  for_each (loop_body W tau_m v_reset v_thresh membr_R dt) (V, [])
           (take n (enumerate ts)).

(** [run_simulation]. *)
Definition run_simulation (W : Mat) (V : Vec)
    (tau_m v_reset v_thresh membr_R t_max dt : Q) : result (list BVec) :=
  ts ← arange 0 t_max dt;
  '(V, spike_train) ← for_each (loop_body W tau_m v_reset v_thresh membr_R dt)
                               (V, []) (enumerate ts);
  Ok spike_train.

End Inlined.

(** ** The drivers on a store of objects

    The embedding above passes arrays by value.  To say what a call does to
    the objects of its caller, the two drivers are embedded once more over
    a store: a name holds a reference, an operation of the array library
    reads its operands from the store and allocates its result, and the two
    statements that can update an object in place, [spike_train.append]
    and [V += dV], write to the store. *)

Module Store.

(** NumPy arrays are updated in place by [+=]; JAX arrays are immutable. *)
Inductive kind : Set := Numpy | Jax.

(** The library of the result of an operator on two arrays. *)
Definition join (a b : kind) : kind :=
  match a, b with
  | Numpy, Numpy => Numpy
  | _, _ => Jax
  end.

Inductive obj : Type :=
| OVec (k : kind) (v : Vec)        (* one-dimensional array of numbers *)
| OMask (k : kind) (m : BVec)      (* one-dimensional array of booleans *)
| OMat (k : kind) (W : Mat)        (* two-dimensional array of numbers *)
| OList (items : list nat).        (* Python list of references *)

(** A reference is the position of its object in the store; objects are
    allocated at the end. *)
Abbreviation loc := nat.
Abbreviation heap := (list obj).

(** A statement maps the store to a value or an exception, and the store
    it leaves. *)
Definition M (A : Type) : Type := heap → result A * heap.

#[global] Instance M_ret : MRet M := λ A a h, (Ok a, h).
#[global] Instance M_bind : MBind M := λ A B f m h,
  match m h with
  | (Ok a, h') => f a h'
  | (Raise e, h') => (Raise e, h')
  end.

Definition lift {A} (r : result A) : M A := λ h, (r, h).

Definition alloc (o : obj) : M loc := λ h, (Ok (length h), h ++ [o]).

Definition store (l : loc) (o : obj) : M unit := λ h, (Ok tt, <[l := o]> h).

Definition read_vec (l : loc) : M (kind * Vec) := λ h,
  match h !! l with
  | Some (OVec k v) => (Ok (k, v), h)
  | _ => (Raise TypeError, h)
  end.

Definition read_mask (l : loc) : M (kind * BVec) := λ h,
  match h !! l with
  | Some (OMask k m) => (Ok (k, m), h)
  | _ => (Raise TypeError, h)
  end.

Definition read_mat (l : loc) : M (kind * Mat) := λ h,
  match h !! l with
  | Some (OMat k W) => (Ok (k, W), h)
  | _ => (Raise TypeError, h)
  end.

Definition read_list (l : loc) : M (list loc) := λ h,
  match h !! l with
  | Some (OList items) => (Ok items, h)
  | _ => (Raise TypeError, h)
  end.

(** [x >= c]: a new mask, of the library of [x]. *)
Definition ge (x : loc) (c : Q) : M loc :=
  '(k, v) ← read_vec x; alloc (OMask k (vge v c)).

(** [jnp.where(c, a, y)]: a new JAX array. *)
Definition where_ (c : loc) (a : Q) (y : loc) : M loc :=
  '(_, m) ← read_mask c;
  '(_, v) ← read_vec y;
  r ← lift (jnp_where m a v);
  alloc (OVec Jax r).

(** [W.dot(s)]: a method of [W], its result is of the library of [W]. *)
Definition dot (W s : loc) : M loc :=
  '(k, w) ← read_mat W;
  '(_, m) ← read_mask s;
  r ← lift (dot w m);
  alloc (OVec k r).

(** [-x], [x + c], [c * x], [x + y]: new arrays. *)
Definition neg (x : loc) : M loc :=
  '(k, v) ← read_vec x; alloc (OVec k (vneg v)).

Definition adds (x : loc) (c : Q) : M loc :=
  '(k, v) ← read_vec x; alloc (OVec k (vadds v c)).

Definition smul (c : Q) (x : loc) : M loc :=
  '(k, v) ← read_vec x; alloc (OVec k (smulv c v)).

Definition add (x y : loc) : M loc :=
  '(kx, vx) ← read_vec x;
  '(ky, vy) ← read_vec y;
  r ← lift (vadd vx vy);
  alloc (OVec (join kx ky) r).

(** [x += y], returning the reference [x] is bound to afterwards.  A JAX
    array has no in-place addition, the name is rebound to a new sum; a
    NumPy array is overwritten where it is, if the sum has its shape. *)
Definition iadd (x y : loc) : M loc :=
  '(kx, vx) ← read_vec x;
  '(ky, vy) ← read_vec y;
  r ← lift (vadd vx vy);
  match kx with
  | Jax => alloc (OVec Jax r)
  | Numpy =>
      if (length r =? length vx)%nat
      then store x (OVec Numpy r);; mret x
      else lift (Raise DimensionMismatch)
  end.

(** [xs.append(x)] and [xs[-1]]. *)
Definition append (xs x : loc) : M unit :=
  items ← read_list xs; store xs (OList (items ++ [x])).

Definition last_item (xs : loc) : M loc :=
  items ← read_list xs; lift (py_last items).

Fixpoint for_each {S X} (body : S → X → M S) (s : S) (xs : list X) : M S :=
  match xs with
  | [] => mret s
  | x :: xs' => s' ← body s x; for_each body s' xs'
  end.

(** The jitted [run_step]: the compiled function reads its array
    arguments and returns two new JAX arrays; its local variables are not
    objects of the store. *)
Definition run_step (v_prev : loc) (v_thresh v_reset : Q) (W : loc)
    (tau_m dt membr_R : Q) : M (loc * loc) :=
  '(_, v) ← read_vec v_prev;
  '(_, w) ← read_mat W;
  '(V', spiked) ← lift (Jitted.run_step v v_thresh v_reset w tau_m dt membr_R);
  V ← alloc (OVec Jax V');
  spiked ← alloc (OMask Jax spiked);
  mret (V, spiked).

(** Loop body of the driver that calls [run_step]; the loop rebinds [V],
    the name [spike_train] stays bound to one list. *)
Definition jitted_body (W spike_train : loc)
    (tau_m v_reset v_thresh membr_R dt : Q) (V : loc) (it : nat * Q)
  : M loc :=
  let '(i, t) := it in
  if (i =? 0)%nat then mret V
  else
    '(V, spiked) ← run_step V v_thresh v_reset W tau_m dt membr_R;
    append spike_train spiked;;
    mret V.

(** The driver that calls [run_step]. *)
Definition run_simulation_jitted (W V : loc)
    (tau_m v_reset v_thresh membr_R t_max dt : Q) : M loc :=
  spike_train ← alloc (OList []);
  ts ← lift (arange 0 t_max dt);
  _ ← alloc (OVec Jax ts);
  _ ← for_each (jitted_body W spike_train tau_m v_reset v_thresh membr_R dt)
               V (enumerate ts);
  mret spike_train.

(** Loop body of the driver with the step written out in place. *)
Definition inlined_body (W spike_train : loc)
    (tau_m v_reset v_thresh membr_R dt : Q) (V : loc) (it : nat * Q)
  : M loc :=
  let '(i, t) := it in
  if (i =? 0)%nat then mret V
  else
    fired ← ge V v_thresh;
    V ← where_ fired v_reset V;
    append spike_train fired;;
    newest ← last_item spike_train;
    I_syn ← dot W newest;
    rate ← lift (py_div dt tau_m);
    neg_V ← neg V;
    leak ← adds neg_V v_reset;
    input ← smul membr_R I_syn;
    drive ← add leak input;
    dV ← smul rate drive;
    V ← iadd V dV;
    V ← where_ fired v_reset V;
    mret V.

(** The driver with the step written out in place. *)
Definition run_simulation_inlined (W V : loc)
    (tau_m v_reset v_thresh membr_R t_max dt : Q) : M loc :=
  spike_train ← alloc (OList []);
  ts ← lift (arange 0 t_max dt);
  _ ← alloc (OVec Jax ts);
  _ ← for_each (inlined_body W spike_train tau_m v_reset v_thresh membr_R dt)
               V (enumerate ts);
  mret spike_train.

(** Every object of [h0] is at its place in [h], unchanged, and the list
    [xs] was allocated after them and refers to objects allocated after
    them. *)
Definition inv (h0 : heap) (xs : loc) (h : heap) : Prop :=
  h0 `prefix_of` h
  ∧ (length h0 ≤ xs)%nat
  ∧ ∃ items, h !! xs = Some (OList items)
             ∧ Forall (λ l, (length h0 ≤ l)%nat) items.

(** A statement keeps [I] and, when it returns, returns a value in [Q]. *)
Definition keeps {A} (I : heap → Prop) (m : M A) (Q : A → Prop) : Prop :=
  ∀ h, I h → I (m h).2 ∧ ∀ a, (m h).1 = Ok a → Q a.

(** The reference [xs] was bound to no object in [h]; in [h'] it is bound
    to a list, and so was no item of that list. *)
Definition new_list (h h' : heap) (xs : loc) : Prop :=
  h !! xs = None
  ∧ ∃ items, h' !! xs = Some (OList items)
             ∧ Forall (λ l, h !! l = None) items.

(** An array, as opposed to a list. *)
Definition is_array (o : obj) : Prop :=
  match o with
  | OList _ => False
  | _ => True
  end.

(** The reference holds the matrix, the vector, the list of masks. *)
Definition holds_mat (h : heap) (l : loc) (w : Mat) : Prop :=
  ∃ k, h !! l = Some (OMat k w).

Definition holds_vec (h : heap) (l : loc) (v : Vec) : Prop :=
  ∃ k, h !! l = Some (OVec k v).

Definition holds_mask (h : heap) (l : loc) (m : BVec) : Prop :=
  ∃ k, h !! l = Some (OMask k m).

Definition holds_masks (h : heap) (xs : loc) (st : list BVec) : Prop :=
  ∃ items, h !! xs = Some (OList items) ∧ Forall2 (holds_mask h) items st.

(** A loop body or a loop on the store against the same on values: where
    that one returns potentials and masks, this one returns a reference
    to the potentials, the list holds references to the masks and the
    matrix is where it was; where that one raises, this one raises the
    same. *)
Definition refines (lW lst : loc) (w : Mat) (out : result loc * heap)
    (r : result (Vec * list BVec)) : Prop :=
  match r with
  | Ok (v', st') =>
      ∃ lV', out.1 = Ok lV' ∧ holds_mat out.2 lW w
             ∧ holds_vec out.2 lV' v' ∧ holds_masks out.2 lst st'
  | Raise e => out.1 = Raise e
  end.

(** Either driver. *)
Definition run_simulation (inlined : bool) (W V : loc)
    (tau_m v_reset v_thresh membr_R t_max dt : Q) : M loc :=
  if inlined
  then run_simulation_inlined W V tau_m v_reset v_thresh membr_R t_max dt
  else run_simulation_jitted W V tau_m v_reset v_thresh membr_R t_max dt.

End Store.

(** ** Scenarios *)

Definition W2 : Mat := mkMat 2 [[0; 5]; [5; 0]].

(** The number of time points of a run, [K] in the description of the
    simulator. *)
Definition num_points (t_max dt : Q) : nat := Z.to_nat (Qceiling (t_max / dt)).

(** The first item of [enumerate] carries index 0, every later one a
    positive index. *)
Definition later (it : nat * Q) : Prop := it.1 ≠ 0%nat.

(** ** Quiescence *)

(** Every weight is zero. *)
Definition zero_matrix (W : Mat) : Prop :=
  Forall (Forall (λ w, w == 0)) (mrows W).

(** Every potential is below [c]. *)
Definition below (c : Q) (V : Vec) : Prop := Forall (λ v, v < c) V.

(** No neuron spikes in the mask. *)
Definition silent (mask : BVec) : Prop := Forall (λ b, b = false) mask.

(** From [a] to [b] a potential does not move away from [r] and does not
    pass to the other side of it. *)
Definition decays_toward (r a b : Q) : Prop :=
  Qabs (b - r) <= Qabs (a - r) ∧ 0 <= (a - r) * (b - r).

(** The run returns, no recorded mask holds a spike, and from every time
    point to the next every potential decays toward [v_reset]. *)
Definition quiescent (W : Mat) (V0 : Vec)
    (tau_m v_reset v_thresh membr_R t_max dt : Q) : Prop :=
  ∃ train,
    Jitted.run_simulation W V0 tau_m v_reset v_thresh membr_R t_max dt
    = Ok train
    ∧ Forall silent train
    ∧ ∀ n Vn stn Vn' stn',
        Jitted.run_loop n W V0 tau_m v_reset v_thresh membr_R t_max dt
        = Ok (Vn, stn) →
        Jitted.run_loop (S n) W V0 tau_m v_reset v_thresh membr_R t_max dt
        = Ok (Vn', stn') →
        ∀ i a b, Vn !! i = Some a → Vn' !! i = Some b →
                 decays_toward v_reset a b.

(** ** The notebook's initial conditions *)

(** [jnp.ones(n)]. *)
Definition ones (n : nat) : Vec := replicate n 1.

(** [x * c] for an array [x] and a scalar [c]. *)
Definition vmuls (x : Vec) (c : Q) : Vec := (λ v, v * c) <$> x.

(** [n_neurons = len(W)]: the first dimension of [W]. *)
Definition n_neurons (W : Mat) : nat := nrows W.

(** [_V = jnp.ones(n_neurons) * _V_reset]. *)
Definition initial_potentials (W : Mat) (V_reset : Q) : Vec :=
  vmuls (ones (n_neurons W)) V_reset.

(** Every potential has the value [r]. *)
Definition at_rest (r : Q) (V : Vec) : Prop := Forall (λ v, v == r) V.

(** ** The two shopping carts *)

Module Cart.

Inductive class : Set := ShoppingCart | FunctionalShoppingCart.

(** A Python list of strings, or an instance of one of the two classes
    with its attribute [items], a reference to a list once [__init__] has
    bound it.  Strings are immutable and are held by value. *)
Inductive obj : Type :=
| OItems (xs : list string)
| OCart (c : class) (items : option nat).

Abbreviation loc := nat.
Abbreviation heap := (list obj).

(** What a method returns: [None] or a reference. *)
Inductive value : Set := VNone | VRef (l : loc).

(** A statement maps the store to a value or an exception, and the store
    it leaves. *)
Definition M (A : Type) : Type := heap → result A * heap.

#[global] Instance cart_ret : MRet M := λ A a h, (Ok a, h).
#[global] Instance cart_bind : MBind M := λ A B f m h,
  match m h with
  | (Ok a, h') => f a h'
  | (Raise e, h') => (Raise e, h')
  end.

Definition raise {A} (e : error) : M A := λ h, (Raise e, h).

Definition alloc (o : obj) : M loc := λ h, (Ok (length h), h ++ [o]).

Definition store (l : loc) (o : obj) : M () :=
  λ h, (Ok (), <[l := o]> h).

Definition read_cart (l : loc) : M (class * option loc) := λ h,
  match h !! l with
  | Some (OCart c items) => (Ok (c, items), h)
  | _ => (Raise TypeError, h)
  end.

Definition read_items (l : loc) : M (list string) := λ h,
  match h !! l with
  | Some (OItems xs) => (Ok xs, h)
  | _ => (Raise TypeError, h)
  end.

(** [self.items]. *)
Definition get_items (self : loc) : M loc :=
  '(_, items) ← read_cart self;
  match items with
  | Some l => mret l
  | None => raise TypeError
  end.

(** [self.items = l]. *)
Definition set_items (self l : loc) : M () :=
  '(c, _) ← read_cart self; store self (OCart c (Some l)).

(** [xs.append(x)]. *)
Definition append (xs : loc) (x : string) : M () :=
  old ← read_items xs; store xs (OItems (old ++ [x])).

(** [copy.deepcopy(xs)] for a list of strings: a new list of the same
    strings. *)
Definition deepcopy (xs : loc) : M loc :=
  old ← read_items xs; alloc (OItems old).

(** [C()]: a new instance, whose [__init__] binds [self.items] to a new
    empty list. *)
Definition new (c : class) : M loc :=
  self ← alloc (OCart c None);
  items ← alloc (OItems []);
  set_items self items;;
  mret self.

(** [self.add_item(item)], the method of the class of [self]. *)
Definition add_item (self : loc) (item : string) : M value :=
  '(c, _) ← read_cart self;
  match c with
  | ShoppingCart =>
      items ← get_items self;
      append items item;;
      mret VNone
  | FunctionalShoppingCart =>
      new_cart ← new FunctionalShoppingCart;
      items ← get_items self;
      all_items ← deepcopy items;
      append all_items item;;
      set_items new_cart all_items;;
      mret (VRef new_cart)
  end.

(** [cart = ShoppingCart(); cart.add_item(a); cart.add_item(b)]: the
    cart. *)
Definition fill_in_place (a b : string) : M loc :=
  cart ← new ShoppingCart;
  add_item cart a;;
  add_item cart b;;
  mret cart.

(** [func_cart = FunctionalShoppingCart(); func_cart.add_item(a);
    func_cart = func_cart.add_item(b)]: the first cart, and what
    [func_cart] is bound to at the end. *)
Definition fill_functional (a b : string) : M (loc * value) :=
  func_cart ← new FunctionalShoppingCart;
  add_item func_cart a;;
  func_cart' ← add_item func_cart b;
  mret (func_cart, func_cart').

(** The strings a cart holds, in order. *)
Definition contents (h : heap) (cart : loc) : option (list string) :=
  match h !! cart with
  | Some (OCart _ (Some l)) =>
      match h !! l with
      | Some (OItems xs) => Some xs
      | _ => None
      end
  | _ => None
  end.

(** Every cart holds a list, and no two carts hold the same list. *)
Definition separate (h : heap) : Prop :=
  (∀ cart c l, h !! cart = Some (OCart c (Some l)) →
     ∃ xs, h !! l = Some (OItems xs))
  ∧ (∀ cart1 cart2 c1 c2 l,
       h !! cart1 = Some (OCart c1 (Some l)) →
       h !! cart2 = Some (OCart c2 (Some l)) → cart1 = cart2)
  ∧ (∀ cart c, h !! cart ≠ Some (OCart c None)).

End Cart.

(** ** Functions under [grad] and [jit] *)

Module Sharp.

(** What the argument of [f] is while JAX runs the Python function: a
    number in a plain call, a number with its tangent under [grad], a
    tracer without a value while a function is traced. *)
Inductive num : Type :=
| Conc (v : Q)
| Dual (v dv : Q)
| Traced.

(** [x < c], as the truth value an [if] asks for: a tracer without a
    value has none. *)
Definition lt_const (x : num) (c : Q) : result bool :=
  match x with
  | Conc v | Dual v _ => Ok (negb (Qle_bool c v))
  | Traced => Raise TypeError
  end.

(** [c * x] for a literal [c]. *)
Definition scale (c : Q) (x : num) : num :=
  match x with
  | Conc v => Conc (c * v)
  | Dual v dv => Dual (c * v) (c * dv)
  | Traced => Traced
  end.

(** [x ** n] for a literal [n >= 1]. *)
Definition pow (x : num) (n : positive) : num :=
  match x with
  | Conc v => Conc (v ^ Zpos n)
  | Dual v dv =>
      Dual (v ^ Zpos n) (inject_Z (Zpos n) * v ^ (Zpos n - 1) * dv)
  | Traced => Traced
  end.

(** [f]. *)
Definition f (x : num) : result num :=
  b ← lt_const x 3;
  if (b : bool) then Ok (scale 3 (pow x 3)) else Ok (scale (- (4)) x).

(** A Python number as a caller writes it: [2] or [2.]. *)
Inductive pynum : Type :=
| PyInt (n : Z)
| PyFloat (x : Q).

(** [grad(g)(x)]: only a float can be differentiated at; [g] is then run
    on [x] carrying the tangent 1, and the tangent of the result is
    returned. *)
Definition grad (g : num → result num) (x : pynum) : result Q :=
  match x with
  | PyInt _ => Raise TypeError
  | PyFloat x =>
      y ← g (Dual x 1);
      match y with
      | Dual _ dy => Ok dy
      | Conc _ => Ok 0
      | Traced => Raise TypeError
      end
  end.

(** An integer argument: a Python integer, or a tracer without a value. *)
Inductive int : Type :=
| Int (z : Z)
| TracedInt.

(** [a + b]. *)
Definition add (a b : int) : int :=
  match a, b with
  | Int x, Int y => Int (x + y)
  | _, _ => TracedInt
  end.

(** [range(n)]: a tracer cannot be interpreted as an integer. *)
Definition range (n : int) : result (list Z) :=
  match n with
  | Int n => Ok (Z.of_nat <$> seq 0 (Z.to_nat n))
  | TracedInt => Raise TypeError
  end.

(** [run_for_n]. *)
Definition run_for_n (x n : int) : result int :=
  let accum := Int 0 in
  indices ← range n;
  Ok (foldl (λ accum i, add accum x) accum indices).

End Sharp.

(** ** Rounded arithmetic

    The exact embedding above says what the simulator computes when no
    operation rounds.  The notebook computes in two precisions: a JAX
    array, and every value inside a jitted function, is a single-precision
    float; a Python scalar and the entries of a NumPy array are
    double-precision floats.  The embedding below is the same code over an
    arithmetic that is a parameter: two number types, the operations the
    code applies in each, and the rounding from the wider to the narrower
    one.  No law is asked of the operations, so what is proved of this
    embedding holds whatever they round to, overflow to or return at a
    zero divisor. *)

Class Arith : Type := {
  (* single precision: JAX arrays, values inside a jitted function *)
  F32 : Type;
  zero32 : F32;
  one32 : F32;
  neg32 : F32 → F32;
  add32 : F32 → F32 → F32;
  mul32 : F32 → F32 → F32;
  div32 : F32 → F32 → F32;
  geb32 : F32 → F32 → bool;          (* x >= y *)
  sum32 : list F32 → F32;            (* the reduction of a contraction *)
  (* double precision: Python floats, NumPy arrays *)
  F64 : Type;
  zero64 : F64;
  one64 : F64;
  sub64 : F64 → F64 → F64;
  mul64 : F64 → F64 → F64;
  div64 : F64 → F64 → F64;
  eqb64 : F64 → F64 → bool;          (* x == y *)
  sum64 : list F64 → F64;
  ceil64 : F64 → option Z;           (* none for an infinity or a nan *)
  (* a double stored in a single-precision array *)
  cast : F64 → F32;
  (* entry [i] of [arange(start, _, step)] in a single-precision array *)
  point32 : F64 → F64 → nat → F32
}.

Module Rounded.

(** A two-dimensional array with entries in [T]. *)
Record Mat (T : Type) : Type := mkMat { ncols : nat; mrows : list (list T) }.
Arguments mkMat {T}.
Arguments ncols {T}.
Arguments mrows {T}.

Definition nrows {T} (W : Mat T) : nat := length (mrows W).

Definition wf_mat {T} (W : Mat T) : Prop :=
  Forall (λ r, length r = ncols W) (mrows W).

Definition square {T} (N : nat) (W : Mat T) : Prop :=
  wf_mat W ∧ nrows W = N ∧ ncols W = N.

(** The first item of [enumerate] carries index 0, every later one a
    positive index. *)
Definition later {T} (it : nat * T) : Prop := it.1 ≠ 0%nat.

(** The largest and the smallest length the array library can count. *)
Definition max_intp : Z := 2 ^ 63 - 1.
Definition min_intp : Z := - 2 ^ 63.

(** The weight matrix as the caller holds it: the NumPy array [np.load]
    returns, with entries in [D], or the JAX array [jnp.asarray] makes of
    it, with entries in [S]. *)
Inductive weights (D S : Type) : Type :=
| Numpy (W : Mat D)
| Jax (W : Mat S).
Arguments Numpy {D S}.
Arguments Jax {D S}.

(** The array [W.dot] returns: NumPy's for a NumPy [W]. *)
Inductive current (D S : Type) : Type :=
| NumpyArray (x : list D)
| JaxArray (x : list S).
Arguments NumpyArray {D S}.
Arguments JaxArray {D S}.

(** The local variables of [run_step] when it returns: the mask, [V] after
    each of its three assignments, the synaptic current and the increment. *)
Record locals (S : Type) : Type := mkLocals {
  l_spiked : list bool;
  l_V_reset : list S;
  l_I_syn : list S;
  l_dV : list S;
  l_V_euler : list S;
  l_V : list S
}.
Arguments mkLocals {S}.
Arguments l_spiked {S}.
Arguments l_V_reset {S}.
Arguments l_I_syn {S}.
Arguments l_dV {S}.
Arguments l_V_euler {S}.
Arguments l_V {S}.

Section model.
Context {A : Arith}.

(** The shape of the weight matrix: rows, columns. *)
Definition shape (W : weights F64 F32) : nat * nat :=
  match W with
  | Numpy W => (nrows W, ncols W)
  | Jax W => (nrows W, ncols W)
  end.

(** A boolean used as a number, in either precision. *)
Definition b2f32 (b : bool) : F32 := if b then one32 else zero32.
Definition b2f64 (b : bool) : F64 := if b then one64 else zero64.

(** [x >= c] for an array [x] and a scalar [c]. *)
Definition vge (x : list F32) (c : F32) : list bool :=
  (λ v, geb32 v c) <$> x.

(** [jnp.where(c, a, y)] for a mask [c], a scalar [a] and an array [y]. *)
Definition jnp_where (c : list bool) (a : F32) (y : list F32)
  : result (list F32) :=
  broadcast (λ (b : bool) v, if b then a else v) c y.

(** [-x], [x + c], [c * x] for an array [x] and a scalar [c]; [x + y] for
    two arrays. *)
Definition vneg (x : list F32) : list F32 := neg32 <$> x.
Definition vadds (x : list F32) (c : F32) : list F32 :=
  (λ v, add32 v c) <$> x.
Definition smulv (c : F32) (x : list F32) : list F32 :=
  (λ v, mul32 c v) <$> x.
Definition vadd (x y : list F32) : result (list F32) := broadcast add32 x y.

(** One entry of a matrix-vector product with a mask, on a JAX array and
    on a NumPy array: the products of the row with the mask read as
    numbers, reduced by the library. *)
Definition dot_row (r : list F32) (s : list bool) : F32 :=
  sum32 (zip_with (λ w b, mul32 w (b2f32 b)) r s).
Definition np_dot_row (r : list F64) (s : list bool) : F64 :=
  sum64 (zip_with (λ w b, mul64 w (b2f64 b)) r s).

(** [W.dot(s)] on a JAX array [W]. *)
Definition dot (W : Mat F32) (s : list bool) : result (list F32) :=
  if (ncols W =? length s)%nat then Ok ((λ r, dot_row r s) <$> mrows W)
  else Raise DimensionMismatch.

(** [W.dot(s)] on a NumPy array [W]: double precision, and a
    [ValueError] on shapes that are not aligned. *)
Definition np_dot (W : Mat F64) (s : list bool) : result (list F64) :=
  if (ncols W =? length s)%nat then Ok ((λ r, np_dot_row r s) <$> mrows W)
  else Raise ValueError.

(** The length of [arange(start, stop, step)] on Python floats: the
    quotient [(stop - start) / step] is a Python division, its ceiling is
    taken, and a ceiling that is no length the library can count is an
    error. *)
Definition arange_length (start stop step : F64) : result nat :=
  if eqb64 step zero64 then Raise ZeroDivision
  else match ceil64 (div64 (sub64 stop start) step) with
       | Some k =>
           if ((min_intp <=? k) && (k <=? max_intp))%Z then Ok (Z.to_nat k)
           else Raise ValueError
       | None => Raise ValueError
       end.

(** [jnp.arange(start, stop, step)] on Python floats. *)
Definition arange (start stop step : F64) : result (list F32) :=
  n ← arange_length start stop step;
  Ok (point32 start step <$> seq 0 n).

(** [x / y] on Python floats. *)
Definition py_div (x y : F64) : result F64 :=
  if eqb64 y zero64 then Raise ZeroDivision else Ok (div64 x y).

(** Body of [run_step], on what the jitted function is traced with:
    single-precision values throughout.  [dt / tau_m] is the array
    library's division. *)
Definition run_step_locals (v_prev : list F32) (v_thresh v_reset : F32)
    (W : Mat F32) (tau_m dt membr_R : F32) : result (locals F32) :=
  let spiked := vge v_prev v_thresh in
  V0 ← jnp_where spiked v_reset v_prev;
  I_syn ← dot W spiked;
  drive ← vadd (vadds (vneg V0) v_reset) (smulv membr_R I_syn);
  let dV := smulv (div32 dt tau_m) drive in
  V1 ← vadd V0 dV;
  V2 ← jnp_where spiked v_reset V1;
  Ok (mkLocals spiked V0 I_syn dV V1 V2).

(** [run_step]: its body, returning [V, spiked]. *)
Definition run_step (v_prev : list F32) (v_thresh v_reset : F32)
    (W : Mat F32) (tau_m dt membr_R : F32)
  : result (list F32 * list bool) :=
  l ← run_step_locals v_prev v_thresh v_reset W tau_m dt membr_R;
  Ok (l_V l, l_spiked l).

(** What a jitted function receives for a weight matrix: a NumPy array
    is rounded to single precision, a JAX array is passed as it is. *)
Definition traced (W : weights F64 F32) : Mat F32 :=
  match W with
  | Numpy W => mkMat (ncols W) ((λ r : list F64, cast <$> r) <$> mrows W)
  | Jax W => W
  end.

(** Body of the [for] loop of the first [run_simulation]: the call of the
    jitted [run_step] rounds the Python floats it is given. *)
Definition loop_body (W : weights F64 F32) (tau_m v_reset v_thresh membr_R dt : F64)
    (s : list F32 * list (list bool)) (it : nat * F32)
  : result (list F32 * list (list bool)) :=
  let '(V, spike_train) := s in
  let '(i, t) := it in
  if (i =? 0)%nat then Ok (V, spike_train)
  else
    '(V, spiked) ← run_step V (cast v_thresh) (cast v_reset) (traced W)
                     (cast tau_m) (cast dt) (cast membr_R);
    Ok (V, spike_train ++ [spiked]).

(** The first [run_simulation]. *)
Definition run_simulation (W : weights F64 F32) (V : list F32)
    (tau_m v_reset v_thresh membr_R t_max dt : F64)
  : result (list (list bool)) :=
  ts ← arange zero64 t_max dt;
  '(V, spike_train) ← for_each (loop_body W tau_m v_reset v_thresh membr_R dt)
                               (V, []) (enumerate ts);
  Ok spike_train.

(** [W.dot(s)] on either kind of [W]. *)
Definition weights_dot (W : weights F64 F32) (s : list bool) : result (current F64 F32) :=
  match W with
  | Numpy W => I ← np_dot W s; Ok (NumpyArray I)
  | Jax W => I ← dot W s; Ok (JaxArray I)
  end.

(** [membr_R * I_syn] as the sum with a JAX array receives it: a NumPy
    array is multiplied in double precision and then rounded. *)
Definition scaled (membr_R : F64) (I_syn : current F64 F32) : list F32 :=
  match I_syn with
  | NumpyArray x => cast <$> ((λ v, mul64 membr_R v) <$> x)
  | JaxArray x => smulv (cast membr_R) x
  end.

(** Body of the [for] loop of the [run_simulation] with the step written
    out in place.  Nothing is jitted: [dt / tau_m] divides Python floats
    and raises on a zero [tau_m], [W.dot] is NumPy's on a NumPy [W], and a
    Python float meets a JAX array rounded to single precision. *)
Definition inlined_loop_body (W : weights F64 F32)
    (tau_m v_reset v_thresh membr_R dt : F64)
    (s : list F32 * list (list bool)) (it : nat * F32)
  : result (list F32 * list (list bool)) :=
  let '(V, spike_train) := s in
  let '(i, t) := it in
  if (i =? 0)%nat then Ok (V, spike_train)
  else
    let fired := vge V (cast v_thresh) in
    V ← jnp_where fired (cast v_reset) V;
    let spike_train := spike_train ++ [fired] in
    newest ← py_last spike_train;
    I_syn ← weights_dot W newest;
    rate ← py_div dt tau_m;
    drive ← vadd (vadds (vneg V) (cast v_reset)) (scaled membr_R I_syn);
    let dV := smulv (cast rate) drive in
    V ← vadd V dV;
    V ← jnp_where fired (cast v_reset) V;
    Ok (V, spike_train).

(** The [run_simulation] with the step written out in place. *)
Definition inlined_run_simulation (W : weights F64 F32) (V : list F32)
    (tau_m v_reset v_thresh membr_R t_max dt : F64)
  : result (list (list bool)) :=
  ts ← arange zero64 t_max dt;
  '(V, spike_train) ← for_each
                        (inlined_loop_body W tau_m v_reset v_thresh membr_R dt)
                        (V, []) (enumerate ts);
  Ok spike_train.

(** The two drivers compute [dt / tau_m] alike: the quotient of the
    Python floats, rounded, is the quotient of the rounded floats. *)
Definition same_rate (tau_m dt : F64) : Prop :=
  cast (div64 dt tau_m) = div32 (cast dt) (cast tau_m).

(** The two drivers compute [membr_R * I_syn] alike.  On a JAX array both
    contract in single precision.  On a NumPy array the jitted step
    rounds the weights first and the driver written out in place rounds
    the product last: the two agree on every row and every mask. *)
Definition same_current (W : weights F64 F32) (membr_R : F64) : Prop :=
  match W with
  | Jax _ => True
  | Numpy W =>
      ∀ (row : list F64) (s : list bool),
        row ∈ mrows W → length s = ncols W →
        cast (mul64 membr_R
                (sum64 (zip_with
                          (λ w (b : bool),
                             mul64 w (if b then one64 else zero64)) row s)))
        = mul32 (cast membr_R)
            (sum32 (zip_with
                      (λ w (b : bool),
                         mul32 w (if b then one32 else zero32))
                      (cast <$> row) s))
  end.

End model.

End Rounded.

(** ** Two arithmetics *)

(** Exact arithmetic: both number types are the rationals and nothing
    rounds. *)
Definition exact : Arith := {|
  F32 := Q;
  zero32 := 0;
  one32 := 1;
  neg32 := Qopp;
  add32 := Qplus;
  mul32 := Qmult;
  div32 := Qdiv;
  geb32 := λ x y, Qle_bool y x;
  sum32 := foldr Qplus 0;
  F64 := Q;
  zero64 := 0;
  one64 := 1;
  sub64 := Qminus;
  mul64 := Qmult;
  div64 := Qdiv;
  eqb64 := Qeq_bool;
  sum64 := foldr Qplus 0;
  ceil64 := λ x, Some (Qceiling x);
  cast := λ x, x;
  point32 := λ start step i, start + inject_Z (Z.of_nat i) * step
|}.

(** IEEE 754 arithmetic, rounding to nearest with ties to even: binary32
    for single and binary64 for double precision.  The operations are
    those of the Standard Library's specification of floating-point
    arithmetic; they compute. *)
Module IEEE.

Abbreviation float := spec_float.

Definition add32 : float → float → float := SFadd 24 128.
Definition mul32 : float → float → float := SFmul 24 128.
Definition div32 : float → float → float := SFdiv 24 128.
Definition add64 : float → float → float := SFadd 53 1024.
Definition sub64 : float → float → float := SFsub 53 1024.
Definition mul64 : float → float → float := SFmul 53 1024.
Definition div64 : float → float → float := SFdiv 53 1024.

(** A finite double rounded to single precision. *)
Definition to_single (x : float) : float :=
  match x with
  | S754_finite s m e => binary_round 24 128 s m e
  | _ => x
  end.

(** The integer [n] as a double. *)
Definition of_Z (n : Z) : float := binary_normalize 53 1024 n 0 false.

(** The least integer not below [x]. *)
Definition ceil (x : float) : option Z :=
  match x with
  | S754_zero _ => Some 0%Z
  | S754_finite s m e =>
      let n := if s then Zneg m else Zpos m in
      Some (match e with
            | Zneg p => - ((- n) / 2 ^ Zpos p)
            | _ => n * 2 ^ e
            end)%Z
  | S754_infinity _ | S754_nan => None
  end.

(** The double a decimal literal [n / d] denotes, and the single it is
    stored as in a JAX array. *)
Definition double (n : Z) (d : positive) : float :=
  div64 (of_Z n) (of_Z (Zpos d)).
Definition single (n : Z) (d : positive) : float := to_single (double n d).

End IEEE.

(** The arithmetic of the notebook.  The order in which a contraction
    adds its products is the library's own; here they are added in index
    order, starting from zero. *)
Definition ieee : Arith := {|
  F32 := IEEE.float;
  zero32 := S754_zero false;
  one32 := IEEE.single 1 1;
  neg32 := SFopp;
  add32 := IEEE.add32;
  mul32 := IEEE.mul32;
  div32 := IEEE.div32;
  geb32 := λ x y, SFleb y x;
  sum32 := foldl IEEE.add32 (S754_zero false);
  F64 := IEEE.float;
  zero64 := S754_zero false;
  one64 := IEEE.double 1 1;
  sub64 := IEEE.sub64;
  mul64 := IEEE.mul64;
  div64 := IEEE.div64;
  eqb64 := SFeqb;
  sum64 := foldl IEEE.add64 (S754_zero false);
  ceil64 := IEEE.ceil;
  cast := IEEE.to_single;
  point32 := λ start step i,
    IEEE.to_single (IEEE.add64 start (IEEE.mul64 (IEEE.of_Z (Z.of_nat i)) step))
|}.

(** The two-neuron network of the scenarios, in single precision. *)
Definition W2s : Rounded.Mat (@F32 ieee) :=
  Rounded.mkMat 2 [[IEEE.single 0 1; IEEE.single 5 1];
                   [IEEE.single 5 1; IEEE.single 0 1]].

(** The same network as a NumPy array. *)
Definition W2d : Rounded.Mat (@F64 ieee) :=
  Rounded.mkMat 2 [[IEEE.double 0 1; IEEE.double 5 1];
                   [IEEE.double 5 1; IEEE.double 0 1]].

(** Neuron 1 feeds neuron 0 with weight 1. *)
Definition W_feed : Rounded.Mat (@F32 ieee) :=
  Rounded.mkMat 2 [[IEEE.single 0 1; IEEE.single 1 1];
                   [IEEE.single 0 1; IEEE.single 0 1]].

(** ** The exception monad *)

Lemma bind_Ok {A B} (f : A → result B) (m : result A) (b : B) :
  m ≫= f = Ok b ↔ ∃ a, m = Ok a ∧ f a = Ok b.
Proof.
  destruct m as [a|e]; simpl; split.
  - intros H; exists a; auto.
  - intros (a' & Ha & Hf); congruence.
  - discriminate.
  - intros (a' & Ha & _); discriminate.
Qed.

Lemma bind_ret_r {A} (m : result A) : m ≫= Ok = m.
Proof. by destruct m. Qed.

Lemma for_each_cons {S X} (body : S → X → result S) (s : S) (x : X)
    (xs : list X) :
  for_each body s (x :: xs) = body s x ≫= λ s', for_each body s' xs.
Proof. reflexivity. Qed.

Lemma for_each_app {S X} (body : S → X → result S) (s : S) (xs ys : list X) :
  for_each body s (xs ++ ys) = for_each body s xs ≫= λ s', for_each body s' ys.
Proof.
  revert s; induction xs as [|x xs IH]; intros s; simpl.
  - reflexivity.
  - destruct (body s x) as [s'|e]; simpl; [apply IH | reflexivity].
Qed.

Lemma for_each_ext {S X} (f g : S → X → result S) (s : S) (xs : list X) :
  (∀ s x, x ∈ xs → f s x = g s x) → for_each f s xs = for_each g s xs.
Proof.
  revert s; induction xs as [|x xs IH]; intros s Hfg; simpl; [reflexivity|].
  rewrite Hfg by apply list_elem_of_here.
  destruct (g s x) as [s'|e]; simpl; [|reflexivity].
  apply IH; intros s0 x0 Hx0; apply Hfg; by apply list_elem_of_further.
Qed.

(** ** Shapes of the array operations *)

Lemma broadcast_same {A B C} (f : A → B → C) (x : list A) (y : list B) :
  length x = length y → broadcast f x y = Ok (zip_with f x y).
Proof. intros H; unfold broadcast; by rewrite H, Nat.eqb_refl. Qed.

Lemma length_vge (x : Vec) (c : Q) : length (vge x c) = length x.
Proof. unfold vge; by rewrite length_fmap. Qed.

Lemma length_vneg (x : Vec) : length (vneg x) = length x.
Proof. unfold vneg; by rewrite length_fmap. Qed.

Lemma length_vadds (x : Vec) (c : Q) : length (vadds x c) = length x.
Proof. unfold vadds; by rewrite length_fmap. Qed.

Lemma length_smulv (c : Q) (x : Vec) : length (smulv c x) = length x.
Proof. unfold smulv; by rewrite length_fmap. Qed.

Lemma jnp_where_same (c : BVec) (a : Q) (y : Vec) :
  length c = length y →
  jnp_where c a y = Ok (zip_with (λ (b : bool) v, if b then a else v) c y).
Proof. apply broadcast_same. Qed.

Lemma vadd_same (x y : Vec) :
  length x = length y → vadd x y = Ok (zip_with Qplus x y).
Proof. apply broadcast_same. Qed.

Lemma dot_contracts (W : Mat) (s : BVec) :
  ncols W = length s → dot W s = Ok ((λ r, dot_row r s) <$> mrows W).
Proof. intros H; unfold dot; by rewrite H, Nat.eqb_refl. Qed.

Lemma dot_mismatch (W : Mat) (s : BVec) :
  ncols W ≠ length s → dot W s = Raise DimensionMismatch.
Proof.
  intros H; unfold dot.
  destruct (Nat.eqb_spec (ncols W) (length s)); [contradiction | reflexivity].
Qed.

Create Rewrite HintDb shape.
#[global] Hint Rewrite @length_zip_with @length_fmap length_vge length_vneg
  length_vadds length_smulv length_seq : shape.

(** ** One step *)

Section step.
Context (W : Mat) (tau_m v_reset v_thresh membr_R dt : Q).

Let sel : bool → Q → Q := λ b v, if b then v_reset else v.

(** On matching shapes no operation of the step raises, and every local
    variable is the elementwise combination the source spells out. *)
Lemma run_step_locals_shapes (v_prev : Vec) :
  ncols W = length v_prev → nrows W = length v_prev →
  let spiked := vge v_prev v_thresh in
  let V0 := zip_with sel spiked v_prev in
  let I_syn := (λ r, dot_row r spiked) <$> mrows W in
  let dV := smulv (dt / tau_m)
              (zip_with Qplus (vadds (vneg V0) v_reset) (smulv membr_R I_syn)) in
  let V1 := zip_with Qplus V0 dV in
  Jitted.run_step_locals v_prev v_thresh v_reset W tau_m dt membr_R
  = Ok (Jitted.mkLocals spiked V0 I_syn dV V1 (zip_with sel spiked V1)).
Proof.
  intros Hc Hr spiked V0 I_syn dV V1. unfold Jitted.run_step_locals.
  assert (Hs : length spiked = length v_prev) by apply length_vge.
  assert (HV0 : length V0 = length v_prev).
  { unfold V0. rewrite length_zip_with. lia. }
  assert (HI : length I_syn = length v_prev).
  { unfold I_syn. rewrite length_fmap. exact Hr. }
  assert (HdV : length dV = length v_prev).
  { unfold dV. autorewrite with shape. lia. }
  assert (HV1 : length V1 = length v_prev).
  { unfold V1. rewrite length_zip_with. lia. }
  fold spiked. rewrite jnp_where_same by lia. simpl. fold sel V0.
  rewrite dot_contracts by lia. simpl. fold I_syn.
  rewrite vadd_same by (autorewrite with shape; lia).
  simpl. fold dV. rewrite vadd_same by lia. simpl. fold V1.
  rewrite jnp_where_same by lia. reflexivity.
Qed.

Lemma run_step_shapes (v_prev : Vec) :
  ncols W = length v_prev → nrows W = length v_prev →
  ∃ V, Jitted.run_step v_prev v_thresh v_reset W tau_m dt membr_R
       = Ok (V, vge v_prev v_thresh)
       ∧ length V = length v_prev
       ∧ ∀ i, vge v_prev v_thresh !! i = Some true → V !! i = Some v_reset.
Proof.
  intros Hc Hr. unfold Jitted.run_step.
  rewrite (run_step_locals_shapes v_prev Hc Hr).
  cbn [mbind result_bind Jitted.l_V Jitted.l_spiked].
  eexists; split; [reflexivity|].
  assert (Hlen : ∀ V1 : Vec,
    length V1 = length v_prev →
    length (zip_with sel (vge v_prev v_thresh) V1) = length v_prev).
  { intros V1 H1. rewrite length_zip_with, length_vge. lia. }
  match goal with |- length (zip_with sel _ ?V1) = _ ∧ _ =>
    assert (H1 : length V1 = length v_prev) end.
  { autorewrite with shape. unfold nrows in Hr. lia. }
  split; [by apply Hlen|].
  intros i Hi. rewrite lookup_zip_with, Hi.
  match goal with |- Some true ≫= (λ _, ?o ≫= _) = _ =>
    destruct o as [v|] eqn:Hv end; [reflexivity|].
  exfalso. apply lookup_ge_None in Hv. apply lookup_lt_Some in Hi.
  rewrite length_vge in Hi. lia.
Qed.

(** Whatever the shapes, the mask a step returns is the comparison of the
    potentials it started from with the threshold. *)
Lemma run_step_mask (v_prev V : Vec) (spiked : BVec) :
  Jitted.run_step v_prev v_thresh v_reset W tau_m dt membr_R = Ok (V, spiked) →
  spiked = vge v_prev v_thresh.
Proof.
  unfold Jitted.run_step. intros H.
  apply bind_Ok in H. destruct H as (l & Hl & H). injection H as <- <-.
  unfold Jitted.run_step_locals in Hl.
  repeat (apply bind_Ok in Hl; destruct Hl as (? & ? & Hl)).
  by injection Hl as <-.
Qed.
End step.

(** ** Time points *)

Lemma Qeq_bool_false (x y : Q) : ¬ x == y → Qeq_bool x y = false.
Proof.
  intros H. destruct (Qeq_bool x y) eqn:E; [|reflexivity].
  apply Qeq_bool_iff in E. contradiction.
Qed.

Lemma arange_points (t_max dt : Q) :
  ¬ dt == 0 →
  ∃ ts, arange 0 t_max dt = Ok ts ∧ length ts = num_points t_max dt.
Proof.
  intros Hdt. unfold arange. rewrite Qeq_bool_false by exact Hdt.
  eexists; split; [reflexivity|].
  autorewrite with shape. unfold num_points. f_equal.
  apply Qceiling_comp. field. exact Hdt.
Qed.

Lemma enumerate_cons (t : Q) (ts : list Q) :
  ∃ items, enumerate (t :: ts) = (0%nat, t) :: items
           ∧ length items = length ts ∧ Forall later items.
Proof.
  unfold enumerate. simpl. eexists; split; [reflexivity|]. split.
  - rewrite length_zip_with, length_seq. lia.
  - apply Forall_forall. intros [i x] Hin.
    apply elem_of_lookup_zip_with in Hin as (j & a & b & Heq & Ha & Hb).
    injection Heq as -> ->. apply lookup_seq in Ha as [-> _].
    unfold later; simpl; lia.
Qed.

(** ** The loop of the jitted driver *)

Section loops.
Context (W : Mat) (tau_m v_reset v_thresh membr_R dt : Q).

Let jbody := Jitted.loop_body W tau_m v_reset v_thresh membr_R dt.
Let ibody := Inlined.loop_body W tau_m v_reset v_thresh membr_R dt.

Lemma jbody_first (s : list Q * list (list bool)) (t : Q) :
  jbody s (0%nat, t) = Ok s.
Proof. by destruct s. Qed.

Lemma jloop_first (s : list Q * list (list bool)) (t : Q)
    (items : list (nat * Q)) :
  for_each jbody s ((0%nat, t) :: items) = for_each jbody s items.
Proof. by rewrite for_each_cons, jbody_first. Qed.

Lemma jbody_later (V : Vec) (st : list BVec) (it : nat * Q) :
  later it →
  jbody (V, st) it
  = Jitted.run_step V v_thresh v_reset W tau_m dt membr_R
      ≫= λ '(V', spiked), Ok (V', st ++ [spiked]).
Proof.
  destruct it as [i t]. unfold later; simpl. intros Hi.
  destruct (Nat.eqb_spec i 0); [contradiction | reflexivity].
Qed.

(** With the step written out in place the same state results, provided
    the Python division does not raise. *)
Lemma ibody_jbody (s : list Q * list (list bool)) (it : nat * Q) :
  ¬ tau_m == 0 → ibody s it = jbody s it.
Proof.
  intros Htau. destruct s as [V st], it as [i t].
  unfold ibody, jbody, Inlined.loop_body, Jitted.loop_body.
  destruct (i =? 0)%nat; [reflexivity|].
  unfold Jitted.run_step, Jitted.run_step_locals, py_last, py_div.
  rewrite last_snoc, Qeq_bool_false by exact Htau.
  destruct (jnp_where (vge V v_thresh) v_reset V) as [V0|e];
    [|reflexivity]. cbn [mbind result_bind].
  destruct (dot W (vge V v_thresh)) as [I_syn|e];
    [|reflexivity]. cbn [mbind result_bind].
  destruct (vadd (vadds (vneg V0) v_reset) (smulv membr_R I_syn))
    as [drive|e]; [|reflexivity]. cbn [mbind result_bind].
  destruct (vadd V0 (smulv (dt / tau_m) drive)) as [V1|e];
    [|reflexivity]. cbn [mbind result_bind].
  destruct (jnp_where (vge V v_thresh) v_reset V1) as [V2|e]; reflexivity.
Qed.

(** On an [N]-by-[N] matrix and [N] potentials the loop runs through any
    list of later items: it appends one mask of length [N] per item and
    keeps [N] potentials. *)
Lemma jloop_later (N : nat) (items : list (nat * Q)) :
  ncols W = N → nrows W = N → Forall later items →
  ∀ (V : Vec) (st : list BVec), length V = N →
  ∃ V' masks,
    for_each jbody (V, st) items = Ok (V', st ++ masks)
    ∧ length V' = N ∧ length masks = length items
    ∧ Forall (λ m : BVec, length m = N) masks
    ∧ (∀ it items', items = it :: items' → head masks = Some (vge V v_thresh)).
Proof.
  intros Hc Hr. induction items as [|it items IH]; intros Hl V st HV.
  - exists V, []. simpl. rewrite app_nil_r. repeat split; auto.
    intros; discriminate.
  - apply Forall_cons in Hl as [Hit Hitems]. rewrite for_each_cons.
    rewrite jbody_later by exact Hit.
    destruct (run_step_shapes W tau_m v_reset v_thresh membr_R dt V)
      as (V1 & Hstep & HV1 & _); [lia | lia |].
    rewrite Hstep. cbn [mbind result_bind].
    destruct (IH Hitems V1 (st ++ [vge V v_thresh])) as
      (V' & masks & Hrun & HV' & Hlen & Hall & _); [lia|].
    exists V', (vge V v_thresh :: masks).
    rewrite Hrun, <- app_assoc. simpl. repeat split; auto.
    constructor; [|exact Hall]. rewrite length_vge. exact HV.
Qed.

(** Whatever the shapes, a loop over later items that returns has appended
    one mask per item, and the first of them is the comparison of the
    potentials it started from with the threshold. *)
Lemma jloop_returns (items : list (nat * Q)) :
  Forall later items →
  ∀ (V V' : Vec) (st st' : list BVec),
  for_each jbody (V, st) items = Ok (V', st') →
  ∃ masks,
    st' = st ++ masks ∧ length masks = length items
    ∧ (items ≠ [] → head masks = Some (vge V v_thresh)).
Proof.
  induction items as [|it items IH]; intros Hl V V' st st' Hrun.
  - injection Hrun as <- <-. exists []. by rewrite app_nil_r.
  - apply Forall_cons in Hl as [Hit Hitems].
    rewrite for_each_cons, jbody_later in Hrun by exact Hit.
    apply bind_Ok in Hrun as (s1 & Hs1 & Hrun).
    apply bind_Ok in Hs1 as ([V1 sp] & Hstep & Hs1). injection Hs1 as <-.
    apply run_step_mask in Hstep as ->.
    destruct (IH Hitems _ _ _ _ Hrun) as (masks & -> & Hlen & _).
    exists (vge V v_thresh :: masks). rewrite <- app_assoc. simpl.
    repeat split; auto.
Qed.
End loops.

(** ** The jitted driver *)

Section driver.
Context (W : Mat) (tau_m v_reset v_thresh membr_R t_max dt : Q).

Let jbody := Jitted.loop_body W tau_m v_reset v_thresh membr_R dt.
Let run_loop n V :=
  Jitted.run_loop n W V tau_m v_reset v_thresh membr_R t_max dt.
Let run_simulation V :=
  Jitted.run_simulation W V tau_m v_reset v_thresh membr_R t_max dt.
Let run_step V := Jitted.run_step V v_thresh v_reset W tau_m dt membr_R.

(** Before the first step nothing has happened to the loop-carried
    variables. *)
Lemma run_loop_start (V : Vec) (n : nat) :
  ¬ dt == 0 → (n ≤ 1)%nat → run_loop n V = Ok (V, []).
Proof.
  intros Hdt Hn. unfold run_loop, Jitted.run_loop.
  destruct (arange_points t_max dt Hdt) as (ts & -> & _).
  cbn [mbind result_bind].
  destruct n as [|[|n]]; [reflexivity| |lia].
  destruct ts as [|t ts]; [reflexivity|].
  destruct (enumerate_cons t ts) as (items & -> & _). reflexivity.
Qed.

(** Each further time point runs one step on the variables the previous
    iteration left. *)
Lemma run_loop_step (V : Vec) (n : nat) :
  ¬ dt == 0 → (1 ≤ n < num_points t_max dt)%nat →
  run_loop (S n) V
  = run_loop n V ≫= λ '(Vn, st),
      run_step Vn ≫= λ '(V', spiked), Ok (V', st ++ [spiked]).
Proof.
  intros Hdt Hn. unfold run_loop, Jitted.run_loop.
  destruct (arange_points t_max dt Hdt) as (ts & -> & Hlen).
  cbn [mbind result_bind]. rewrite <- Hlen in Hn.
  destruct (lookup_lt_is_Some_2 ts n) as [t Ht]; [lia|].
  assert (Hit : enumerate ts !! n = Some (n, t)).
  { unfold enumerate. rewrite lookup_zip_with, lookup_seq_lt by lia.
    simpl. by rewrite Ht. }
  rewrite (take_S_r _ _ _ Hit), for_each_app. fold jbody.
  destruct (for_each jbody (V, []) (take n (enumerate ts)))
    as [[Vn st]|e]; [|reflexivity].
  cbn [mbind result_bind for_each]. rewrite bind_ret_r.
  unfold jbody. rewrite jbody_later by (unfold later; simpl; lia).
  reflexivity.
Qed.

(** The first time point and the time points past the last one run no
    step. *)
Lemma run_loop_idle (V : Vec) (n : nat) :
  ¬ dt == 0 → n = 0%nat ∨ (num_points t_max dt ≤ n)%nat →
  run_loop (S n) V = run_loop n V.
Proof.
  intros Hdt [->|Hn].
  - by rewrite !run_loop_start by (auto || lia).
  - unfold run_loop, Jitted.run_loop.
    destruct (arange_points t_max dt Hdt) as (ts & -> & Hlen).
    cbn [mbind result_bind].
    rewrite !take_ge; [reflexivity | |];
      unfold enumerate; rewrite length_zip_with, length_seq; lia.
Qed.

(** Once every time point has been visited the loop is over. *)
Lemma run_loop_end (V : Vec) (n : nat) :
  ¬ dt == 0 → (num_points t_max dt ≤ n)%nat →
  run_simulation V = run_loop n V ≫= λ '(_, st), Ok st.
Proof.
  intros Hdt Hn. unfold run_simulation, run_loop,
    Jitted.run_simulation, Jitted.run_loop.
  destruct (arange_points t_max dt Hdt) as (ts & -> & Hlen).
  cbn [mbind result_bind]. rewrite take_ge; [reflexivity|].
  unfold enumerate. rewrite length_zip_with, length_seq. lia.
Qed.

(** The whole run on an [N]-by-[N] matrix and [N] potentials. *)
Lemma run_simulation_shapes (N : nat) (V : Vec) :
  ncols W = N → nrows W = N → length V = N → ¬ dt == 0 →
  ∃ train,
    run_simulation V = Ok train
    ∧ length train = (num_points t_max dt - 1)%nat
    ∧ Forall (λ m : BVec, length m = N) train
    ∧ (∀ n, ∃ Vn, run_loop n V = Ok (Vn, take (n - 1) train)
                  ∧ length Vn = N)
    ∧ (∀ mask, head train = Some mask → mask = vge V v_thresh).
Proof.
  intros Hc Hr HV Hdt.
  unfold run_simulation, run_loop, Jitted.run_simulation, Jitted.run_loop.
  destruct (arange_points t_max dt Hdt) as (ts & -> & Hlen).
  cbn [mbind result_bind]. fold jbody. rewrite <- Hlen.
  destruct ts as [|t ts].
  { exists []. simpl. repeat split; auto.
    - intros n. exists V. unfold enumerate. simpl. rewrite !take_nil.
      by split.
    - intros; discriminate. }
  destruct (enumerate_cons t ts) as (items & -> & Hitems & Hlater).
  unfold jbody. rewrite jloop_first. fold jbody.
  destruct (jloop_later W tau_m v_reset v_thresh membr_R dt N items
              Hc Hr Hlater V [] HV)
    as (V' & train & Hrun & HV' & Htrain & Hall & Hhead).
  fold jbody in Hrun. simpl in Hrun. rewrite Hrun.
  cbn [mbind result_bind]. exists train. split; [reflexivity|].
  split; [simpl; lia|]. split; [exact Hall|]. split.
  - intros [|n].
    { exists V. split; [reflexivity | exact HV]. }
    rewrite firstn_cons. unfold jbody. rewrite jloop_first. fold jbody.
    replace (S n - 1)%nat with n by lia.
    assert (Hlt : Forall later (take n items)) by by apply Forall_take.
    destruct (jloop_later W tau_m v_reset v_thresh membr_R dt N
                (take n items) Hc Hr Hlt V [] HV)
      as (Vn & stn & Hn & HVn & Hstn & _). fold jbody in Hn.
    simpl in Hn. exists Vn. split; [|exact HVn]. rewrite Hn.
    assert (Hld : Forall later (drop n items)) by by apply Forall_drop.
    destruct (jloop_later W tau_m v_reset v_thresh membr_R dt N
                (drop n items) Hc Hr Hld Vn stn HVn)
      as (V'' & rest & Hd & _ & Hrest & _). fold jbody in Hd.
    assert (Hall' : for_each jbody (V, []) items = Ok (V'', stn ++ rest)).
    { rewrite <- (take_drop n items), for_each_app, Hn. exact Hd. }
    rewrite Hrun in Hall'. injection Hall' as _ ->.
    rewrite length_take in Hstn.
    destruct (Nat.le_gt_cases (length items) n) as [Hge|Hlt'].
    + rewrite take_ge by (rewrite Htrain; lia).
      rewrite drop_ge in Hrest by lia. destruct rest; [|discriminate].
      by rewrite app_nil_r.
    + rewrite take_app_length' by lia. reflexivity.
  - intros mask Hm. destruct items as [|it items'].
    + simpl in Htrain. destruct train; discriminate.
    + rewrite (Hhead it items' eq_refl) in Hm. by injection Hm.
Qed.

(** Whatever the shapes, a run that returns has recorded one mask per time
    point after the first, and the first mask is the comparison of the
    initial potentials with the threshold. *)
Lemma run_simulation_returns (V : Vec) (train : list BVec) :
  run_simulation V = Ok train →
  length train = (num_points t_max dt - 1)%nat
  ∧ ∀ mask, head train = Some mask → mask = vge V v_thresh.
Proof.
  unfold run_simulation, Jitted.run_simulation. intros Hrun.
  assert (Hdt : ¬ dt == 0).
  { intros E. unfold arange in Hrun. apply Qeq_bool_iff in E.
    rewrite E in Hrun. discriminate. }
  destruct (arange_points t_max dt Hdt) as (ts & Hts & Hlen).
  rewrite Hts in Hrun. cbn [mbind result_bind] in Hrun. rewrite <- Hlen.
  apply bind_Ok in Hrun as ([V' st'] & Hloop & Hst). injection Hst as ->.
  destruct ts as [|t ts].
  { injection Hloop as _ <-. by split. }
  destruct (enumerate_cons t ts) as (items & Hen & Hitems & Hlater).
  rewrite Hen, jloop_first in Hloop.
  destruct (jloop_returns W tau_m v_reset v_thresh membr_R dt items Hlater
              _ _ _ _ Hloop) as (masks & -> & Hmasks & Hhead).
  simpl. split; [lia|]. intros mask Hm.
  destruct items as [|it items]; [by destruct masks|].
  rewrite Hhead in Hm by discriminate. by injection Hm.
Qed.
End driver.

(** ** Counting time points *)

Lemma Qpos_nonzero (x : Q) : 0 < x → ¬ x == 0.
Proof. intros H E. rewrite E in H. by apply Qlt_irrefl in H. Qed.

Lemma num_points_gt (n : nat) (t_max dt : Q) :
  0 < dt → inject_Z (Z.of_nat n) * dt < t_max → (n < num_points t_max dt)%nat.
Proof.
  intros Hdt H. unfold num_points.
  assert (Hq : inject_Z (Z.of_nat n) < t_max / dt)
    by by apply Qlt_shift_div_l.
  pose proof (Qle_ceiling (t_max / dt)) as Hc.
  assert (Hz : (Z.of_nat n < Qceiling (t_max / dt))%Z).
  { rewrite Zlt_Qlt. eapply Qlt_le_trans; eauto. }
  lia.
Qed.

Lemma num_points_le (n : nat) (t_max dt : Q) :
  0 < dt → t_max <= inject_Z (Z.of_nat n) * dt → (num_points t_max dt ≤ n)%nat.
Proof.
  intros Hdt H. unfold num_points.
  assert (Hq : t_max / dt <= inject_Z (Z.of_nat n))
    by by apply Qle_shift_div_r.
  apply Qceiling_resp_le in Hq. rewrite Qceiling_Z in Hq. lia.
Qed.

Lemma all_empty (l : list (list bool)) :
  Forall (λ m : BVec, length m = 0%nat) l → l = replicate (length l) [].
Proof.
  induction 1 as [|m l Hm _ IH]; simpl; [reflexivity|].
  destruct m; [|discriminate]. by rewrite <- IH.
Qed.

(** * The scenario matrix *)

Lemma square_W2 : square 2 W2.
Proof. repeat split. repeat constructor. Qed.

(** * The two drivers *)

Section variants.
Context (W : Mat) (tau_m v_reset v_thresh membr_R t_max dt : Q).

Lemma inlined_run_loop (n : nat) (V : Vec) :
  ¬ tau_m == 0 →
  Inlined.run_loop n W V tau_m v_reset v_thresh membr_R t_max dt
  = Jitted.run_loop n W V tau_m v_reset v_thresh membr_R t_max dt.
Proof.
  intros Htau. unfold Inlined.run_loop, Jitted.run_loop.
  destruct (arange 0 t_max dt) as [ts|e]; [|reflexivity].
  cbn [mbind result_bind]. apply for_each_ext.
  intros s it _. by apply ibody_jbody.
Qed.

Lemma inlined_run_simulation (V : Vec) :
  ¬ tau_m == 0 →
  Inlined.run_simulation W V tau_m v_reset v_thresh membr_R t_max dt
  = Jitted.run_simulation W V tau_m v_reset v_thresh membr_R t_max dt.
Proof.
  intros Htau. unfold Inlined.run_simulation, Jitted.run_simulation.
  destruct (arange 0 t_max dt) as [ts|e]; [|reflexivity].
  cbn [mbind result_bind]. f_equal. apply for_each_ext.
  intros s it _. by apply ibody_jbody.
Qed.

Lemma inlined_step_zero_tau (s : list Q * list (list bool))
    (it : nat * Q) :
  tau_m == 0 → later it →
  ∃ e, Inlined.loop_body W tau_m v_reset v_thresh membr_R dt s it = Raise e.
Proof.
  intros Htau Hit. destruct s as [V st], it as [i t].
  unfold later in Hit; simpl in Hit. unfold Inlined.loop_body.
  destruct (Nat.eqb_spec i 0) as [|_]; [contradiction|].
  unfold py_last, py_div. rewrite last_snoc.
  apply Qeq_bool_iff in Htau. rewrite Htau.
  destruct (jnp_where _ _ _); [|by eexists]. cbn [mbind result_bind].
  destruct (dot _ _); by eexists.
Qed.

(** With [tau_m] zero the Python division raises in the first step that
    gets as far, so a run that returns has recorded nothing. *)
Lemma inlined_zero_tau (V : Vec) (train : list BVec) :
  tau_m == 0 →
  Inlined.run_simulation W V tau_m v_reset v_thresh membr_R t_max dt
  = Ok train →
  train = [].
Proof.
  intros Htau. unfold Inlined.run_simulation.
  destruct (arange 0 t_max dt) as [ts|e]; [|discriminate].
  cbn [mbind result_bind]. destruct ts as [|t ts].
  { unfold enumerate; simpl. by intros [= <-]. }
  destruct (enumerate_cons t ts) as (items & -> & _ & Hlater).
  rewrite for_each_cons. cbn [Inlined.loop_body Nat.eqb mbind result_bind].
  destruct items as [|[i t'] items].
  { simpl. by intros [= <-]. }
  apply Forall_cons in Hlater as [Hi _]. rewrite for_each_cons.
  destruct (inlined_step_zero_tau (V, []) (i, t') Htau Hi) as [e ->].
  discriminate.
Qed.
End variants.

(** * What a recorded mask says about the step that recorded it *)

(** The [k]-th recorded mask, counted from 0, belongs to the step run at
    time point [k + 1]: that step starts from the variables the loop holds
    after [k + 1] time points and leaves those it holds after [k + 2]. *)
Lemma recorded_step (N : nat) (W : Mat) (V0 : Vec)
    (tau_m v_reset v_thresh membr_R t_max dt : Q) (train : list BVec) :
  ncols W = N → nrows W = N → length V0 = N → ¬ dt == 0 →
  Jitted.run_simulation W V0 tau_m v_reset v_thresh membr_R t_max dt
  = Ok train →
  ∀ k mask, train !! k = Some mask →
  ∃ Vp Vn,
    Jitted.run_loop (S k) W V0 tau_m v_reset v_thresh membr_R t_max dt
    = Ok (Vp, take k train)
    ∧ length Vp = N
    ∧ mask = vge Vp v_thresh
    ∧ Jitted.run_step Vp v_thresh v_reset W tau_m dt membr_R = Ok (Vn, mask)
    ∧ Jitted.run_loop (S (S k)) W V0 tau_m v_reset v_thresh membr_R t_max dt
      = Ok (Vn, take (S k) train)
    ∧ length Vn = N
    ∧ ∀ i, mask !! i = Some true → Vn !! i = Some v_reset.
Proof.
  intros Hc Hr HV Hdt Hrun k mask Hk.
  destruct (run_simulation_shapes W tau_m v_reset v_thresh membr_R t_max dt
              N V0 Hc Hr HV Hdt) as (train' & Hrun' & Hlen & _ & Hloop & _).
  rewrite Hrun in Hrun'. injection Hrun' as <-.
  destruct (Hloop (S k)) as (Vp & Hp & HVp).
  destruct (Hloop (S (S k))) as (Vn & Hn & HVn).
  replace (S k - 1)%nat with k in Hp by lia.
  replace (S (S k) - 1)%nat with (S k) in Hn by lia.
  pose proof (lookup_lt_Some _ _ _ Hk) as Hlt.
  pose proof (run_loop_step W tau_m v_reset v_thresh membr_R t_max dt V0
                (S k) Hdt ltac:(lia)) as Hstep.
  cbv beta zeta in Hstep.
  rewrite Hp, Hn in Hstep. cbn [mbind result_bind] in Hstep.
  destruct (run_step_shapes W tau_m v_reset v_thresh membr_R dt Vp)
    as (V1 & Hs & _ & Hreset); [lia | lia |].
  rewrite Hs in Hstep. cbn [mbind result_bind] in Hstep.
  injection Hstep as -> Htake.
  rewrite (take_S_r _ _ _ Hk) in Htake.
  apply app_inv_head in Htake. injection Htake as ->.
  exists Vp, V1. rewrite (take_S_r _ _ _ Hk) in Hn. rewrite (take_S_r _ _ _ Hk).
  repeat split; auto.
Qed.

(** C3.  On matching shapes, with [dt > 0] and [t_max > 0], if the mask
    recorded by a step holds at neuron [i], the potential of neuron [i]
    when that step has ended is exactly [v_reset], whatever current the
    step injected; in the driver that calls [run_step] and in the driver
    with the step written out in place. *)
Theorem reset_invariant (N : nat) (W : Mat) (V0 : Vec)
    (tau_m v_reset v_thresh membr_R t_max dt : Q) :
  square N W → length V0 = N → 0 < dt → 0 < t_max →
  ∃ train,
    Jitted.run_simulation W V0 tau_m v_reset v_thresh membr_R t_max dt
    = Ok train
    ∧ (∀ k mask, train !! k = Some mask →
        ∃ Vk,
          Jitted.run_loop (S (S k)) W V0 tau_m v_reset v_thresh membr_R
            t_max dt = Ok (Vk, take (S k) train)
          ∧ ∀ i, mask !! i = Some true → Vk !! i = Some v_reset)
    ∧ (∀ train',
        Inlined.run_simulation W V0 tau_m v_reset v_thresh membr_R t_max dt
        = Ok train' →
        ∀ k mask, train' !! k = Some mask →
        ∃ Vk,
          Inlined.run_loop (S (S k)) W V0 tau_m v_reset v_thresh membr_R
            t_max dt = Ok (Vk, take (S k) train')
          ∧ ∀ i, mask !! i = Some true → Vk !! i = Some v_reset).
Proof.
  intros (_ & Hr & Hc) HV Hdt _. apply Qpos_nonzero in Hdt.
  destruct (run_simulation_shapes W tau_m v_reset v_thresh membr_R t_max dt
              N V0 Hc Hr HV Hdt) as (train & Hrun & _).
  assert (HJ : ∀ k mask, train !! k = Some mask →
    ∃ Vk,
      Jitted.run_loop (S (S k)) W V0 tau_m v_reset v_thresh membr_R
        t_max dt = Ok (Vk, take (S k) train)
      ∧ ∀ i, mask !! i = Some true → Vk !! i = Some v_reset).
  { intros k mask Hk.
    destruct (recorded_step N W V0 tau_m v_reset v_thresh membr_R t_max dt
                train Hc Hr HV Hdt Hrun k mask Hk)
      as (_ & Vn & _ & _ & _ & _ & Hn & _ & Hreset).
    by exists Vn. }
  exists train. split; [exact Hrun|]. split; [exact HJ|].
  intros train' Hrun' k mask Hk.
  destruct (Qeq_dec tau_m 0) as [Hz|Hnz].
  - apply (inlined_zero_tau _ _ _ _ _ _ _ _ _ Hz) in Hrun'. subst train'.
    by rewrite lookup_nil in Hk.
  - rewrite inlined_run_simulation in Hrun' by exact Hnz.
    rewrite Hrun in Hrun'. injection Hrun' as <-.
    rewrite inlined_run_loop by exact Hnz. by apply HJ.
Qed.

Lemma reset_invariant_witness :
  ∃ train,
    Jitted.run_simulation W2 [3 # 2; 0] 1 0 1 1 4 1 = Ok train
    ∧ (∀ k mask, train !! k = Some mask →
        ∃ Vk,
          Jitted.run_loop (S (S k)) W2 [3 # 2; 0] 1 0 1 1 4 1
          = Ok (Vk, take (S k) train)
          ∧ ∀ i, mask !! i = Some true → Vk !! i = Some 0)
    ∧ (∀ train',
        Inlined.run_simulation W2 [3 # 2; 0] 1 0 1 1 4 1 = Ok train' →
        ∀ k mask, train' !! k = Some mask →
        ∃ Vk,
          Inlined.run_loop (S (S k)) W2 [3 # 2; 0] 1 0 1 1 4 1
          = Ok (Vk, take (S k) train')
          ∧ ∀ i, mask !! i = Some true → Vk !! i = Some 0).
Proof.
  apply (reset_invariant 2 W2 [3 # 2; 0] 1 0 1 1 4 1).
  - exact square_W2.
  - reflexivity.
  - reflexivity.
  - reflexivity.
Defined.

(** * The length of the spike train *)

(** A run with at most one time point executes no step: whatever the
    shapes are, nothing raises and nothing is recorded. *)
Lemma no_step_run (W : Mat) (V : Vec)
    (tau_m v_reset v_thresh membr_R t_max dt : Q) :
  ¬ dt == 0 → (num_points t_max dt ≤ 1)%nat →
  Jitted.run_simulation W V tau_m v_reset v_thresh membr_R t_max dt = Ok [].
Proof.
  intros Hdt Hn.
  pose proof (run_loop_end W tau_m v_reset v_thresh membr_R t_max dt V 1
                Hdt Hn) as Hend.
  pose proof (run_loop_start W tau_m v_reset v_thresh membr_R t_max dt V 1
                Hdt (le_n 1)) as Hstart.
  cbv beta zeta in Hend, Hstart. by rewrite Hend, Hstart.
Qed.

(** * The first recorded mask *)



(** * Two neurons that excite each other *)

(** C7.  [W = [[0, 5], [5, 0]]], [v_reset = 0], [v_thresh = 1],
    [membr_R = 1], [tau_m = 1], [dt = 1], [V0 = [1.5, 0]] and a [t_max] that
    records at least two steps.  Step 1 records [[true, false]], neuron 1
    receives the current 5, and the potentials after it are [[0, 5]];
    step 2 records a spike of neuron 1, neuron 0 receives the current 5,
    and the potentials after it are [[5, 0]]: neuron 1 is at [v_reset]. *)
Theorem two_neuron_scenario (t_max : Q) :
  2 < t_max →
  ∃ train,
    Jitted.run_simulation W2 [3 # 2; 0] 1 0 1 1 t_max 1 = Ok train
    ∧ train !! 0%nat = Some [true; false]
    ∧ Jitted.l_I_syn <$> lift_ok (Jitted.run_step_locals [3 # 2; 0] 1 0 W2 1 1 1)
      = Some [0; 5]
    ∧ Jitted.run_loop 2 W2 [3 # 2; 0] 1 0 1 1 t_max 1
      = Ok ([0; 5], take 1 train)
    ∧ train !! 1%nat = Some [false; true]
    ∧ Jitted.l_I_syn <$> lift_ok (Jitted.run_step_locals [0; 5] 1 0 W2 1 1 1)
      = Some [5; 0]
    ∧ Jitted.run_loop 3 W2 [3 # 2; 0] 1 0 1 1 t_max 1
      = Ok ([5; 0], take 2 train).
Proof.
  intros Ht.
  assert (Hdt : ¬ 1 == 0) by discriminate.
  assert (Hk : (2 < num_points t_max 1)%nat).
  { apply num_points_gt; [reflexivity|].
    change (inject_Z (Z.of_nat 2)) with 2. lra. }
  destruct (run_simulation_shapes W2 1 0 1 1 t_max 1 2 [3 # 2; 0]
              eq_refl eq_refl eq_refl Hdt) as (train & Hrun & Hlen & _).
  cbv beta zeta in Hrun.
  destruct (lookup_lt_is_Some_2 train 0) as [m0 H0]; [lia|].
  destruct (lookup_lt_is_Some_2 train 1) as [m1 H1]; [lia|].
  destruct (recorded_step 2 W2 [3 # 2; 0] 1 0 1 1 t_max 1 train
              eq_refl eq_refl eq_refl Hdt Hrun 0%nat m0 H0)
    as (Vp & Vn & Hp & _ & _ & Hs & Hn & _).
  rewrite (run_loop_start W2 1 0 1 1 t_max 1 [3 # 2; 0] 1 Hdt (le_n 1)) in Hp.
  injection Hp as <-.
  change (Jitted.run_step [3 # 2; 0] 1 0 W2 1 1 1)
    with (Ok ([0; 5], [true; false])) in Hs.
  injection Hs as <- <-.
  destruct (recorded_step 2 W2 [3 # 2; 0] 1 0 1 1 t_max 1 train
              eq_refl eq_refl eq_refl Hdt Hrun 1%nat m1 H1)
    as (Vp' & Vn' & Hp' & _ & _ & Hs' & Hn' & _).
  rewrite Hn in Hp'. injection Hp' as <-.
  change (Jitted.run_step [0; 5] 1 0 W2 1 1 1)
    with (Ok ([5; 0], [false; true])) in Hs'.
  injection Hs' as <- <-.
  exists train. repeat split; assumption || reflexivity.
Qed.

Lemma two_neuron_scenario_witness :
  ∃ train,
    Jitted.run_simulation W2 [3 # 2; 0] 1 0 1 1 3 1 = Ok train
    ∧ train !! 0%nat = Some [true; false]
    ∧ Jitted.l_I_syn <$> lift_ok (Jitted.run_step_locals [3 # 2; 0] 1 0 W2 1 1 1)
      = Some [0; 5]
    ∧ Jitted.run_loop 2 W2 [3 # 2; 0] 1 0 1 1 3 1 = Ok ([0; 5], take 1 train)
    ∧ train !! 1%nat = Some [false; true]
    ∧ Jitted.l_I_syn <$> lift_ok (Jitted.run_step_locals [0; 5] 1 0 W2 1 1 1)
      = Some [5; 0]
    ∧ Jitted.run_loop 3 W2 [3 # 2; 0] 1 0 1 1 3 1 = Ok ([5; 0], take 2 train).
Proof.
  apply (two_neuron_scenario 3). reflexivity.
Defined.

(** * Quiescence of an uncoupled population *)

Lemma rate_bounds (dt tau_m : Q) :
  0 < dt → dt <= tau_m → 0 < dt / tau_m ∧ dt / tau_m <= 1.
Proof.
  intros Hdt Hle. assert (Ht : 0 < tau_m) by lra. split.
  - apply Qlt_shift_div_l; lra.
  - apply Qle_shift_div_r; lra.
Qed.

Lemma Qsquare_nonneg (x : Q) : 0 <= x * x.
Proof.
  destruct (Qlt_le_dec x 0) as [H|H].
  - setoid_replace (x * x) with ((- x) * (- x)) using relation Qeq by ring.
    apply Qmult_le_0_compat; lra.
  - apply Qmult_le_0_compat; lra.
Qed.

(** A step of size [c] in (0, 1] toward [r] decays toward [r] and stays
    below any bound that is above both the start and [r]. *)
Lemma decay_arith (c r t a b : Q) :
  0 < c → c <= 1 → b == a + c * (r - a) →
  decays_toward r a b ∧ (a < t → r < t → b < t).
Proof.
  intros Hc0 Hc1 Hb.
  assert (Hd : b - r == (1 - c) * (a - r)) by (rewrite Hb; ring).
  split; [split|].
  - rewrite Hd, Qabs_Qmult, (Qabs_pos (1 - c)) by lra.
    pose proof (Qabs_nonneg (a - r)) as Hn.
    setoid_replace (Qabs (a - r)) with (1 * Qabs (a - r))
      using relation Qeq at 2 by ring.
    apply Qmult_le_compat_r; lra.
  - rewrite Hd.
    setoid_replace ((a - r) * ((1 - c) * (a - r)))
      with ((1 - c) * ((a - r) * (a - r))) using relation Qeq by ring.
    apply Qmult_le_0_compat; [lra | apply Qsquare_nonneg].
  - intros Ha Hr.
    assert (H1 : 0 <= (1 - c) * (t - a)) by (apply Qmult_le_0_compat; lra).
    assert (H2 : 0 < c * (t - r)) by (apply Qmult_lt_0_compat; lra).
    assert (H3 : t - b == (1 - c) * (t - a) + c * (t - r))
      by (rewrite Hb; ring).
    lra.
Qed.

Lemma decays_refl (r a : Q) : decays_toward r a a.
Proof. split; [apply Qle_refl | apply Qsquare_nonneg]. Qed.

Lemma below_silent (V : Vec) (v_thresh : Q) :
  below v_thresh V → silent (vge V v_thresh).
Proof.
  unfold below, silent, vge. intros H. apply Forall_fmap.
  eapply Forall_impl; [exact H|]. intros v Hv. simpl in *.
  destruct (Qle_bool v_thresh v) eqn:E; [|reflexivity].
  apply Qle_bool_iff in E. lra.
Qed.

Lemma dot_row_zero (row : list Q) (s : BVec) :
  Forall (λ w, w == 0) row → dot_row row s == 0.
Proof.
  unfold dot_row. intros Hrow. revert s.
  induction Hrow as [|w row Hw _ IH]; intros [|b s]; simpl;
    try reflexivity.
  rewrite Hw, IH. ring.
Qed.

(** The potential a step leaves at neuron [i]. *)
Lemma run_step_entry (W : Mat) (V V' : Vec) (mask : BVec)
    (tau_m v_reset v_thresh membr_R dt : Q) :
  ncols W = length V → nrows W = length V →
  Jitted.run_step V v_thresh v_reset W tau_m dt membr_R = Ok (V', mask) →
  length V' = length V
  ∧ ∀ i a row, V !! i = Some a → mrows W !! i = Some row →
      V' !! i
      = Some (if Qle_bool v_thresh a then v_reset
              else a + (dt / tau_m)
                       * (- a + v_reset
                          + membr_R * dot_row row (vge V v_thresh))).
Proof.
  intros Hc Hr Hstep.
  destruct (run_step_shapes W tau_m v_reset v_thresh membr_R dt V Hc Hr)
    as (V1 & Hs & Hlen & _).
  rewrite Hstep in Hs. injection Hs as <- ->. split; [exact Hlen|].
  intros i a row Ha Hrow. revert Hstep. unfold Jitted.run_step.
  pose proof (run_step_locals_shapes W tau_m v_reset v_thresh membr_R dt
                V Hc Hr) as Hl.
  cbv zeta in Hl. rewrite Hl.
  cbn [mbind result_bind Jitted.l_V Jitted.l_spiked].
  intros [= <-]. unfold smulv, vadds, vneg, vge.
  repeat rewrite ?lookup_zip_with, ?list_lookup_fmap, ?Ha, ?Hrow;
    cbn [mbind option_bind fmap option_fmap option_map].
  by destruct (Qle_bool v_thresh a).
Qed.

(** One step of an uncoupled population below threshold. *)
Lemma quiet_step (N : nat) (W : Mat) (V V' : Vec) (mask : BVec)
    (tau_m v_reset v_thresh membr_R dt : Q) :
  square N W → zero_matrix W → length V = N → below v_thresh V →
  0 < dt → dt <= tau_m → v_reset < v_thresh →
  Jitted.run_step V v_thresh v_reset W tau_m dt membr_R = Ok (V', mask) →
  below v_thresh V'
  ∧ ∀ i a b, V !! i = Some a → V' !! i = Some b → decays_toward v_reset a b.
Proof.
  intros (_ & Hr & Hc) Hzero HV Hbelow Hdt Hle Hreset Hstep.
  destruct (run_step_entry W V V' mask tau_m v_reset v_thresh membr_R dt)
    as [Hlen Hpt]; [lia | lia | exact Hstep |].
  destruct (rate_bounds dt tau_m Hdt Hle) as [Hc0 Hc1].
  assert (Hentry : ∀ i a b, V !! i = Some a → V' !! i = Some b →
            b == a + (dt / tau_m) * (v_reset - a) ∧ a < v_thresh).
  { intros i a b Ha Hb.
    destruct (lookup_lt_is_Some_2 (mrows W) i) as [row Hrow].
    { apply lookup_lt_Some in Ha. unfold nrows in Hr. lia. }
    assert (Hlt : a < v_thresh).
    { unfold below in Hbelow. rewrite Forall_lookup in Hbelow. eauto. }
    assert (Hs : Qle_bool v_thresh a = false).
    { destruct (Qle_bool v_thresh a) eqn:E; [|reflexivity].
      apply Qle_bool_iff in E. lra. }
    rewrite (Hpt i a row Ha Hrow), Hs in Hb. injection Hb as <-.
    split; [|exact Hlt].
    assert (Hrow0 : Forall (λ w, w == 0) row).
    { unfold zero_matrix in Hzero. rewrite Forall_lookup in Hzero. eauto. }
    rewrite (dot_row_zero row _ Hrow0). unfold Qminus. ring. }
  split.
  - unfold below. apply Forall_lookup. intros i b Hb.
    destruct (lookup_lt_is_Some_2 V i) as [a Ha].
    { apply lookup_lt_Some in Hb. lia. }
    destruct (Hentry i a b Ha Hb) as [Heq Hlt].
    by apply (decay_arith (dt / tau_m) v_reset v_thresh a b Hc0 Hc1 Heq).
  - intros i a b Ha Hb. destruct (Hentry i a b Ha Hb) as [Heq _].
    by apply (decay_arith (dt / tau_m) v_reset v_thresh a b Hc0 Hc1 Heq).
Qed.

(** The potentials stay below threshold at every time point. *)
Lemma quiet_loop (N : nat) (W : Mat) (V0 : Vec)
    (tau_m v_reset v_thresh membr_R t_max dt : Q) :
  square N W → zero_matrix W → length V0 = N → below v_thresh V0 →
  0 < dt → dt <= tau_m → v_reset < v_thresh →
  ∀ n, ∃ Vn stn,
    Jitted.run_loop n W V0 tau_m v_reset v_thresh membr_R t_max dt
    = Ok (Vn, stn)
    ∧ length Vn = N ∧ below v_thresh Vn.
Proof.
  intros Hsq Hzero HV Hbelow Hdt Hle Hreset.
  pose proof Hsq as (_ & Hr & Hc).
  pose proof (Qpos_nonzero dt Hdt) as Hnz.
  destruct (run_simulation_shapes W tau_m v_reset v_thresh membr_R t_max dt
              N V0 Hc Hr HV Hnz) as (train & _ & _ & _ & Hloop & _).
  cbv beta zeta in Hloop.
  induction n as [|n IH].
  - exists V0, [].
    by rewrite (run_loop_start W tau_m v_reset v_thresh membr_R t_max dt
                  V0 0 Hnz (Nat.le_0_1)).
  - destruct IH as (Vn & stn & Hn & HVn & Hbn).
    destruct (decide (n = 0%nat ∨ (num_points t_max dt ≤ n)%nat))
      as [Hidle|Hbusy].
    + exists Vn, stn.
      by rewrite (run_loop_idle W tau_m v_reset v_thresh membr_R t_max dt
                    V0 n Hnz Hidle).
    + destruct (Hloop (S n)) as (Vn' & Hn' & HVn').
      pose proof (run_loop_step W tau_m v_reset v_thresh membr_R t_max dt
                    V0 n Hnz ltac:(lia)) as Hstep.
      cbv beta zeta in Hstep. rewrite Hn, Hn' in Hstep.
      cbn [mbind result_bind] in Hstep. symmetry in Hstep.
      apply bind_Ok in Hstep as ([V1 mask] & Hs & Heq).
      injection Heq as -> _.
      exists Vn', (take (S n - 1) train). split; [exact Hn'|].
      split; [exact HVn'|].
      by apply (quiet_step N W Vn Vn' mask tau_m v_reset v_thresh membr_R dt).
Qed.

(** C5, as amended.  If [W] is the all-zero [N]-by-[N] matrix, every
    initial potential is below [v_thresh], [0 < dt <= tau_m] and
    [v_reset < v_thresh], then no recorded mask holds a spike and from
    every time point to the next every potential decays toward [v_reset]:
    its distance to [v_reset] does not grow and it does not pass to the
    other side of [v_reset]. *)
Theorem quiescence (N : nat) (W : Mat) (V0 : Vec)
    (tau_m v_reset v_thresh membr_R t_max dt : Q) :
  square N W → zero_matrix W → length V0 = N → below v_thresh V0 →
  0 < dt → dt <= tau_m → v_reset < v_thresh →
  quiescent W V0 tau_m v_reset v_thresh membr_R t_max dt.
Proof.
  intros Hsq Hzero HV Hbelow Hdt Hle Hreset.
  pose proof Hsq as (_ & Hr & Hc).
  pose proof (Qpos_nonzero dt Hdt) as Hnz.
  pose proof (quiet_loop N W V0 tau_m v_reset v_thresh membr_R t_max dt
                Hsq Hzero HV Hbelow Hdt Hle Hreset) as Hquiet.
  destruct (run_simulation_shapes W tau_m v_reset v_thresh membr_R t_max dt
              N V0 Hc Hr HV Hnz) as (train & Hrun & _).
  cbv beta zeta in Hrun.
  exists train. split; [exact Hrun|]. split.
  - apply Forall_lookup. intros k mask Hk.
    destruct (recorded_step N W V0 tau_m v_reset v_thresh membr_R t_max dt
                train Hc Hr HV Hnz Hrun k mask Hk)
      as (Vp & _ & Hp & _ & -> & _).
    destruct (Hquiet (S k)) as (Vp' & stp & Hp' & _ & Hbp).
    rewrite Hp in Hp'. injection Hp' as <- _.
    by apply below_silent.
  - intros n Vn stn Vn' stn' Hn Hn' i a b Ha Hb.
    destruct (decide (n = 0%nat ∨ (num_points t_max dt ≤ n)%nat))
      as [Hidle|Hbusy].
    + rewrite (run_loop_idle W tau_m v_reset v_thresh membr_R t_max dt
                 V0 n Hnz Hidle), Hn in Hn'.
      injection Hn' as <- _. rewrite Ha in Hb. injection Hb as <-.
      apply decays_refl.
    + pose proof (run_loop_step W tau_m v_reset v_thresh membr_R t_max dt
                    V0 n Hnz ltac:(lia)) as Hstep.
      cbv beta zeta in Hstep. rewrite Hn, Hn' in Hstep.
      cbn [mbind result_bind] in Hstep. symmetry in Hstep.
      apply bind_Ok in Hstep as ([V1 mask] & Hs & Heq).
      injection Heq as -> _.
      destruct (Hquiet n) as (Vq & stq & Hq & HVq & Hbq).
      rewrite Hn in Hq. injection Hq as <- _.
      destruct (quiet_step N W Vn Vn' mask tau_m v_reset v_thresh membr_R dt
                  Hsq Hzero HVq Hbq Hdt Hle Hreset Hs) as [_ Hdecay].
      by apply (Hdecay i).
Qed.

Lemma quiescence_witness :
  quiescent (mkMat 1 [[0]]) [1 # 2] 1 0 1 1 1 (1 # 10).
Proof.
  apply (quiescence 1 (mkMat 1 [[0]]) [1 # 2] 1 0 1 1 1 (1 # 10)).
  - repeat split. repeat constructor.
  - repeat constructor.
  - reflexivity.
  - repeat constructor.
  - reflexivity.
  - discriminate.
  - reflexivity.
Defined.

(** C5, as stated, fails on a step larger than the time constant: with
    [dt = 3] and [tau_m = 1] an isolated neuron starting at 1/2 overshoots
    [v_reset = 0] to -1, then to 2, and spikes in the third step. *)
Lemma quiescence_overshoot :
  square 1 (mkMat 1 [[0]]) ∧ zero_matrix (mkMat 1 [[0]])
  ∧ below 1 [1 # 2] ∧ 0 < 1 ∧ 0 < 3
  ∧ Jitted.run_simulation (mkMat 1 [[0]]) [1 # 2] 1 0 1 1 10 3
    = Ok [[false]; [false]; [true]]
  ∧ Jitted.run_loop 1 (mkMat 1 [[0]]) [1 # 2] 1 0 1 1 10 3
    = Ok ([1 # 2], [])
  ∧ Jitted.run_loop 2 (mkMat 1 [[0]]) [1 # 2] 1 0 1 1 10 3
    = Ok ([-4 # 4], [[false]])
  ∧ -4 # 4 == - (1)
  ∧ ¬ decays_toward 0 (1 # 2) (-4 # 4)
  ∧ ¬ quiescent (mkMat 1 [[0]]) [1 # 2] 1 0 1 1 10 3.
Proof.
  split; [repeat split; repeat constructor|].
  split; [repeat constructor|]. split; [repeat constructor|].
  split; [reflexivity|]. split; [reflexivity|].
  split; [reflexivity|]. split; [reflexivity|]. split; [reflexivity|].
  split; [reflexivity|]. split.
  - intros [Habs _]. vm_compute in Habs. by apply Habs.
  - intros (train & Hrun & Hsilent & _).
    change (Jitted.run_simulation (mkMat 1 [[0]]) [1 # 2] 1 0 1 1 10 3)
      with (Ok [[false]; [false]; [true]]) in Hrun.
    injection Hrun as <-.
    apply Forall_cons in Hsilent as [_ Hsilent].
    apply Forall_cons in Hsilent as [_ Hsilent].
    apply Forall_cons in Hsilent as [Hsilent _].
    apply Forall_cons in Hsilent as [Hsilent _]. discriminate.
Qed.

(** Nor can [v_reset < v_thresh] be dropped: with [v_reset = 2] above
    [v_thresh = 1] the neuron decays toward [v_reset] across the
    threshold and spikes. *)
Lemma quiescence_reset_above_threshold :
  below 1 [0] ∧ 0 < 1 ∧ 1 <= 1
  ∧ Jitted.run_simulation (mkMat 1 [[0]]) [0] 1 2 1 1 3 1
    = Ok [[false]; [true]].
Proof. repeat split; [repeat constructor | discriminate]. Qed.

(** In single precision the amended hypotheses do not suffice.  With no
    coupling, [dt = tau_m = 1], [v_reset = 0.1] and a potential of [1e8]
    below the threshold [2e8], the leak [- V + v_reset] rounds to [- 1e8]
    and the step ends at 0, on the far side of [v_reset]. *)
Example quiescence_rounding_crosses :
  Rounded.run_step (A := ieee) [IEEE.single 100000000 1]
    (IEEE.single 200000000 1) (IEEE.single 1 10)
    (Rounded.mkMat 1 [[IEEE.single 0 1]])
    (IEEE.single 1 1) (IEEE.single 1 1) (IEEE.single 1 1)
  = Ok ([S754_zero false], [false])
  ∧ SFltb (S754_zero false) (IEEE.single 1 10) = true
  ∧ SFltb (IEEE.single 1 10) (IEEE.single 100000000 1) = true.
Proof. repeat split; vm_compute; reflexivity. Qed.

(** And with [v_reset = 3e38] below [v_thresh = 3.2e38] and a potential of
    [- 3e38], the leak overflows: the potential is an infinity after the
    first step and the neuron spikes in the second. *)
Example quiescence_overflow_spikes :
  SFltb (IEEE.single (-3 * 10 ^ 38) 1) (IEEE.single (32 * 10 ^ 37) 1) = true
  ∧ SFltb (IEEE.single (3 * 10 ^ 38) 1) (IEEE.single (32 * 10 ^ 37) 1) = true
  ∧ Rounded.run_step (A := ieee) [IEEE.single (-3 * 10 ^ 38) 1]
      (IEEE.single (32 * 10 ^ 37) 1) (IEEE.single (3 * 10 ^ 38) 1)
      (Rounded.mkMat 1 [[IEEE.single 0 1]])
      (IEEE.single 1 1) (IEEE.single 1 1) (IEEE.single 1 1)
    = Ok ([S754_infinity false], [false])
  ∧ Rounded.run_simulation (A := ieee)
      (Rounded.Jax (Rounded.mkMat 1 [[IEEE.single 0 1]]))
      [IEEE.single (-3 * 10 ^ 38) 1]
      (IEEE.double 1 1) (IEEE.double (3 * 10 ^ 38) 1)
      (IEEE.double (32 * 10 ^ 37) 1) (IEEE.double 1 1) (IEEE.double 3 1)
      (IEEE.double 1 1)
    = Ok [[false]; [true]].
Proof. repeat split; vm_compute; reflexivity. Qed.

(** * Shapes that do not match *)

Lemma broadcast_mismatch {A B C} (f : A → B → C) (x : list A) (y : list B) :
  length x ≠ length y → length x ≠ 1%nat → length y ≠ 1%nat →
  broadcast f x y = Raise DimensionMismatch.
Proof.
  intros Hxy Hx Hy. unfold broadcast.
  destruct (Nat.eqb_spec (length x) (length y)); [contradiction|].
  destruct x as [|a [|a' x]], y as [|b [|b' y]]; simpl in *;
    try reflexivity; contradiction.
Qed.

Lemma vadd_mismatch (x y : Vec) :
  length x ≠ length y → length x ≠ 1%nat → length y ≠ 1%nat →
  vadd x y = Raise DimensionMismatch.
Proof. apply broadcast_mismatch. Qed.

(** The first step on shapes that neither contract nor broadcast. *)
Lemma run_step_mismatch (W : Mat) (V : Vec)
    (tau_m v_reset v_thresh membr_R dt : Q) :
  ncols W ≠ length V
  ∨ (ncols W = length V ∧ nrows W ≠ length V
     ∧ nrows W ≠ 1%nat ∧ length V ≠ 1%nat) →
  Jitted.run_step V v_thresh v_reset W tau_m dt membr_R
  = Raise DimensionMismatch.
Proof.
  intros Hshape. unfold Jitted.run_step, Jitted.run_step_locals.
  rewrite jnp_where_same by apply length_vge. cbn [mbind result_bind].
  destruct Hshape as [Hc|(Hc & Hr & Hr1 & HV1)].
  - rewrite dot_mismatch by by rewrite length_vge. reflexivity.
  - rewrite dot_contracts by by rewrite length_vge.
    cbn [mbind result_bind].
    rewrite vadd_mismatch; [reflexivity| | |];
      autorewrite with shape; unfold nrows in *; lia.
Qed.

(** C6, as amended.  Nothing is checked before the loop.  When a step is
    executed at all ([0 < dt < t_max]) and [W] has a column count other
    than the length of [V0], the contraction [W.dot(spiked)] of the first
    step is rejected; when [W] has that column count but a row count that
    is neither the length of [V0] nor 1 while [V0] has not length 1, the
    contraction goes through and the sum inside [dV] is rejected.  Either
    way the loop reaches its first step with nothing recorded, [run_step]
    raises a dimension mismatch there, and so does [run_simulation]. *)
Theorem shape_mismatch (W : Mat) (V0 : Vec)
    (tau_m v_reset v_thresh membr_R t_max dt : Q) :
  0 < dt → dt < t_max →
  ncols W ≠ length V0
  ∨ (ncols W = length V0 ∧ nrows W ≠ length V0
     ∧ nrows W ≠ 1%nat ∧ length V0 ≠ 1%nat) →
  Jitted.run_loop 1 W V0 tau_m v_reset v_thresh membr_R t_max dt
  = Ok (V0, [])
  ∧ (ncols W ≠ length V0 →
     dot W ((λ v, Qle_bool v_thresh v) <$> V0) = Raise DimensionMismatch)
  ∧ (ncols W = length V0 →
     ∃ V I_syn,
       jnp_where ((λ v, Qle_bool v_thresh v) <$> V0) v_reset V0 = Ok V
       ∧ dot W ((λ v, Qle_bool v_thresh v) <$> V0) = Ok I_syn
       ∧ length I_syn = nrows W
       ∧ length V = length V0
       ∧ vadd (vadds (vneg V) v_reset) (smulv membr_R I_syn)
         = Raise DimensionMismatch)
  ∧ Jitted.run_step V0 v_thresh v_reset W tau_m dt membr_R
    = Raise DimensionMismatch
  ∧ Jitted.run_simulation W V0 tau_m v_reset v_thresh membr_R t_max dt
    = Raise DimensionMismatch.
Proof.
  intros Hdt Ht Hshape. pose proof (Qpos_nonzero dt Hdt) as Hnz.
  pose proof (run_step_mismatch W V0 tau_m v_reset v_thresh membr_R dt
                Hshape) as Hstep.
  split; [|split; [|split; [|split; [exact Hstep|]]]].
  - exact (run_loop_start W tau_m v_reset v_thresh membr_R t_max dt V0 1
             Hnz (le_n 1)).
  - intros Hc. apply dot_mismatch. by rewrite length_fmap.
  - intros Hc. destruct Hshape as [Hne|(_ & Hr & Hr1 & HV1)];
      [contradiction|].
    eexists _, _. split; [apply jnp_where_same; by rewrite length_fmap|].
    split; [apply dot_contracts; by rewrite length_fmap|].
    split; [by rewrite length_fmap|].
    split; [rewrite length_zip_with, length_fmap; lia|].
    apply vadd_mismatch; autorewrite with shape; unfold nrows in *; lia.
  - assert (Hk : (1 < num_points t_max dt)%nat).
    { apply num_points_gt; [exact Hdt|].
      change (inject_Z (Z.of_nat 1)) with 1. lra. }
    unfold Jitted.run_simulation.
    destruct (arange_points t_max dt Hnz) as (ts & -> & Hlen).
    cbn [mbind result_bind].
    destruct ts as [|t ts]; [simpl in Hlen; lia|].
    destruct (enumerate_cons t ts) as (items & -> & Hitems & Hlater).
    rewrite jloop_first.
    destruct items as [|it items]; [simpl in *; lia|].
    apply Forall_cons in Hlater as [Hit _].
    rewrite for_each_cons, jbody_later by exact Hit.
    by rewrite Hstep.
Qed.

Lemma shape_mismatch_witness :
  Jitted.run_loop 1 (mkMat 3 [[1; 2; 3]; [4; 5; 6]]) [0; 0] 1 0 1 1 2 1
  = Ok ([0; 0], [])
  ∧ dot (mkMat 3 [[1; 2; 3]; [4; 5; 6]]) [false; false]
    = Raise DimensionMismatch
  ∧ Jitted.run_step [0; 0] 1 0 (mkMat 3 [[1; 2; 3]; [4; 5; 6]]) 1 1 1
    = Raise DimensionMismatch
  ∧ Jitted.run_simulation (mkMat 3 [[1; 2; 3]; [4; 5; 6]]) [0; 0] 1 0 1 1 2 1
    = Raise DimensionMismatch.
Proof.
  destruct (shape_mismatch (mkMat 3 [[1; 2; 3]; [4; 5; 6]]) [0; 0]
              1 0 1 1 2 1) as (Hloop & Hdot & _ & Hstep & Hrun).
  - reflexivity.
  - reflexivity.
  - left. simpl. lia.
  - split; [exact Hloop|]. split; [|split; [exact Hstep | exact Hrun]].
    apply Hdot. simpl. lia.
Defined.

(** The second case: three rows for two potentials.  The contraction
    returns three currents, and the sum of two potentials and three
    currents is rejected. *)
Example shape_mismatch_in_sum :
  dot (mkMat 2 [[1; 2]; [3; 4]; [5; 6]]) [true; false] = Ok [1; 3; 5]
  ∧ Jitted.run_simulation (mkMat 2 [[1; 2]; [3; 4]; [5; 6]]) [3 # 2; 0]
      1 0 1 1 2 1 = Raise DimensionMismatch.
Proof. split; reflexivity. Qed.

(** C6, as stated, fails: a run without steps returns the empty spike
    train on a 2-by-3 matrix and five potentials, and a 1-by-2 matrix with
    two potentials runs three steps, its one current being broadcast to
    both neurons. *)
Lemma shape_check_absent :
  (¬ ∃ N, square N (mkMat 3 [[1; 2; 3]; [4; 5; 6]]))
  ∧ length [0; 0; 0; 0; 0] ≠ nrows (mkMat 3 [[1; 2; 3]; [4; 5; 6]])
  ∧ Jitted.run_simulation (mkMat 3 [[1; 2; 3]; [4; 5; 6]]) [0; 0; 0; 0; 0]
      1 0 1 1 1 1 = Ok []
  ∧ (¬ ∃ N, square N (mkMat 2 [[1; 2]]))
  ∧ length [3 # 2; 0] ≠ nrows (mkMat 2 [[1; 2]])
  ∧ Jitted.run_simulation (mkMat 2 [[1; 2]]) [3 # 2; 0] 1 0 1 1 4 1
    = Ok [[true; false]; [false; true]; [true; false]].
Proof.
  split; [intros (N & _ & Hr & Hc); simpl in *; unfold nrows in *;
          simpl in *; lia|].
  split; [unfold nrows; simpl; lia|]. split; [reflexivity|].
  split; [intros (N & _ & Hr & Hc); simpl in *; unfold nrows in *;
          simpl in *; lia|].
  split; [unfold nrows; simpl; lia|]. reflexivity.
Qed.

(** * What a call does to the store *)

Section frame.
Context (h0 : Store.heap) (xs : Store.loc).

Let I := Store.inv h0 xs.
Let new (l : Store.loc) : Prop := (length h0 ≤ l)%nat.
Let any {A} (_ : A) : Prop := True.

Lemma keeps_ret {A} (a : A) (Q : A → Prop) :
  Q a → Store.keeps I (mret a) Q.
Proof. intros Ha h Hh. split; [exact Hh|]. by intros a' [= <-]. Qed.

Lemma keeps_bind {A B} (m : Store.M A) (f : A → Store.M B)
    (P : A → Prop) (Q : B → Prop) :
  Store.keeps I m P → (∀ a, P a → Store.keeps I (f a) Q) →
  Store.keeps I (m ≫= f) Q.
Proof.
  intros Hm Hf h Hh. destruct (Hm h Hh) as [Hh1 HP].
  unfold mbind, Store.M_bind. destruct (m h) as [[a|e] h1]; simpl in *.
  - by apply Hf; [apply HP|].
  - split; [exact Hh1 | discriminate].
Qed.

Lemma keeps_lift {A} (r : result A) : Store.keeps I (Store.lift r) any.
Proof. intros h Hh. by split. Qed.

Lemma keeps_read_vec (l : Store.loc) : Store.keeps I (Store.read_vec l) any.
Proof.
  intros h Hh. unfold Store.read_vec.
  destruct (h !! l) as [[]|]; by split.
Qed.

Lemma keeps_read_mask (l : Store.loc) : Store.keeps I (Store.read_mask l) any.
Proof.
  intros h Hh. unfold Store.read_mask.
  destruct (h !! l) as [[]|]; by split.
Qed.

Lemma keeps_read_mat (l : Store.loc) : Store.keeps I (Store.read_mat l) any.
Proof.
  intros h Hh. unfold Store.read_mat.
  destruct (h !! l) as [[]|]; by split.
Qed.

Lemma keeps_read_list (l : Store.loc) : Store.keeps I (Store.read_list l) any.
Proof.
  intros h Hh. unfold Store.read_list.
  destruct (h !! l) as [[]|]; by split.
Qed.

(** Allocation leaves every object where it is and returns a reference
    the caller cannot hold. *)
Lemma keeps_alloc (o : Store.obj) : Store.keeps I (Store.alloc o) new.
Proof.
  intros h (Hpre & Hxs & items & Hitems & Hnew). unfold Store.alloc; simpl.
  split.
  - split; [by apply prefix_app_r|]. split; [exact Hxs|].
    exists items. split; [|exact Hnew]. by apply lookup_app_l_Some.
  - intros a [= <-]. by apply prefix_length.
Qed.

(** Writing to an object the call allocated itself, other than the list,
    leaves the objects of the caller alone. *)
Lemma inv_insert (h : Store.heap) (l : Store.loc) (o : Store.obj) :
  I h → new l → l ≠ xs → I (<[l := o]> h).
Proof.
  intros (Hpre & Hxs & items & Hitems & Hnew) Hl Hne.
  split; [|split; [exact Hxs|]].
  - destruct Hpre as [k ->]. rewrite insert_app_r_alt by exact Hl.
    by apply prefix_app_r.
  - exists items. split; [|exact Hnew]. by rewrite list_lookup_insert_ne.
Qed.

Lemma keeps_append (x : Store.loc) :
  new x → Store.keeps I (Store.append xs x) any.
Proof.
  intros Hx h Hh. pose proof Hh as (Hpre & Hxs & items & Hitems & Hnew).
  unfold Store.append, Store.read_list, Store.store, mbind, Store.M_bind.
  rewrite Hitems. simpl. split; [|done].
  split; [|split; [exact Hxs|]].
  - destruct Hpre as [k ->]. rewrite insert_app_r_alt by exact Hxs.
    by apply prefix_app_r.
  - exists (items ++ [x]). split.
    + apply list_lookup_insert_eq. by eapply lookup_lt_Some.
    + apply Forall_app. split; [exact Hnew|]. by constructor.
Qed.

Lemma keeps_ge (x : Store.loc) (c : Q) : Store.keeps I (Store.ge x c) new.
Proof.
  unfold Store.ge. eapply keeps_bind; [apply keeps_read_vec|].
  intros [k v] _. apply keeps_alloc.
Qed.

Lemma keeps_where (c : Store.loc) (a : Q) (y : Store.loc) :
  Store.keeps I (Store.where_ c a y) new.
Proof.
  unfold Store.where_. eapply keeps_bind; [apply keeps_read_mask|].
  intros [k m] _. eapply keeps_bind; [apply keeps_read_vec|].
  intros [k' v] _. eapply keeps_bind; [apply keeps_lift|].
  intros r _. apply keeps_alloc.
Qed.

Lemma keeps_dot (W s : Store.loc) : Store.keeps I (Store.dot W s) new.
Proof.
  unfold Store.dot. eapply keeps_bind; [apply keeps_read_mat|].
  intros [k w] _. eapply keeps_bind; [apply keeps_read_mask|].
  intros [k' m] _. eapply keeps_bind; [apply keeps_lift|].
  intros r _. apply keeps_alloc.
Qed.

Lemma keeps_neg (x : Store.loc) : Store.keeps I (Store.neg x) new.
Proof.
  unfold Store.neg. eapply keeps_bind; [apply keeps_read_vec|].
  intros [k v] _. apply keeps_alloc.
Qed.

Lemma keeps_adds (x : Store.loc) (c : Q) : Store.keeps I (Store.adds x c) new.
Proof.
  unfold Store.adds. eapply keeps_bind; [apply keeps_read_vec|].
  intros [k v] _. apply keeps_alloc.
Qed.

Lemma keeps_smul (c : Q) (x : Store.loc) : Store.keeps I (Store.smul c x) new.
Proof.
  unfold Store.smul. eapply keeps_bind; [apply keeps_read_vec|].
  intros [k v] _. apply keeps_alloc.
Qed.

Lemma keeps_add (x y : Store.loc) : Store.keeps I (Store.add x y) new.
Proof.
  unfold Store.add. eapply keeps_bind; [apply keeps_read_vec|].
  intros [kx vx] _. eapply keeps_bind; [apply keeps_read_vec|].
  intros [ky vy] _. eapply keeps_bind; [apply keeps_lift|].
  intros r _. apply keeps_alloc.
Qed.

(** [x += y] may write to [x]: it keeps the objects of the caller when [x]
    is not one of them. *)
Lemma keeps_iadd (x y : Store.loc) :
  new x → Store.keeps I (Store.iadd x y) new.
Proof.
  intros Hx h Hh.
  unfold Store.iadd, Store.read_vec, Store.lift, mbind, Store.M_bind.
  destruct (h !! x) as [[kx vx| | |]|] eqn:Ex; simpl;
    try (split; [exact Hh | discriminate]).
  destruct (h !! y) as [[ky vy| | |]|] eqn:Ey; simpl;
    try (split; [exact Hh | discriminate]).
  destruct (vadd vx vy) as [r|e]; simpl;
    [|split; [exact Hh | discriminate]].
  destruct kx.
  - destruct (length r =? length vx)%nat; simpl;
      [|split; [exact Hh | discriminate]].
    split; [|by intros a [= <-]].
    apply inv_insert; [exact Hh | exact Hx |].
    destruct Hh as (_ & _ & items & Hitems & _). congruence.
  - by apply keeps_alloc.
Qed.

Lemma keeps_last_item (l : Store.loc) :
  Store.keeps I (Store.last_item l) any.
Proof.
  unfold Store.last_item. eapply keeps_bind; [apply keeps_read_list|].
  intros items _. apply keeps_lift.
Qed.

Lemma keeps_run_step (v_prev : Store.loc) (v_thresh v_reset : Q)
    (W : Store.loc) (tau_m dt membr_R : Q) :
  Store.keeps I (Store.run_step v_prev v_thresh v_reset W tau_m dt membr_R)
    (λ p, new p.1 ∧ new p.2).
Proof.
  unfold Store.run_step. eapply keeps_bind; [apply keeps_read_vec|].
  intros [k v] _. eapply keeps_bind; [apply keeps_read_mat|].
  intros [k' w] _. eapply keeps_bind; [apply keeps_lift|].
  intros [V' spiked] _. eapply keeps_bind; [apply keeps_alloc|].
  intros V HV. eapply keeps_bind; [apply keeps_alloc|].
  intros s Hs. by apply keeps_ret.
Qed.

Lemma keeps_jitted_body (W : Store.loc)
    (tau_m v_reset v_thresh membr_R dt : Q) (V : Store.loc) (it : nat * Q) :
  Store.keeps I
    (Store.jitted_body W xs tau_m v_reset v_thresh membr_R dt V it) any.
Proof.
  destruct it as [i t]. unfold Store.jitted_body.
  destruct (i =? 0)%nat; [by apply keeps_ret|].
  eapply keeps_bind; [apply keeps_run_step|].
  intros [V' spiked] [_ Hs]. eapply keeps_bind; [by apply keeps_append|].
  intros _ _. by apply keeps_ret.
Qed.

(** In the loop body written out in place, [V += dV] comes after [V] was
    rebound to the result of [jnp.where]: it never reaches the array the
    loop started from. *)
Lemma keeps_inlined_body (W : Store.loc)
    (tau_m v_reset v_thresh membr_R dt : Q) (V : Store.loc) (it : nat * Q) :
  Store.keeps I
    (Store.inlined_body W xs tau_m v_reset v_thresh membr_R dt V it) any.
Proof.
  destruct it as [i t]. unfold Store.inlined_body.
  destruct (i =? 0)%nat; [by apply keeps_ret|].
  eapply keeps_bind; [apply keeps_ge|]. intros fired Hfired.
  eapply keeps_bind; [apply keeps_where|]. intros V1 HV1.
  eapply keeps_bind; [by apply keeps_append|]. intros _ _.
  eapply keeps_bind; [apply keeps_last_item|]. intros newest _.
  eapply keeps_bind; [apply keeps_dot|]. intros I_syn _.
  eapply keeps_bind; [apply keeps_lift|]. intros rate _.
  eapply keeps_bind; [apply keeps_neg|]. intros neg_V _.
  eapply keeps_bind; [apply keeps_adds|]. intros leak _.
  eapply keeps_bind; [apply keeps_smul|]. intros input _.
  eapply keeps_bind; [apply keeps_add|]. intros drive _.
  eapply keeps_bind; [apply keeps_smul|]. intros dV _.
  eapply keeps_bind; [by apply keeps_iadd|]. intros V2 _.
  eapply keeps_bind; [apply keeps_where|]. intros V3 _.
  by apply keeps_ret.
Qed.

Lemma keeps_for_each {S X} (body : S → X → Store.M S) (items : list X) :
  (∀ s x, Store.keeps I (body s x) any) →
  ∀ s, Store.keeps I (Store.for_each body s items) any.
Proof.
  intros Hbody. induction items as [|x items IH]; intros s; simpl.
  - by apply keeps_ret.
  - eapply keeps_bind; [apply Hbody|]. intros s' _. apply IH.
Qed.
End frame.

(** Either driver leaves the store it was called on as a prefix of the
    store it leaves, and returns the list it allocated first, which refers
    to objects allocated by the call. *)
Lemma run_simulation_frame (inlined : bool) (W V : Store.loc)
    (tau_m v_reset v_thresh membr_R t_max dt : Q) (h : Store.heap) :
  let out :=
    Store.run_simulation inlined W V tau_m v_reset v_thresh membr_R t_max dt h
  in
  Store.inv h (length h) out.2 ∧ ∀ l, out.1 = Ok l → l = length h.
Proof.
  assert (Hinit : Store.inv h (length h) (h ++ [Store.OList []])).
  { split; [by apply prefix_app_r|]. split; [lia|].
    exists []. split; [|constructor]. by apply list_lookup_middle. }
  set (k := λ body : Store.loc → nat * Q → Store.M Store.loc,
    (ts ← Store.lift (arange 0 t_max dt);
     _ ← Store.alloc (Store.OVec Store.Jax ts);
     _ ← Store.for_each body V (enumerate ts);
     mret (length h)) : Store.M Store.loc).
  assert (Hk : ∀ body,
    (∀ s x, Store.keeps (Store.inv h (length h)) (body s x) (λ _, True)) →
    Store.keeps (Store.inv h (length h)) (k body) (λ l, l = length h)).
  { intros body Hbody. unfold k.
    eapply keeps_bind; [apply keeps_lift|]. intros ts _.
    eapply keeps_bind; [apply keeps_alloc|]. intros ? _.
    eapply keeps_bind; [by apply keeps_for_each|]. intros ? _.
    by apply keeps_ret. }
  destruct inlined; cbv zeta; unfold Store.run_simulation.
  - apply (Hk (Store.inlined_body W (length h) tau_m v_reset v_thresh
                 membr_R dt)); [|exact Hinit].
    intros s x. apply keeps_inlined_body.
  - apply (Hk (Store.jitted_body W (length h) tau_m v_reset v_thresh
                 membr_R dt)); [|exact Hinit].
    intros s x. apply keeps_jitted_body.
Qed.

(** * The drivers on the store compute what the drivers on values compute *)

Lemma bind_run {A B} (m : Store.M A) (f : A → Store.M B)
    (h h1 : Store.heap) (a : A) :
  m h = (Ok a, h1) → (m ≫= f) h = f a h1.
Proof. intros H. unfold mbind, Store.M_bind. by rewrite H. Qed.

Lemma bind_raise {A B} (m : Store.M A) (f : A → Store.M B)
    (h h1 : Store.heap) (e : error) :
  m h = (Raise e, h1) → (m ≫= f) h = (Raise e, h1).
Proof. intros H. unfold mbind, Store.M_bind. by rewrite H. Qed.

Lemma lookup_snoc_new (h : Store.heap) (o : Store.obj) :
  (h ++ [o]) !! length h = Some o.
Proof. by apply list_lookup_middle. Qed.

Lemma lookup_insert_array (h : Store.heap) (xs l : Store.loc)
    (items : list Store.loc) (o o' : Store.obj) :
  h !! xs = Some (Store.OList items) → h !! l = Some o → Store.is_array o →
  <[xs := o']> h !! l = Some o.
Proof.
  intros Hxs Hl Ho. rewrite list_lookup_insert_ne; [exact Hl|].
  intros ->. rewrite Hxs in Hl. injection Hl as <-. exact Ho.
Qed.

(** Looking a reference up in a store built from a known one by
    allocations and updates of a list. *)
Ltac slv :=
  lazymatch goal with
  | |- (?h ++ [_]) !! length ?h = Some _ => apply lookup_snoc_new
  | |- (_ ++ [_]) !! _ = Some _ => apply lookup_app_l_Some; slv
  | |- <[?l := _]> _ !! ?l = Some _ =>
      apply list_lookup_insert_eq; eapply lookup_lt_Some; slv
  | |- <[_ := _]> _ !! _ = Some _ =>
      eapply lookup_insert_array; [slv | slv | exact Logic.I]
  | |- _ => eassumption
  end.

Lemma py_last_snoc {A} (xs : list A) (x : A) : py_last (xs ++ [x]) = Ok x.
Proof. unfold py_last. by rewrite last_snoc. Qed.

Section operations.
Context (h : Store.heap).

Lemma ge_eq (x : Store.loc) (c : Q) (k : Store.kind) (v : Vec) :
  h !! x = Some (Store.OVec k v) →
  Store.ge x c h = (Ok (length h), h ++ [Store.OMask k (vge v c)]).
Proof. intros Hx. unfold Store.ge, Store.read_vec, mbind, Store.M_bind.
  by rewrite Hx. Qed.

Lemma where_eq (c : Store.loc) (a : Q) (y : Store.loc)
    (kc ky : Store.kind) (m : BVec) (v : Vec) :
  h !! c = Some (Store.OMask kc m) → h !! y = Some (Store.OVec ky v) →
  Store.where_ c a y h
  = match jnp_where m a v with
    | Ok r => (Ok (length h), h ++ [Store.OVec Store.Jax r])
    | Raise e => (Raise e, h)
    end.
Proof.
  intros Hc Hy.
  unfold Store.where_, Store.read_mask, Store.read_vec, Store.lift, mbind,
    Store.M_bind.
  rewrite Hc, Hy. by destruct (jnp_where m a v).
Qed.

Lemma dot_eq (W s : Store.loc) (k ks : Store.kind) (w : Mat) (m : BVec) :
  h !! W = Some (Store.OMat k w) → h !! s = Some (Store.OMask ks m) →
  Store.dot W s h
  = match dot w m with
    | Ok r => (Ok (length h), h ++ [Store.OVec k r])
    | Raise e => (Raise e, h)
    end.
Proof.
  intros HW Hs.
  unfold Store.dot, Store.read_mask, Store.read_mat, Store.lift, mbind,
    Store.M_bind.
  rewrite HW, Hs. by destruct (dot w m).
Qed.

Lemma neg_eq (x : Store.loc) (k : Store.kind) (v : Vec) :
  h !! x = Some (Store.OVec k v) →
  Store.neg x h = (Ok (length h), h ++ [Store.OVec k (vneg v)]).
Proof. intros Hx. unfold Store.neg, Store.read_vec, mbind, Store.M_bind.
  by rewrite Hx. Qed.

Lemma adds_eq (x : Store.loc) (c : Q) (k : Store.kind) (v : Vec) :
  h !! x = Some (Store.OVec k v) →
  Store.adds x c h = (Ok (length h), h ++ [Store.OVec k (vadds v c)]).
Proof. intros Hx. unfold Store.adds, Store.read_vec, mbind, Store.M_bind.
  by rewrite Hx. Qed.

Lemma smul_eq (c : Q) (x : Store.loc) (k : Store.kind) (v : Vec) :
  h !! x = Some (Store.OVec k v) →
  Store.smul c x h = (Ok (length h), h ++ [Store.OVec k (smulv c v)]).
Proof. intros Hx. unfold Store.smul, Store.read_vec, mbind, Store.M_bind.
  by rewrite Hx. Qed.

Lemma add_eq (x y : Store.loc) (kx ky : Store.kind) (vx vy : Vec) :
  h !! x = Some (Store.OVec kx vx) → h !! y = Some (Store.OVec ky vy) →
  Store.add x y h
  = match vadd vx vy with
    | Ok r => (Ok (length h), h ++ [Store.OVec (Store.join kx ky) r])
    | Raise e => (Raise e, h)
    end.
Proof.
  intros Hx Hy. unfold Store.add, Store.read_vec, Store.lift, mbind,
    Store.M_bind.
  rewrite Hx, Hy. by destruct (vadd vx vy).
Qed.

(** On a JAX array [x += y] is [x = x + y]. *)
Lemma iadd_jax_eq (x y : Store.loc) (ky : Store.kind) (vx vy : Vec) :
  h !! x = Some (Store.OVec Store.Jax vx) → h !! y = Some (Store.OVec ky vy) →
  Store.iadd x y h
  = match vadd vx vy with
    | Ok r => (Ok (length h), h ++ [Store.OVec Store.Jax r])
    | Raise e => (Raise e, h)
    end.
Proof.
  intros Hx Hy. unfold Store.iadd, Store.read_vec, Store.lift, mbind,
    Store.M_bind.
  rewrite Hx, Hy. by destruct (vadd vx vy).
Qed.

Lemma append_eq (xs x : Store.loc) (items : list Store.loc) :
  h !! xs = Some (Store.OList items) →
  Store.append xs x h = (Ok (), <[xs := Store.OList (items ++ [x])]> h).
Proof.
  intros Hxs. unfold Store.append, Store.read_list, Store.store, mbind,
    Store.M_bind.
  by rewrite Hxs.
Qed.

Lemma last_item_eq (xs x : Store.loc) (items : list Store.loc) :
  h !! xs = Some (Store.OList (items ++ [x])) →
  Store.last_item xs h = (Ok x, h).
Proof.
  intros Hxs. unfold Store.last_item, Store.read_list, Store.lift, mbind,
    Store.M_bind.
  by rewrite Hxs, py_last_snoc.
Qed.

Lemma lift_eq {A} (r : result A) :
  Store.lift r h
  = match r with
    | Ok a => (Ok a, h)
    | Raise e => (Raise e, h)
    end.
Proof. by destruct r. Qed.

Lemma run_step_eq (v_prev W : Store.loc) (kv kw : Store.kind) (v : Vec)
    (w : Mat) (v_thresh v_reset tau_m dt membr_R : Q) :
  h !! v_prev = Some (Store.OVec kv v) → h !! W = Some (Store.OMat kw w) →
  Store.run_step v_prev v_thresh v_reset W tau_m dt membr_R h
  = match Jitted.run_step v v_thresh v_reset w tau_m dt membr_R with
    | Ok p =>
        (Ok (length h, length (h ++ [Store.OVec Store.Jax p.1])),
         (h ++ [Store.OVec Store.Jax p.1]) ++ [Store.OMask Store.Jax p.2])
    | Raise e => (Raise e, h)
    end.
Proof.
  intros Hv HW. unfold Store.run_step, Store.read_vec, Store.read_mat,
    Store.lift, Store.alloc, mbind, Store.M_bind, mret, Store.M_ret.
  rewrite Hv, HW.
  by destruct (Jitted.run_step v v_thresh v_reset w tau_m dt membr_R)
    as [[V' spiked]|e].
Qed.
End operations.

(** One statement of a loop body: its equation at the store reached so
    far, then the case of a value and, for an operation that can raise,
    the case of an exception. *)
Ltac exec lem :=
  lazymatch goal with
  | |- context [@mbind Store.M _ _ _ ?f ?m ?hc] =>
      let H := fresh "Hop" in
      eassert (H : m hc = _) by (eapply lem; slv);
      lazymatch type of H with
      | _ = match ?r with _ => _ end =>
          let E := fresh "E" in
          destruct r eqn:E;
          [ rewrite (bind_run _ _ _ _ _ H); clear H; cbv beta iota
          | rewrite (bind_raise _ _ _ _ _ H); reflexivity ]
      | _ => rewrite (bind_run _ _ _ _ _ H); clear H; cbv beta iota
      end
  end.

Lemma holds_masks_snoc (hf : Store.heap) (items : list Store.loc)
    (st : list BVec) (l : Store.loc) (m : BVec) (h : Store.heap) :
  Forall2 (Store.holds_mask h) items st →
  (∀ l m, Store.holds_mask h l m → Store.holds_mask hf l m) →
  Store.holds_mask hf l m →
  Forall2 (Store.holds_mask hf) (items ++ [l]) (st ++ [m]).
Proof.
  intros Hitems Hmono Hl. apply Forall2_app.
  - eapply Forall2_impl; [exact Hitems | exact Hmono].
  - by constructor.
Qed.

Section bodies.
Context (h : Store.heap) (lW lst lV : Store.loc) (w : Mat) (v : Vec)
  (st : list BVec) (tau_m v_reset v_thresh membr_R dt : Q).

(** The loop body that calls [run_step]. *)
Lemma jitted_body_refines (it : nat * Q) :
  Store.holds_mat h lW w → Store.holds_vec h lV v →
  Store.holds_masks h lst st →
  let out :=
    Store.jitted_body lW lst tau_m v_reset v_thresh membr_R dt lV it h in
  match Jitted.loop_body w tau_m v_reset v_thresh membr_R dt (v, st) it with
  | Ok (v', st') =>
      ∃ lV', out.1 = Ok lV' ∧ Store.holds_mat out.2 lW w
             ∧ Store.holds_vec out.2 lV' v' ∧ Store.holds_masks out.2 lst st'
  | Raise e => out.1 = Raise e
  end.
Proof.
  intros [kW HW] [kV HV] (items & Hl & Hitems). destruct it as [i t].
  cbv zeta. unfold Store.jitted_body, Jitted.loop_body.
  destruct (i =? 0)%nat.
  { exists lV. split; [reflexivity|]. simpl.
    split; [by exists kW|]. split; [by exists kV|]. by exists items. }
  exec run_step_eq. destruct a as [V' spiked].
  cbn [mbind result_bind fst snd]. exec append_eq.
  eexists. split; [reflexivity|]. cbn [fst snd mret Store.M_ret].
  split; [exists kW; slv|]. split; [exists Store.Jax; slv|].
  eexists. split; [slv|].
  eapply holds_masks_snoc; [exact Hitems | | exists Store.Jax; slv].
  intros l m [k Hk]. exists k. slv.
Qed.

(** The loop body written out in place. *)
Lemma inlined_body_refines (it : nat * Q) :
  Store.holds_mat h lW w → Store.holds_vec h lV v →
  Store.holds_masks h lst st →
  let out :=
    Store.inlined_body lW lst tau_m v_reset v_thresh membr_R dt lV it h in
  match Inlined.loop_body w tau_m v_reset v_thresh membr_R dt (v, st) it with
  | Ok (v', st') =>
      ∃ lV', out.1 = Ok lV' ∧ Store.holds_mat out.2 lW w
             ∧ Store.holds_vec out.2 lV' v' ∧ Store.holds_masks out.2 lst st'
  | Raise e => out.1 = Raise e
  end.
Proof.
  intros [kW HW] [kV HV] (items & Hl & Hitems). destruct it as [i t].
  cbv zeta. unfold Store.inlined_body, Inlined.loop_body.
  destruct (i =? 0)%nat.
  { exists lV. split; [reflexivity|]. simpl.
    split; [by exists kW|]. split; [by exists kV|]. by exists items. }
  rewrite py_last_snoc.
  exec ge_eq. exec where_eq. cbn [mbind result_bind].
  exec append_eq. exec last_item_eq.
  exec dot_eq. cbn [mbind result_bind].
  exec @lift_eq. cbn [mbind result_bind].
  exec neg_eq. exec adds_eq. exec smul_eq.
  exec add_eq. cbn [mbind result_bind].
  exec smul_eq.
  exec iadd_jax_eq. cbn [mbind result_bind].
  exec where_eq. cbn [mbind result_bind].
  eexists. split; [reflexivity|]. cbn [fst snd mret Store.M_ret].
  split; [exists kW; slv|]. split; [exists Store.Jax; slv|].
  eexists. split; [slv|].
  eapply holds_masks_snoc; [exact Hitems | | exists kV; slv].
  intros l m [k Hk]. exists k. slv.
Qed.
End bodies.

Lemma for_each_refines (lW lst : Store.loc) (w : Mat)
    (sbody : Store.loc → nat * Q → Store.M Store.loc)
    (pbody : list Q * list (list bool) → nat * Q
             → result (list Q * list (list bool))) :
  (∀ h lV v st it,
     Store.holds_mat h lW w → Store.holds_vec h lV v →
     Store.holds_masks h lst st →
     Store.refines lW lst w (sbody lV it h) (pbody (v, st) it)) →
  ∀ items h lV v st,
    Store.holds_mat h lW w → Store.holds_vec h lV v →
    Store.holds_masks h lst st →
    Store.refines lW lst w (Store.for_each sbody lV items h)
            (for_each pbody (v, st) items).
Proof.
  intros Hbody. induction items as [|it items IH]; intros h lV v st HW HV Hst.
  - exists lV. by repeat split.
  - specialize (Hbody h lV v st it HW HV Hst).
    cbn [Store.for_each for_each]. unfold mbind at 1, Store.M_bind.
    destruct (pbody (v, st) it) as [[v1 st1]|e]; cbn [mbind result_bind].
    + destruct Hbody as (lV1 & Hout & HW1 & HV1 & Hst1).
      destruct (sbody lV it h) as [r h1]. simpl in *. subst r.
      by apply IH.
    + unfold Store.refines in *. destruct (sbody lV it h) as [r h1].
      simpl in *. by subst r.
Qed.

(** Called on references to a matrix and a vector, either driver on the
    store returns a list of references to the masks that the driver on
    values returns, and raises what that one raises. *)
Lemma run_simulation_refines (inlined : bool) (h : Store.heap)
    (lW lV : Store.loc) (w : Mat) (v : Vec)
    (tau_m v_reset v_thresh membr_R t_max dt : Q) :
  Store.holds_mat h lW w → Store.holds_vec h lV v →
  let out :=
    Store.run_simulation inlined lW lV tau_m v_reset v_thresh membr_R t_max
      dt h in
  match (if inlined
         then Inlined.run_simulation w v tau_m v_reset v_thresh membr_R t_max dt
         else Jitted.run_simulation w v tau_m v_reset v_thresh membr_R t_max dt)
  with
  | Ok train => ∃ lst, out.1 = Ok lst ∧ Store.holds_masks out.2 lst train
  | Raise e => out.1 = Raise e
  end.
Proof.
  intros [kW HW] [kV HV].
  assert (Hgen : ∀ (sbody : Store.loc → Store.loc → nat * Q
                            → Store.M Store.loc)
                    (pbody : list Q * list (list bool) → nat * Q
                             → result (list Q * list (list bool))),
    (∀ h' lV v st it,
       Store.holds_mat h' lW w → Store.holds_vec h' lV v →
       Store.holds_masks h' (length h) st →
       Store.refines lW (length h) w (sbody (length h) lV it h')
         (pbody (v, st) it)) →
    let out :=
      (spike_train ← Store.alloc (Store.OList []);
       ts ← Store.lift (arange 0 t_max dt);
       _ ← Store.alloc (Store.OVec Store.Jax ts);
       _ ← Store.for_each (sbody spike_train) lV (enumerate ts);
       mret spike_train) h in
    match (ts ← arange 0 t_max dt;
           '(_, spike_train) ← for_each pbody (v, []) (enumerate ts);
           Ok spike_train) with
    | Ok train => ∃ lst, out.1 = Ok lst ∧ Store.holds_masks out.2 lst train
    | Raise e => out.1 = Raise e
    end).
  { intros sbody pbody Hbody. cbv zeta.
    unfold mbind at 1 2 3, Store.M_bind, Store.alloc, Store.lift.
    destruct (arange 0 t_max dt) as [ts|e]; [|reflexivity].
    cbn [mbind result_bind].
    pose proof (for_each_refines lW (length h) w (sbody (length h)) pbody
                  Hbody (enumerate ts)
                  ((h ++ [Store.OList []]) ++ [Store.OVec Store.Jax ts])
                  lV v []) as Hloop.
    unfold mbind, Store.M_bind.
    destruct (Store.for_each (sbody (length h)) lV (enumerate ts)
                ((h ++ [Store.OList []]) ++ [Store.OVec Store.Jax ts]))
      as [r hf].
    destruct (for_each pbody (v, []) (enumerate ts)) as [[v' st']|e].
    - destruct Hloop as (lV' & Hr & _ & _ & Hst).
      + exists kW. slv.
      + exists kV. slv.
      + exists []. split; [slv | constructor].
      + simpl in Hr, Hst. subst r. exists (length h). by split.
    - unfold Store.refines in Hloop. simpl in *. rewrite Hloop; [done| | |].
      + exists kW. slv.
      + exists kV. slv.
      + exists []. split; [slv | constructor]. }
  destruct inlined; unfold Store.run_simulation.
  - apply (Hgen (λ lst, Store.inlined_body lW lst tau_m v_reset v_thresh
                          membr_R dt)
                (Inlined.loop_body w tau_m v_reset v_thresh membr_R dt)).
    intros h' lV' v' st it HW' HV' Hst.
    by apply inlined_body_refines.
  - apply (Hgen (λ lst, Store.jitted_body lW lst tau_m v_reset v_thresh
                          membr_R dt)
                (Jitted.loop_body w tau_m v_reset v_thresh membr_R dt)).
    intros h' lV' v' st it HW' HV' Hst.
    by apply jitted_body_refines.
Qed.

Lemma inv_new_list (h h' : Store.heap) :
  Store.inv h (length h) h' → Store.new_list h h' (length h).
Proof.
  intros (_ & _ & items & Hitems & Hnew). split.
  - by apply lookup_ge_None.
  - exists items. split; [exact Hitems|].
    eapply Forall_impl; [exact Hnew|]. intros l Hl. by apply lookup_ge_None.
Qed.

Lemma holds_masks_prefix (h h' : Store.heap) (xs : Store.loc)
    (st : list BVec) :
  h `prefix_of` h' → Store.holds_masks h xs st → Store.holds_masks h' xs st.
Proof.
  intros Hpre (items & Hxs & Hitems). exists items. split.
  - by apply (prefix_lookup_Some h).
  - eapply Forall2_impl; [exact Hitems|]. intros l m [k Hk]. exists k.
    by apply (prefix_lookup_Some h).
Qed.

(** X13.  The same call made twice on the same arguments, as the timing
    loops make it, returns two different lists holding equal masks, and
    the second call leaves the list of the first as it was. *)
Lemma repeated_call (inlined : bool) (W V : Store.loc) (w : Mat) (v : Vec)
    (tau_m v_reset v_thresh membr_R t_max dt : Q) (h : Store.heap) :
  Store.holds_mat h W w → Store.holds_vec h V v →
  let call1 :=
    Store.run_simulation inlined W V tau_m v_reset v_thresh membr_R t_max
      dt h in
  let call2 :=
    Store.run_simulation inlined W V tau_m v_reset v_thresh membr_R t_max
      dt call1.2 in
  ∀ xs1, call1.1 = Ok xs1 →
  ∃ train xs2,
    Store.holds_masks call1.2 xs1 train
    ∧ call2.1 = Ok xs2 ∧ xs2 ≠ xs1
    ∧ Store.holds_masks call2.2 xs2 train
    ∧ Store.holds_masks call2.2 xs1 train.
Proof.
  intros HW HV call1 call2 xs1 Hxs1.
  pose proof (run_simulation_frame inlined W V tau_m v_reset v_thresh membr_R
                t_max dt h) as [(Hpre1 & _) R1].
  pose proof (run_simulation_frame inlined W V tau_m v_reset v_thresh membr_R
                t_max dt call1.2) as [(Hpre2 & _) R2].
  fold call1 in Hpre1, R1. fold call2 in Hpre2, R2.
  pose proof (run_simulation_refines inlined h W V w v tau_m v_reset v_thresh
                membr_R t_max dt HW HV) as H1.
  assert (HW1 : Store.holds_mat call1.2 W w).
  { destruct HW as [k Hk]. exists k. by apply (prefix_lookup_Some h). }
  assert (HV1 : Store.holds_vec call1.2 V v).
  { destruct HV as [k Hk]. exists k. by apply (prefix_lookup_Some h). }
  pose proof (run_simulation_refines inlined call1.2 W V w v tau_m v_reset
                v_thresh membr_R t_max dt HW1 HV1) as H2.
  cbv zeta in H1, H2. fold call1 in H1. fold call2 in H2.
  destruct (if inlined
            then Inlined.run_simulation w v tau_m v_reset v_thresh membr_R
                   t_max dt
            else Jitted.run_simulation w v tau_m v_reset v_thresh membr_R
                   t_max dt) as [train|e].
  - destruct H1 as (l1 & Hl1 & Hm1). destruct H2 as (l2 & Hl2 & Hm2).
    rewrite Hxs1 in Hl1. injection Hl1 as <-.
    exists train, l2. split; [exact Hm1|]. split; [exact Hl2|].
    split; [|split; [exact Hm2 | by apply (holds_masks_prefix call1.2)]].
    rewrite (R1 xs1 Hxs1), (R2 l2 Hl2).
    apply prefix_length in Hpre1. destruct Hm1 as (items & Hx & _).
    apply lookup_lt_Some in Hx. rewrite (R1 xs1 Hxs1) in Hx. lia.
  - congruence.
Qed.

Lemma repeated_call_witness :
  let h := [Store.OMat Store.Numpy W2; Store.OVec Store.Jax [3 # 2; 0]] in
  let call1 := Store.run_simulation false 0 1 1 0 1 1 3 1 h in
  let call2 := Store.run_simulation false 0 1 1 0 1 1 3 1 call1.2 in
  ∃ train xs2,
    Store.holds_masks call1.2 2 train
    ∧ call2.1 = Ok xs2 ∧ xs2 ≠ 2%nat
    ∧ Store.holds_masks call2.2 xs2 train
    ∧ Store.holds_masks call2.2 2 train.
Proof.
  exact (repeated_call false 0 1 W2 [3 # 2; 0] 1 0 1 1 3 1
           [Store.OMat Store.Numpy W2; Store.OVec Store.Jax [3 # 2; 0]]
           (ex_intro _ Store.Numpy eq_refl) (ex_intro _ Store.Jax eq_refl)
           2%nat eq_refl).
Defined.

(** C8.  Two calls of either driver, one after the other, on any store
    and with any arguments.  Every object that existed before a call, the
    weight matrix and the vector of initial potentials among them, is the
    same object with the same content after it, also when the call raises;
    the spike train a call returns is a list that did not exist before the
    call, and so are the masks in it.  Hence the second call writes to no
    object of the first and returns a list of its own.  The scalars are
    values, not objects: a call cannot change them. *)
Theorem inputs_untouched (first second : bool) (W V W' V' : Store.loc)
    (tau_m v_reset v_thresh membr_R t_max dt : Q)
    (tau_m' v_reset' v_thresh' membr_R' t_max' dt' : Q) (h : Store.heap) :
  let call1 :=
    Store.run_simulation first W V tau_m v_reset v_thresh membr_R t_max dt h
  in
  let call2 :=
    Store.run_simulation second W' V' tau_m' v_reset' v_thresh' membr_R'
      t_max' dt' call1.2
  in
  (∀ l o, h !! l = Some o → call1.2 !! l = Some o)
  ∧ (∀ l o, call1.2 !! l = Some o → call2.2 !! l = Some o)
  ∧ (∀ xs, call1.1 = Ok xs → Store.new_list h call1.2 xs)
  ∧ (∀ xs, call2.1 = Ok xs → Store.new_list call1.2 call2.2 xs).
Proof.
  intros call1 call2.
  pose proof (run_simulation_frame first W V tau_m v_reset v_thresh membr_R
                t_max dt h) as [H1 R1].
  pose proof (run_simulation_frame second W' V' tau_m' v_reset' v_thresh'
                membr_R' t_max' dt' call1.2) as [H2 R2].
  fold call1 in H1, R1. fold call2 in H2, R2.
  split; [|split; [|split]].
  - intros l o Hl. destruct H1 as [Hpre _].
    by apply (prefix_lookup_Some h).
  - intros l o Hl. destruct H2 as [Hpre _].
    by apply (prefix_lookup_Some call1.2).
  - intros xs Hxs. rewrite (R1 xs Hxs). by apply inv_new_list.
  - intros xs Hxs. rewrite (R2 xs Hxs). by apply inv_new_list.
Qed.

Lemma inputs_untouched_witness :
  let h := [Store.OMat Store.Numpy W2; Store.OVec Store.Numpy [3 # 2; 0]] in
  let call1 := Store.run_simulation true 0 1 1 0 1 1 3 1 h in
  let call2 := Store.run_simulation false 0 1 1 0 1 1 3 1 call1.2 in
  (∀ l o, h !! l = Some o → call1.2 !! l = Some o)
  ∧ (∀ l o, call1.2 !! l = Some o → call2.2 !! l = Some o)
  ∧ (∀ xs, call1.1 = Ok xs → Store.new_list h call1.2 xs)
  ∧ (∀ xs, call2.1 = Ok xs → Store.new_list call1.2 call2.2 xs).
Proof.
  exact (inputs_untouched true false 0 1 0 1 1 0 1 1 3 1 1 0 1 1 3 1
           [Store.OMat Store.Numpy W2; Store.OVec Store.Numpy [3 # 2; 0]]).
Defined.

(** The store does record an update in place: [x += y] on a NumPy array
    changes the object every holder of the reference sees. *)
Example iadd_numpy_in_place :
  Store.iadd 0 1 [Store.OVec Store.Numpy [1]; Store.OVec Store.Numpy [2]]
  = (Ok 0%nat, [Store.OVec Store.Numpy [3]; Store.OVec Store.Numpy [2]]).
Proof. reflexivity. Qed.

(** A run of the driver written out in place on a NumPy matrix and a NumPy
    vector of potentials. *)
Example run_simulation_inlined_store :
  let h := [Store.OMat Store.Numpy W2; Store.OVec Store.Numpy [3 # 2; 0]] in
  let out := Store.run_simulation_inlined 0 1 1 0 1 1 3 1 h in
  out.1 = Ok 2%nat
  ∧ take 3 out.2 = h ++ [Store.OList [4; 14]%nat]
  ∧ out.2 !! 4%nat = Some (Store.OMask Store.Numpy [true; false])
  ∧ out.2 !! 14%nat = Some (Store.OMask Store.Jax [false; true]).
Proof. repeat split. Qed.

(** * The simulator over a rounded arithmetic *)

Lemma enumerate_later {T} (t : T) (ts : list T) :
  ∃ items, enumerate (t :: ts) = (0%nat, t) :: items
           ∧ length items = length ts ∧ Forall Rounded.later items.
Proof.
  unfold enumerate. simpl. eexists; split; [reflexivity|]. split.
  - rewrite length_zip_with, length_seq. lia.
  - apply Forall_forall. intros [i x] Hin.
    apply elem_of_lookup_zip_with in Hin as (j & a & b & Heq & Ha & Hb).
    injection Heq as -> ->. apply lookup_seq in Ha as [-> _].
    unfold Rounded.later; simpl; lia.
Qed.

Section rounded_step.
Context {A : Arith}.
Context (W : Rounded.Mat F32) (tau_m v_reset v_thresh membr_R dt : F32).

Let sel : bool → F32 → F32 := λ b v, if b then v_reset else v.

(** On matching shapes no operation of the step raises, and every local
    variable is the elementwise combination the source spells out. *)
Lemma rounded_step_locals (v_prev : list F32) :
  Rounded.ncols W = length v_prev → Rounded.nrows W = length v_prev →
  let spiked := Rounded.vge v_prev v_thresh in
  let V0 := zip_with sel spiked v_prev in
  let I_syn := (λ r, Rounded.dot_row r spiked) <$> Rounded.mrows W in
  let dV := Rounded.smulv (div32 dt tau_m)
              (zip_with add32 (Rounded.vadds (Rounded.vneg V0) v_reset)
                 (Rounded.smulv membr_R I_syn)) in
  let V1 := zip_with add32 V0 dV in
  Rounded.run_step_locals v_prev v_thresh v_reset W tau_m dt membr_R
  = Ok (Rounded.mkLocals spiked V0 I_syn dV V1 (zip_with sel spiked V1)).
Proof.
  intros Hc Hr spiked V0 I_syn dV V1. unfold Rounded.run_step_locals.
  assert (Hs : length spiked = length v_prev)
    by (unfold spiked, Rounded.vge; by rewrite length_fmap).
  assert (HV0 : length V0 = length v_prev).
  { unfold V0. rewrite length_zip_with. lia. }
  assert (HI : length I_syn = length v_prev).
  { unfold I_syn. rewrite length_fmap. exact Hr. }
  assert (HdV : length dV = length v_prev).
  { unfold dV, Rounded.smulv, Rounded.vadds, Rounded.vneg.
    rewrite length_fmap, length_zip_with, !length_fmap. lia. }
  assert (HV1 : length V1 = length v_prev).
  { unfold V1. rewrite length_zip_with. lia. }
  fold spiked. unfold Rounded.jnp_where, Rounded.vadd, Rounded.dot.
  rewrite broadcast_same by lia. cbn [mbind result_bind]. fold sel V0.
  rewrite Hc, <- Hs, Nat.eqb_refl. cbn [mbind result_bind]. fold I_syn.
  rewrite broadcast_same
    by (unfold Rounded.smulv, Rounded.vadds, Rounded.vneg;
        rewrite !length_fmap; lia).
  cbn [mbind result_bind]. fold dV.
  rewrite broadcast_same by lia. cbn [mbind result_bind]. fold V1.
  rewrite broadcast_same by lia. reflexivity.
Qed.

Lemma rounded_step_shapes (v_prev : list F32) :
  Rounded.ncols W = length v_prev → Rounded.nrows W = length v_prev →
  ∃ V, Rounded.run_step v_prev v_thresh v_reset W tau_m dt membr_R
       = Ok (V, Rounded.vge v_prev v_thresh)
       ∧ length V = length v_prev.
Proof.
  intros Hc Hr. unfold Rounded.run_step.
  rewrite (rounded_step_locals v_prev Hc Hr).
  cbn [mbind result_bind Rounded.l_V Rounded.l_spiked].
  eexists; split; [reflexivity|].
  unfold Rounded.smulv, Rounded.vadds, Rounded.vneg, Rounded.vge.
  repeat (rewrite length_zip_with || rewrite length_fmap).
  unfold Rounded.nrows in Hr. lia.
Qed.

End rounded_step.

(** ** Time points and the loop *)

Section rounded_loop.
Context {A : Arith}.
Context (W : Rounded.weights F64 F32) (tau_m v_reset v_thresh membr_R dt : F64).

Let body := Rounded.loop_body W tau_m v_reset v_thresh membr_R dt.
Let step (V : list F32) :=
  Rounded.run_step V (cast v_thresh) (cast v_reset) (Rounded.traced W)
    (cast tau_m) (cast dt) (cast membr_R).

(** The points [arange] returns are as many as the ceiling of the
    quotient says, when that ceiling is a length. *)
Lemma rounded_arange (t_max : F64) (k : Z) :
  eqb64 dt zero64 = false →
  ceil64 (div64 (sub64 t_max zero64) dt) = Some k →
  (Rounded.min_intp ≤ k ≤ Rounded.max_intp)%Z →
  ∃ ts, Rounded.arange zero64 t_max dt = Ok ts ∧ length ts = Z.to_nat k.
Proof.
  intros Hdt Hk [Hlo Hhi]. unfold Rounded.arange, Rounded.arange_length.
  rewrite Hdt, Hk.
  apply Z.leb_le in Hlo, Hhi. rewrite Hlo, Hhi. cbn [andb mbind result_bind].
  eexists; split; [reflexivity|]. by rewrite length_fmap, length_seq.
Qed.

(** A call of [arange] that returns has found such a ceiling. *)
Lemma rounded_arange_returns (t_max : F64) (ts : list F32) :
  Rounded.arange zero64 t_max dt = Ok ts →
  eqb64 dt zero64 = false
  ∧ ∃ k, ceil64 (div64 (sub64 t_max zero64) dt) = Some k
         ∧ (Rounded.min_intp ≤ k ≤ Rounded.max_intp)%Z
         ∧ length ts = Z.to_nat k.
Proof.
  unfold Rounded.arange, Rounded.arange_length. intros H.
  destruct (eqb64 dt zero64); [discriminate|]. split; [reflexivity|].
  destruct (ceil64 (div64 (sub64 t_max zero64) dt)) as [k|]; [|discriminate].
  exists k. split; [reflexivity|].
  destruct (Z.leb_spec Rounded.min_intp k) as [Hlo|]; [|discriminate].
  destruct (Z.leb_spec k Rounded.max_intp) as [Hhi|]; [|discriminate].
  cbn [andb mbind result_bind] in H. injection H as <-.
  split; [lia|]. by rewrite length_fmap, length_seq.
Qed.

Lemma rounded_body_first (s : list F32 * list (list bool)) (t : F32) :
  body s (0%nat, t) = Ok s.
Proof. by destruct s. Qed.

Lemma rounded_loop_first (s : list F32 * list (list bool)) (t : F32)
    (items : list (nat * F32)) :
  for_each body s ((0%nat, t) :: items) = for_each body s items.
Proof. by rewrite for_each_cons, rounded_body_first. Qed.

Lemma rounded_body_later (V : list F32) (st : list (list bool))
    (it : nat * F32) :
  Rounded.later it →
  body (V, st) it = step V ≫= λ '(V', spiked), Ok (V', st ++ [spiked]).
Proof.
  destruct it as [i t]. unfold Rounded.later; simpl. intros Hi.
  destruct (Nat.eqb_spec i 0); [contradiction | reflexivity].
Qed.

(** On an [N]-by-[N] matrix and [N] potentials the loop runs through any
    list of later items: it appends one mask of length [N] per item and
    keeps [N] potentials. *)
Lemma rounded_loop_later (N : nat) (items : list (nat * F32)) :
  Rounded.ncols (Rounded.traced W) = N →
  Rounded.nrows (Rounded.traced W) = N →
  Forall Rounded.later items →
  ∀ (V : list F32) (st : list (list bool)), length V = N →
  ∃ V' masks,
    for_each body (V, st) items = Ok (V', st ++ masks)
    ∧ length V' = N ∧ length masks = length items
    ∧ Forall (λ m : list bool, length m = N) masks.
Proof.
  intros Hc Hr. induction items as [|it items IH]; intros Hl V st HV.
  - exists V, []. simpl. rewrite app_nil_r. repeat split; auto.
  - apply Forall_cons in Hl as [Hit Hitems]. rewrite for_each_cons.
    rewrite rounded_body_later by exact Hit.
    destruct (rounded_step_shapes (Rounded.traced W) (cast tau_m)
                (cast v_reset) (cast v_thresh) (cast membr_R) (cast dt) V)
      as (V1 & Hstep & HV1); [lia | lia |].
    unfold step. rewrite Hstep. cbn [mbind result_bind].
    destruct (IH Hitems V1 (st ++ [Rounded.vge V (cast v_thresh)])) as
      (V' & masks & Hrun & HV' & Hlen & Hall); [lia|].
    exists V', (Rounded.vge V (cast v_thresh) :: masks).
    rewrite Hrun, <- app_assoc. simpl. repeat split; auto.
    constructor; [|exact Hall]. unfold Rounded.vge.
    by rewrite length_fmap.
Qed.

(** Whatever the shapes, a loop over later items that returns has appended
    one mask per item. *)
Lemma rounded_loop_returns (items : list (nat * F32)) :
  Forall Rounded.later items →
  ∀ (V V' : list F32) (st st' : list (list bool)),
  for_each body (V, st) items = Ok (V', st') →
  ∃ masks, st' = st ++ masks ∧ length masks = length items.
Proof.
  induction items as [|it items IH]; intros Hl V V' st st' Hrun.
  - injection Hrun as <- <-. exists []. by rewrite app_nil_r.
  - apply Forall_cons in Hl as [Hit Hitems].
    rewrite for_each_cons, rounded_body_later in Hrun by exact Hit.
    apply bind_Ok in Hrun as (s1 & Hs1 & Hrun).
    apply bind_Ok in Hs1 as ([V1 sp] & Hstep & Hs1). injection Hs1 as <-.
    destruct (IH Hitems _ _ _ _ Hrun) as (masks & -> & Hlen).
    exists (sp :: masks). rewrite <- app_assoc. simpl. split; [done|lia].
Qed.

(** A run that returns has recorded one mask per time point after the
    first. *)
Lemma rounded_run_returns (V : list F32) (t_max : F64)
    (train : list (list bool)) :
  Rounded.run_simulation W V tau_m v_reset v_thresh membr_R t_max dt
  = Ok train →
  ∃ k, ceil64 (div64 (sub64 t_max zero64) dt) = Some k
       ∧ length train = (Z.to_nat k - 1)%nat.
Proof.
  unfold Rounded.run_simulation. intros Hrun.
  apply bind_Ok in Hrun as (ts & Hts & Hrun).
  destruct (rounded_arange_returns t_max ts Hts) as (_ & k & Hk & _ & Hlen).
  exists k. split; [exact Hk|]. rewrite <- Hlen.
  apply bind_Ok in Hrun as ([V' st'] & Hloop & Hst). injection Hst as ->.
  destruct ts as [|t ts].
  { by injection Hloop as _ <-. }
  destruct (enumerate_later t ts) as (items & Hen & Hitems & Hlater).
  rewrite Hen in Hloop. fold body in Hloop.
  rewrite rounded_loop_first in Hloop.
  destruct (rounded_loop_returns items Hlater _ _ _ _ Hloop)
    as (masks & -> & Hmasks).
  simpl. lia.
Qed.

(** On an [N]-by-[N] matrix and [N] potentials a run returns, with one
    mask of length [N] per time point after the first. *)
Lemma rounded_run_shapes (N : nat) (V : list F32) (t_max : F64) (k : Z) :
  Rounded.ncols (Rounded.traced W) = N →
  Rounded.nrows (Rounded.traced W) = N → length V = N →
  eqb64 dt zero64 = false →
  ceil64 (div64 (sub64 t_max zero64) dt) = Some k →
  (Rounded.min_intp ≤ k ≤ Rounded.max_intp)%Z →
  ∃ train,
    Rounded.run_simulation W V tau_m v_reset v_thresh membr_R t_max dt
    = Ok train
    ∧ length train = (Z.to_nat k - 1)%nat
    ∧ Forall (λ m : list bool, length m = N) train.
Proof.
  intros Hc Hr HV Hdt Hk Hrange. unfold Rounded.run_simulation.
  destruct (rounded_arange t_max k Hdt Hk Hrange) as (ts & -> & Hlen).
  cbn [mbind result_bind]. fold body. rewrite <- Hlen.
  destruct ts as [|t ts].
  { exists []. simpl. repeat split; auto. }
  destruct (enumerate_later t ts) as (items & -> & Hitems & Hlater).
  rewrite rounded_loop_first.
  destruct (rounded_loop_later N items Hc Hr Hlater V [] HV)
    as (V' & train & Hrun & HV' & Htrain & Hall).
  simpl in Hrun. rewrite Hrun.
  cbn [mbind result_bind]. exists train. split; [reflexivity|].
  split; [simpl; lia | exact Hall].
Qed.

(** A run with at most one time point executes no step: whatever the
    shapes are, nothing raises and nothing is recorded. *)
Lemma rounded_no_step (V : list F32) (t_max : F64) (k : Z) :
  eqb64 dt zero64 = false →
  ceil64 (div64 (sub64 t_max zero64) dt) = Some k →
  (Rounded.min_intp ≤ k ≤ 1)%Z →
  Rounded.run_simulation W V tau_m v_reset v_thresh membr_R t_max dt = Ok [].
Proof.
  intros Hdt Hk [Hlo Hhi]. unfold Rounded.run_simulation.
  destruct (rounded_arange t_max k Hdt Hk) as (ts & -> & Hlen).
  { unfold Rounded.max_intp. lia. }
  cbn [mbind result_bind].
  destruct ts as [|t [|t' ts]]; [reflexivity | reflexivity |].
  simpl in Hlen. lia.
Qed.
End rounded_loop.

Lemma traced_shape {A : Arith} (W : Rounded.weights F64 F32) (N M : nat) :
  Rounded.shape W = (N, M) →
  Rounded.nrows (Rounded.traced W) = N ∧ Rounded.ncols (Rounded.traced W) = M.
Proof.
  destruct W; simpl; intros [= <- <-]; split; try reflexivity.
  unfold Rounded.nrows. simpl. by rewrite length_fmap.
Qed.

(** * The update rule of one step *)

(** C1.  On an [N]-by-[N] matrix and [N] potentials [run_step] returns, and
    at every neuron [i], with [v] the potential the step starts from: the
    mask is [v >= v_thresh]; the potential is reset to [v_reset] where the
    mask holds before the current is computed; the current is the sum over
    [j] of [W[i][j] * spiked[j]] with [spiked[j]] read as 1 where the mask
    holds and as 0 where it does not; the increment is
    [(dt / tau_m) * (- V[i] + v_reset + membr_R * I_syn[i])] on the
    potential after that reset, and is added to it.  So a neuron that does
    not spike ends at [v + (dt / tau_m) * (- v + v_reset + membr_R *
    I_syn[i])], and the increment of a spiking neuron is computed from
    [v_reset].  Every operation is the one of the arithmetic the step
    computes in, applied in the order of the source: the statement holds
    of rounded results, and of what [dt / tau_m] is at [tau_m = 0]. *)
Theorem run_step_update_rule {A : Arith} (N : nat) (W : Rounded.Mat F32)
    (v_prev : list F32) (v_thresh v_reset tau_m dt membr_R : F32) :
  Rounded.square N W → length v_prev = N →
  ∃ l : Rounded.locals F32,
    Rounded.run_step_locals v_prev v_thresh v_reset W tau_m dt membr_R = Ok l
    ∧ Rounded.run_step v_prev v_thresh v_reset W tau_m dt membr_R
      = Ok (Rounded.l_V l, Rounded.l_spiked l)
    ∧ length (Rounded.l_spiked l) = N
    ∧ ∀ i, (i < N)%nat →
      ∃ v row, v_prev !! i = Some v ∧ Rounded.mrows W !! i = Some row
        ∧ length row = N ∧
        let s := geb32 v v_thresh in
        let I := sum32 (zip_with
                          (λ w (b : bool),
                             mul32 w (if b then one32 else zero32))
                          row (Rounded.l_spiked l)) in
        let Vr := if s then v_reset else v in
        let dV := mul32 (div32 dt tau_m)
                    (add32 (add32 (neg32 Vr) v_reset) (mul32 membr_R I)) in
        Rounded.l_spiked l !! i = Some s
        ∧ Rounded.l_V_reset l !! i = Some Vr
        ∧ Rounded.l_I_syn l !! i = Some I
        ∧ Rounded.l_dV l !! i = Some dV
        ∧ Rounded.l_V_euler l !! i = Some (add32 Vr dV)
        ∧ (s = false →
           Rounded.l_V l !! i
           = Some (add32 v
                     (mul32 (div32 dt tau_m)
                        (add32 (add32 (neg32 v) v_reset)
                           (mul32 membr_R I)))))
        ∧ (s = true →
           Rounded.l_V l !! i = Some v_reset
           ∧ Rounded.l_dV l !! i
             = Some (mul32 (div32 dt tau_m)
                       (add32 (add32 (neg32 v_reset) v_reset)
                          (mul32 membr_R I)))).
Proof.
  intros (Hwf & Hr & Hc) HV.
  pose proof (rounded_step_locals W tau_m v_reset v_thresh membr_R dt
                v_prev) as Hl.
  cbv zeta in Hl. rewrite Hl by lia. eexists. split; [reflexivity|].
  unfold Rounded.run_step. rewrite Hl by lia.
  cbn [mbind result_bind Rounded.l_V Rounded.l_spiked Rounded.l_V_reset
       Rounded.l_I_syn Rounded.l_dV Rounded.l_V_euler].
  split; [reflexivity|].
  split; [unfold Rounded.vge; by rewrite length_fmap|]. intros i Hi.
  destruct (lookup_lt_is_Some_2 v_prev i) as [v Hv]; [lia|].
  destruct (lookup_lt_is_Some_2 (Rounded.mrows W) i) as [row Hrow];
    [unfold Rounded.nrows in Hr; lia|].
  exists v, row. split; [exact Hv|]. split; [exact Hrow|].
  split.
  { unfold Rounded.wf_mat in Hwf. rewrite Forall_lookup in Hwf.
    rewrite (Hwf i row Hrow). exact Hc. }
  assert (Hs : Rounded.vge v_prev v_thresh !! i = Some (geb32 v v_thresh)).
  { unfold Rounded.vge. by rewrite list_lookup_fmap, Hv. }
  cbv zeta.
  unfold Rounded.smulv, Rounded.vadds, Rounded.vneg, Rounded.dot_row,
    Rounded.b2f32.
  repeat rewrite ?lookup_zip_with, ?list_lookup_fmap, ?Hs, ?Hv, ?Hrow;
    cbn [mbind option_bind fmap option_fmap option_map].
  do 5 (split; [reflexivity|]). split; [by intros ->|].
  intros Hsp. rewrite Hsp. by split.
Qed.

Lemma run_step_update_rule_witness :
  ∃ l : Rounded.locals IEEE.float,
    Rounded.run_step_locals (A := ieee) [IEEE.single 3 2; IEEE.single 0 1]
      (IEEE.single 1 1) (IEEE.single 0 1) W2s (IEEE.single 1 1)
      (IEEE.single 1 1) (IEEE.single 1 1) = Ok l
    ∧ Rounded.l_spiked l = [true; false]
    ∧ Rounded.l_I_syn l !! 1%nat = Some (IEEE.single 5 1)
    ∧ Rounded.l_dV l !! 0%nat = Some (IEEE.single 0 1)
    ∧ Rounded.l_V l !! 0%nat = Some (IEEE.single 0 1)
    ∧ Rounded.l_V l !! 1%nat = Some (IEEE.single 5 1).
Proof.
  destruct (run_step_update_rule (A := ieee) 2 W2s
              [IEEE.single 3 2; IEEE.single 0 1]
              (IEEE.single 1 1) (IEEE.single 0 1) (IEEE.single 1 1)
              (IEEE.single 1 1) (IEEE.single 1 1))
    as (l & Hl & _ & _ & Hi).
  - split; [repeat constructor | split; reflexivity].
  - reflexivity.
  - exists l. split; [exact Hl|].
    assert (Hmask : Rounded.l_spiked l = [true; false]).
    { vm_compute in Hl. by injection Hl as <-. }
    split; [exact Hmask|].
    destruct (Hi 0%nat ltac:(lia)) as (v0 & row0 & Hv0 & Hrow0 & _ & H0).
    destruct (Hi 1%nat ltac:(lia)) as (v1 & row1 & Hv1 & Hrow1 & _ & H1).
    injection Hv0 as <-. injection Hrow0 as <-.
    injection Hv1 as <-. injection Hrow1 as <-.
    cbv zeta in H0, H1. rewrite Hmask in H0, H1.
    destruct H0 as (_ & _ & _ & HdV0 & _ & _ & HV0).
    destruct H1 as (_ & _ & HI1 & _ & _ & HV1 & _).
    split; [exact HI1|]. split; [exact HdV0|].
    split; [exact (proj1 (HV0 eq_refl)) | exact (HV1 eq_refl)].
Defined.

(** At [tau_m = 0] the jitted step divides as the array library does:
    the quotient is an infinity and so is the potential, no exception is
    raised. *)
Example run_step_zero_time_constant :
  Rounded.run_step (A := ieee) [IEEE.single 1 2] (IEEE.single 1 1)
    (IEEE.single 0 1) (Rounded.mkMat 1 [[IEEE.single 0 1]])
    (IEEE.single 0 1) (IEEE.single 1 10) (IEEE.single 1 1)
  = Ok ([S754_infinity true], [false]).
Proof. vm_compute. reflexivity. Qed.

(** * The length of the spike train *)

(** C4.  [run_simulation] counts its time points as [arange] does: the
    ceiling [k] of the quotient [(t_max - 0) / dt] of Python floats.  A
    run that returns has recorded [k - 1] masks, none when that is not
    positive; it does return on matching shapes; and when [k <= 1], as it
    is for [t_max <= dt], the call raises nothing and returns the empty
    spike train, whatever the shapes. *)
Theorem spike_train_length {A : Arith}
    (tau_m v_reset v_thresh membr_R t_max dt : F64) (k : Z) :
  eqb64 dt zero64 = false →
  ceil64 (div64 (sub64 t_max zero64) dt) = Some k →
  (Rounded.min_intp ≤ k ≤ Rounded.max_intp)%Z →
  (∀ (W : Rounded.weights F64 F32) (V0 : list F32) (train : list (list bool)),
     Rounded.run_simulation W V0 tau_m v_reset v_thresh membr_R t_max dt
     = Ok train →
     Z.of_nat (length train) = Z.max 0 (k - 1))
  ∧ (∀ (N : nat) (W : Rounded.weights F64 F32) (V0 : list F32),
       Rounded.shape W = (N, N) → length V0 = N →
       ∃ train,
         Rounded.run_simulation W V0 tau_m v_reset v_thresh membr_R t_max dt
         = Ok train)
  ∧ ((k ≤ 1)%Z →
     ∀ (W : Rounded.weights F64 F32) (V0 : list F32),
       Rounded.run_simulation W V0 tau_m v_reset v_thresh membr_R t_max dt
       = Ok []).
Proof.
  intros Hdt Hk Hrange. split; [|split].
  - intros W V0 train Hrun.
    destruct (rounded_run_returns W tau_m v_reset v_thresh membr_R dt V0
                t_max train Hrun) as (k' & Hk' & Hlen).
    rewrite Hk in Hk'. injection Hk' as <-. lia.
  - intros N W V0 HW HV.
    destruct (traced_shape W N N HW) as [Hr Hc].
    destruct (rounded_run_shapes W tau_m v_reset v_thresh membr_R dt N V0
                t_max k) as (train & Hrun & _); auto.
    by exists train.
  - intros Hle W V0.
    apply (rounded_no_step W tau_m v_reset v_thresh membr_R dt V0 t_max k);
      auto.
    lia.
Qed.

(** With [t_max = 0.9] and [dt = 0.3] the quotient of the two doubles is
    3.0, so there are three time points and two masks. *)
Lemma spike_train_length_witness :
  (∀ (W : Rounded.weights IEEE.float IEEE.float) (V0 : list IEEE.float)
     (train : list (list bool)),
     Rounded.run_simulation (A := ieee) W V0 (IEEE.double 1 1) (IEEE.double 0 1)
       (IEEE.double 1 1) (IEEE.double 1 1) (IEEE.double 9 10)
       (IEEE.double 3 10) = Ok train →
     Z.of_nat (length train) = 2%Z)
  ∧ (∀ (N : nat) (W : Rounded.weights IEEE.float IEEE.float) (V0 : list IEEE.float),
       Rounded.shape (A := ieee) W = (N, N) → length V0 = N →
       ∃ train,
         Rounded.run_simulation (A := ieee) W V0 (IEEE.double 1 1) (IEEE.double 0 1)
           (IEEE.double 1 1) (IEEE.double 1 1) (IEEE.double 9 10)
           (IEEE.double 3 10) = Ok train)
  ∧ ((3 ≤ 1)%Z →
     ∀ (W : Rounded.weights IEEE.float IEEE.float) (V0 : list IEEE.float),
       Rounded.run_simulation (A := ieee) W V0 (IEEE.double 1 1) (IEEE.double 0 1)
         (IEEE.double 1 1) (IEEE.double 1 1) (IEEE.double 9 10)
         (IEEE.double 3 10) = Ok []).
Proof.
  apply (spike_train_length (A := ieee) (IEEE.double 1 1) (IEEE.double 0 1)
           (IEEE.double 1 1) (IEEE.double 1 1) (IEEE.double 9 10)
           (IEEE.double 3 10) 3).
  - vm_compute. reflexivity.
  - vm_compute. reflexivity.
  - unfold Rounded.min_intp, Rounded.max_intp. lia.
Defined.

(** * No neurons *)

(** C10.  With no neurons (a 0-by-0 matrix and no potentials)
    [run_simulation] raises nothing and returns one mask of length 0 per
    time point after the first: [k - 1] of them, [k] being the ceiling of
    the quotient [(t_max - 0) / dt] of Python floats. *)
Theorem empty_population {A : Arith} (W : Rounded.weights F64 F32)
    (tau_m v_reset v_thresh membr_R t_max dt : F64) (k : Z) :
  Rounded.shape W = (0, 0)%nat →
  eqb64 dt zero64 = false →
  ceil64 (div64 (sub64 t_max zero64) dt) = Some k →
  (Rounded.min_intp ≤ k ≤ Rounded.max_intp)%Z →
  Rounded.run_simulation W [] tau_m v_reset v_thresh membr_R t_max dt
  = Ok (replicate (Z.to_nat (k - 1)) []).
Proof.
  intros HW Hdt Hk Hrange.
  destruct (traced_shape W 0 0 HW) as [Hr Hc].
  destruct (rounded_run_shapes W tau_m v_reset v_thresh membr_R dt 0 []
              t_max k) as (train & Hrun & Hlen & Hall); auto.
  rewrite Hrun. f_equal. rewrite (all_empty train Hall). f_equal.
  lia.
Qed.

Lemma empty_population_witness :
  Rounded.run_simulation (A := ieee) (Rounded.Numpy (Rounded.mkMat 0 [])) []
    (IEEE.double 1 1) (IEEE.double 0 1) (IEEE.double 1 1) (IEEE.double 1 1)
    (IEEE.double 9 10) (IEEE.double 3 10)
  = Ok [[]; []].
Proof.
  apply (empty_population (A := ieee) (Rounded.Numpy (Rounded.mkMat 0 []))
           (IEEE.double 1 1) (IEEE.double 0 1) (IEEE.double 1 1)
           (IEEE.double 1 1) (IEEE.double 9 10) (IEEE.double 3 10) 3).
  - reflexivity.
  - vm_compute. reflexivity.
  - vm_compute. reflexivity.
  - unfold Rounded.min_intp, Rounded.max_intp. lia.
Defined.

(** * The two drivers *)

Section rounded_variants.
Context {A : Arith}.
Context (N : nat) (W : Rounded.weights F64 F32)
  (tau_m v_reset v_thresh membr_R dt : F64).
Context (Hshape : Rounded.shape W = (N, N)).
Context (Htau : eqb64 tau_m zero64 = false).
Context (Hrate : Rounded.same_rate tau_m dt).
Context (Hcurrent : Rounded.same_current W membr_R).

Let jbody := Rounded.loop_body W tau_m v_reset v_thresh membr_R dt.
Let ibody := Rounded.inlined_loop_body W tau_m v_reset v_thresh membr_R dt.

(** What [membr_R * I_syn] is in the driver written out in place is what
    it is in the jitted step. *)
Lemma rounded_same_current (s : list bool) :
  length s = N →
  ∃ I_syn,
    Rounded.weights_dot W s = Ok I_syn
    ∧ Rounded.scaled membr_R I_syn
      = Rounded.smulv (cast membr_R)
          ((λ r, Rounded.dot_row r s) <$> Rounded.mrows (Rounded.traced W)).
Proof.
  intros Hs. destruct W as [W64|W32]; simpl in *.
  - injection Hshape as Hr Hc. unfold Rounded.np_dot.
    rewrite Hc, <- Hs, Nat.eqb_refl. cbn [mbind result_bind].
    eexists; split; [reflexivity|]. simpl.
    unfold Rounded.smulv. rewrite <- !list_fmap_compose.
    apply list_fmap_ext. intros i row Hrow. simpl.
    apply Hcurrent; [by eapply list_elem_of_lookup_2 | lia].
  - injection Hshape as Hr Hc. unfold Rounded.dot.
    rewrite Hc, <- Hs, Nat.eqb_refl. cbn [mbind result_bind].
    eexists; split; reflexivity.
Qed.

(** On [N] potentials the body written out in place leaves the state the
    body that calls [run_step] leaves. *)
Lemma rounded_ibody_jbody (V : list F32) (st : list (list bool))
    (it : nat * F32) :
  length V = N → ibody (V, st) it = jbody (V, st) it.
Proof.
  intros HV. destruct it as [i t].
  unfold ibody, jbody, Rounded.inlined_loop_body, Rounded.loop_body.
  destruct (i =? 0)%nat; [reflexivity|].
  destruct (traced_shape W N N Hshape) as [Hr Hc].
  assert (Hc' : Rounded.ncols (Rounded.traced W) = length V) by lia.
  assert (Hr' : Rounded.nrows (Rounded.traced W) = length V) by lia.
  unfold Rounded.run_step.
  pose proof (rounded_step_locals (Rounded.traced W) (cast tau_m)
                (cast v_reset) (cast v_thresh) (cast membr_R) (cast dt)
                V Hc' Hr') as Hl.
  cbv zeta in Hl. rewrite Hl.
  cbn [mbind result_bind Rounded.l_V Rounded.l_spiked].
  set (fired := Rounded.vge V (cast v_thresh)).
  assert (Hf : length fired = N)
    by (unfold fired, Rounded.vge; by rewrite length_fmap).
  unfold Rounded.jnp_where, Rounded.vadd, py_last, Rounded.py_div.
  rewrite broadcast_same by lia. cbn [mbind result_bind].
  rewrite last_snoc. cbn [mbind result_bind].
  destruct (rounded_same_current fired Hf) as (I_syn & -> & Hscaled).
  cbn [mbind result_bind]. rewrite Htau. cbn [mbind result_bind].
  rewrite Hscaled. unfold Rounded.same_rate in Hrate. rewrite Hrate.
  assert (HI : length (Rounded.mrows (Rounded.traced W)) = N)
    by (unfold Rounded.nrows in Hr'; lia).
  rewrite broadcast_same
    by (unfold Rounded.smulv, Rounded.vadds, Rounded.vneg;
        repeat (rewrite length_zip_with || rewrite length_fmap); lia).
  cbn [mbind result_bind].
  rewrite broadcast_same
    by (unfold Rounded.smulv, Rounded.vadds, Rounded.vneg;
        repeat (rewrite length_zip_with || rewrite length_fmap); lia).
  cbn [mbind result_bind].
  rewrite broadcast_same
    by (unfold Rounded.smulv, Rounded.vadds, Rounded.vneg;
        repeat (rewrite length_zip_with || rewrite length_fmap); lia).
  reflexivity.
Qed.

(** The body that calls [run_step] keeps [N] potentials. *)
Lemma rounded_body_length (V V' : list F32) (st st' : list (list bool))
    (it : nat * F32) :
  length V = N → jbody (V, st) it = Ok (V', st') → length V' = N.
Proof.
  intros HV. destruct it as [i t].
  unfold jbody, Rounded.loop_body.
  destruct (i =? 0)%nat; [by intros [= <- _]|].
  destruct (traced_shape W N N Hshape) as [Hr Hc].
  destruct (rounded_step_shapes (Rounded.traced W) (cast tau_m)
              (cast v_reset) (cast v_thresh) (cast membr_R) (cast dt) V)
    as (V1 & -> & HV1); [lia | lia |].
  cbn [mbind result_bind]. intros [= <- _]. lia.
Qed.

Lemma rounded_iloop_jloop (items : list (nat * F32)) :
  ∀ (V : list F32) (st : list (list bool)), length V = N →
  for_each ibody (V, st) items = for_each jbody (V, st) items.
Proof.
  induction items as [|it items IH]; intros V st HV; [reflexivity|].
  rewrite !for_each_cons, rounded_ibody_jbody by exact HV.
  destruct (jbody (V, st) it) as [[V' st']|e] eqn:Hb; [|reflexivity].
  cbn [mbind result_bind]. apply IH.
  by eapply rounded_body_length.
Qed.
End rounded_variants.



(** The run of the witness, computed: the two neurons spike in turn. *)
Example variants_agree_run :
  Rounded.run_simulation (A := ieee) (Rounded.Numpy W2d)
    [IEEE.single 3 2; IEEE.single 0 1] (IEEE.double 1 1) (IEEE.double 0 1)
    (IEEE.double 1 1) (IEEE.double 1 1) (IEEE.double 4 1) (IEEE.double 1 1)
  = Ok [[true; false]; [false; true]; [true; false]]
  ∧ Rounded.inlined_run_simulation (A := ieee) (Rounded.Numpy W2d)
      [IEEE.single 3 2; IEEE.single 0 1] (IEEE.double 1 1) (IEEE.double 0 1)
      (IEEE.double 1 1) (IEEE.double 1 1) (IEEE.double 4 1) (IEEE.double 1 1)
    = Ok [[true; false]; [false; true]; [true; false]].
Proof. split; vm_compute; reflexivity. Qed.


(** * The exact embedding is the rounded one at exact arithmetic *)

(** A matrix of rationals as a JAX array of the rounded embedding. *)
Lemma exact_run_step (W : Mat) (V : Vec)
    (v_thresh v_reset tau_m dt membr_R : Q) :
  Rounded.run_step (A := exact) V v_thresh v_reset
    (Rounded.mkMat (ncols W) (mrows W)) tau_m dt membr_R
  = Jitted.run_step V v_thresh v_reset W tau_m dt membr_R.
Proof.
  unfold Rounded.run_step, Jitted.run_step, Rounded.run_step_locals,
    Jitted.run_step_locals.
  change (Rounded.vge (A := exact) V v_thresh) with (vge V v_thresh).
  change (Rounded.jnp_where (A := exact)) with jnp_where.
  destruct (jnp_where (vge V v_thresh) v_reset V) as [V0|e];
    [|reflexivity]. cbn [mbind result_bind].
  change (Rounded.dot (A := exact) (Rounded.mkMat (ncols W) (mrows W))
            (vge V v_thresh)) with (dot W (vge V v_thresh)).
  destruct (dot W (vge V v_thresh)) as [I_syn|e]; [|reflexivity].
  cbn [mbind result_bind].
  change (Rounded.vadd (A := exact)) with vadd.
  change (Rounded.vadds (A := exact)) with vadds.
  change (Rounded.vneg (A := exact)) with vneg.
  change (Rounded.smulv (A := exact)) with smulv.
  destruct (vadd (vadds (vneg V0) v_reset) (smulv membr_R I_syn))
    as [drive|e]; [|reflexivity]. cbn [mbind result_bind].
  change (@div32 exact dt tau_m) with (dt / tau_m).
  destruct (vadd V0 (smulv (dt / tau_m) drive)) as [V1|e]; [|reflexivity].
  cbn [mbind result_bind].
  destruct (jnp_where (vge V v_thresh) v_reset V1) as [V2|e]; reflexivity.
Qed.

(** The driver that calls [run_step]: the same run, when the number of
    time points is one the array library can count. *)
Lemma exact_run_simulation (W : Mat) (V : Vec)
    (tau_m v_reset v_thresh membr_R t_max dt : Q) :
  (Rounded.min_intp ≤ Qceiling ((t_max - 0) / dt) ≤ Rounded.max_intp)%Z →
  Rounded.run_simulation (A := exact)
    (Rounded.Jax (Rounded.mkMat (ncols W) (mrows W))) V
    tau_m v_reset v_thresh membr_R t_max dt
  = Jitted.run_simulation W V tau_m v_reset v_thresh membr_R t_max dt.
Proof.
  intros [Hlo Hhi].
  unfold Rounded.run_simulation, Jitted.run_simulation, Rounded.arange,
    Rounded.arange_length, arange.
  change (@eqb64 exact dt (@zero64 exact)) with (Qeq_bool dt 0).
  destruct (Qeq_bool dt 0); [reflexivity|].
  change (@ceil64 exact (@div64 exact (@sub64 exact t_max (@zero64 exact)) dt))
    with (Some (Qceiling ((t_max - 0) / dt))).
  apply Z.leb_le in Hlo, Hhi. cbn match. rewrite Hlo, Hhi.
  cbn [andb mbind result_bind].
  change (@point32 exact (@zero64 exact) dt)
    with (λ i : nat, 0 + inject_Z (Z.of_nat i) * dt).
  f_equal. apply for_each_ext. intros [V1 st] [i t] _.
  unfold Rounded.loop_body, Jitted.loop_body.
  destruct (i =? 0)%nat; [reflexivity|].
  rewrite <- (exact_run_step W V1 v_thresh v_reset tau_m dt membr_R).
  reflexivity.
Qed.

(** The driver with the step written out in place, likewise. *)
Lemma exact_inlined_run_simulation (W : Mat) (V : Vec)
    (tau_m v_reset v_thresh membr_R t_max dt : Q) :
  (Rounded.min_intp ≤ Qceiling ((t_max - 0) / dt) ≤ Rounded.max_intp)%Z →
  Rounded.inlined_run_simulation (A := exact)
    (Rounded.Jax (Rounded.mkMat (ncols W) (mrows W))) V
    tau_m v_reset v_thresh membr_R t_max dt
  = Inlined.run_simulation W V tau_m v_reset v_thresh membr_R t_max dt.
Proof.
  intros [Hlo Hhi].
  unfold Rounded.inlined_run_simulation, Inlined.run_simulation,
    Rounded.arange, Rounded.arange_length, arange.
  change (@eqb64 exact dt (@zero64 exact)) with (Qeq_bool dt 0).
  destruct (Qeq_bool dt 0); [reflexivity|].
  change (@ceil64 exact (@div64 exact (@sub64 exact t_max (@zero64 exact)) dt))
    with (Some (Qceiling ((t_max - 0) / dt))).
  apply Z.leb_le in Hlo, Hhi. cbn match. rewrite Hlo, Hhi.
  cbn [andb mbind result_bind].
  change (@point32 exact (@zero64 exact) dt)
    with (λ i : nat, 0 + inject_Z (Z.of_nat i) * dt).
  f_equal. apply for_each_ext. intros [V1 st] [i t] _.
  unfold Rounded.inlined_loop_body, Inlined.loop_body.
  destruct (i =? 0)%nat; [reflexivity|].
  change (Rounded.vge (A := exact) V1 (@cast exact v_thresh))
    with (vge V1 v_thresh).
  change (Rounded.jnp_where (A := exact)) with jnp_where.
  change (@cast exact v_reset) with v_reset.
  destruct (jnp_where (vge V1 v_thresh) v_reset V1) as [Vr|e];
    [|reflexivity]. cbn [mbind result_bind].
  destruct (py_last (st ++ [vge V1 v_thresh])) as [newest|e];
    [|reflexivity]. cbn [mbind result_bind].
  unfold Rounded.weights_dot.
  change (Rounded.dot (A := exact) (Rounded.mkMat (ncols W) (mrows W))
            newest) with (dot W newest).
  destruct (dot W newest) as [I_syn|e]; [|reflexivity].
  cbn [mbind result_bind].
  change (Rounded.py_div (A := exact) dt tau_m) with (py_div dt tau_m).
  destruct (py_div dt tau_m) as [rate|e]; reflexivity.
Qed.

(** * The network as the notebook sets it up *)

Lemma dot_row_silent (row : list Q) (mask : BVec) :
  silent mask → dot_row row mask == 0.
Proof.
  unfold dot_row. intros Hm. revert row.
  induction Hm as [|b mask -> _ IH]; intros [|w row]; simpl;
    try reflexivity.
  rewrite IH. unfold b2q. ring.
Qed.

Lemma at_rest_silent (r v_thresh : Q) (V : Vec) :
  at_rest r V → r < v_thresh → silent (vge V v_thresh).
Proof.
  intros HV Hr. apply below_silent. unfold below.
  eapply Forall_impl; [exact HV|]. intros v Hv. simpl in Hv.
  by rewrite Hv.
Qed.

(** A step from rest, below threshold, stays at rest: nothing spikes, so
    no current flows, and the leak term vanishes. *)
Lemma rest_step (W : Mat) (V V' : Vec) (mask : BVec)
    (tau_m v_reset v_thresh membr_R dt : Q) :
  ncols W = length V → nrows W = length V →
  at_rest v_reset V → v_reset < v_thresh →
  Jitted.run_step V v_thresh v_reset W tau_m dt membr_R = Ok (V', mask) →
  silent mask ∧ at_rest v_reset V'.
Proof.
  intros Hc Hr HV Hreset Hstep.
  pose proof (at_rest_silent v_reset v_thresh V HV Hreset) as Hsilent.
  destruct (run_step_entry W V V' mask tau_m v_reset v_thresh membr_R dt
              Hc Hr Hstep) as [Hlen Hpt].
  split.
  - by apply (run_step_mask W tau_m v_reset v_thresh membr_R dt) in Hstep
      as ->.
  - unfold at_rest. apply Forall_lookup. intros i b Hb.
    destruct (lookup_lt_is_Some_2 V i) as [a Ha].
    { apply lookup_lt_Some in Hb. lia. }
    destruct (lookup_lt_is_Some_2 (mrows W) i) as [row Hrow].
    { apply lookup_lt_Some in Ha. unfold nrows in Hr. lia. }
    assert (Hav : a == v_reset).
    { unfold at_rest in HV. rewrite Forall_lookup in HV. eauto. }
    rewrite (Hpt i a row Ha Hrow) in Hb.
    destruct (Qle_bool v_thresh a) eqn:E.
    + apply Qle_bool_iff in E. rewrite Hav in E. lra.
    + injection Hb as <-.
      rewrite (dot_row_silent row _ Hsilent), Hav. ring.
Qed.

(** A property of the potentials that every step re-establishes holds
    throughout the run, and so does what such a step says of its mask. *)
Section invariant.
Context (W : Mat) (tau_m v_reset v_thresh membr_R t_max dt : Q).
Context (P : list Q → Prop) (R : list bool → Prop).
Context (Hstep : ∀ V, P V →
  ∃ V' mask,
    Jitted.run_step V v_thresh v_reset W tau_m dt membr_R = Ok (V', mask)
    ∧ P V' ∧ R mask).

Lemma jloop_invariant (items : list (nat * Q)) :
  Forall later items →
  ∀ (V : Vec) (st : list BVec), P V →
  ∃ V' masks,
    for_each (Jitted.loop_body W tau_m v_reset v_thresh membr_R dt)
      (V, st) items = Ok (V', st ++ masks)
    ∧ P V' ∧ length masks = length items ∧ Forall R masks.
Proof.
  induction items as [|it items IH]; intros Hl V st HV.
  - exists V, []. by rewrite app_nil_r.
  - apply Forall_cons in Hl as [Hit Hitems].
    rewrite for_each_cons, jbody_later by exact Hit.
    destruct (Hstep V HV) as (V1 & mask & -> & HV1 & Hmask).
    cbn [mbind result_bind].
    destruct (IH Hitems V1 (st ++ [mask]) HV1)
      as (V' & masks & -> & HV' & Hlen & Hall).
    exists V', (mask :: masks). rewrite <- app_assoc. simpl.
    repeat split; auto.
Qed.

Lemma run_simulation_invariant (V0 : Vec) :
  ¬ dt == 0 → P V0 →
  ∃ train,
    Jitted.run_simulation W V0 tau_m v_reset v_thresh membr_R t_max dt
    = Ok train
    ∧ length train = (num_points t_max dt - 1)%nat ∧ Forall R train.
Proof.
  intros Hdt HV. unfold Jitted.run_simulation.
  destruct (arange_points t_max dt Hdt) as (ts & -> & Hlen).
  cbn [mbind result_bind]. rewrite <- Hlen. destruct ts as [|t ts].
  { exists []. by repeat split. }
  destruct (enumerate_cons t ts) as (items & -> & Hitems & Hlater).
  rewrite jloop_first.
  destruct (jloop_invariant items Hlater V0 [] HV)
    as (V' & masks & -> & _ & Hmasks & Hall).
  exists masks. simpl. repeat split; [lia | exact Hall].
Qed.
End invariant.

(** X1.  Set up as in the notebook, with every potential initialised to
    [V_reset] on a square weight matrix and [V_reset] below the threshold,
    the network never spikes, however many time points the loop is given:
    it records one mask per time point after the first, and every entry
    of every mask is false, whatever the weights are.  The loop written
    out in place records the same masks when [tau_m] is not zero. *)
Theorem notebook_setup_is_silent (W : Mat)
    (tau_m V_reset V_thresh membr_R dt : Q) (ts : list Q) :
  ncols W = nrows W → V_reset < V_thresh →
  ∃ V train,
    for_each (Jitted.loop_body W tau_m V_reset V_thresh membr_R dt)
      (initial_potentials W V_reset, []) (enumerate ts) = Ok (V, train)
    ∧ length train = (length ts - 1)%nat
    ∧ Forall silent train
    ∧ Forall (λ mask : BVec, length mask = n_neurons W) train
    ∧ length V = n_neurons W
    ∧ (¬ tau_m == 0 →
       ∃ V',
         for_each (Inlined.loop_body W tau_m V_reset V_thresh membr_R dt)
           (initial_potentials W V_reset, []) (enumerate ts)
         = Ok (V', train)).
Proof.
  intros Hsq Hreset.
  set (P := λ V : list Q, length V = nrows W ∧ at_rest V_reset V).
  set (R := λ mask : list bool, silent mask ∧ length mask = nrows W).
  assert (HP0 : P (initial_potentials W V_reset)).
  { split.
    - unfold initial_potentials, vmuls, ones, n_neurons.
      by rewrite length_fmap, length_replicate.
    - unfold at_rest, initial_potentials, vmuls, ones.
      apply Forall_fmap, Forall_replicate. simpl. ring. }
  assert (Hstep : ∀ V, P V →
    ∃ V' mask,
      Jitted.run_step V V_thresh V_reset W tau_m dt membr_R = Ok (V', mask)
      ∧ P V' ∧ R mask).
  { intros V [HV Hrest].
    destruct (run_step_shapes W tau_m V_reset V_thresh membr_R dt V)
      as (V' & Hs & HV' & _); [lia | lia |].
    exists V', (vge V V_thresh). split; [exact Hs|].
    destruct (rest_step W V V' (vge V V_thresh) tau_m V_reset V_thresh
                membr_R dt) as [Hsil Hrest']; [lia | lia | done..|].
    repeat split; auto; [lia | by rewrite length_vge]. }
  assert (Hloop : ∃ V train,
    for_each (Jitted.loop_body W tau_m V_reset V_thresh membr_R dt)
      (initial_potentials W V_reset, []) (enumerate ts) = Ok (V, train)
    ∧ P V ∧ length train = (length ts - 1)%nat ∧ Forall R train).
  { destruct ts as [|t ts].
    - exists (initial_potentials W V_reset), [].
      split; [reflexivity|]. split; [exact HP0|]. by split.
    - destruct (enumerate_cons t ts) as (items & -> & Hitems & Hlater).
      rewrite jloop_first.
      destruct (jloop_invariant W tau_m V_reset V_thresh membr_R dt P R
                  Hstep items Hlater (initial_potentials W V_reset) [] HP0)
        as (V & train & Hrun & HV & Hlen & Hall).
      exists V, train. simpl in Hrun. rewrite Hrun.
      repeat split; auto; try apply HV. simpl. lia. }
  destruct Hloop as (V & train & Hrun & [HV Hrest] & Hlen & Hall).
  exists V, train. split; [exact Hrun|]. split; [exact Hlen|].
  split; [eapply Forall_impl; [exact Hall|]; by intros m [? _]|].
  split; [eapply Forall_impl; [exact Hall|]; by intros m [_ ?]|].
  split; [exact HV|].
  intros Htau. exists V. rewrite <- Hrun. apply for_each_ext.
  intros s it _. by apply ibody_jbody.
Qed.

Lemma notebook_setup_is_silent_witness :
  ∃ V train,
    for_each (Jitted.loop_body W2 1 0 1 1 1)
      (initial_potentials W2 0, []) (enumerate [0; 1; 2; 3]) = Ok (V, train)
    ∧ length train = (length [0; 1; 2; 3] - 1)%nat
    ∧ Forall silent train
    ∧ Forall (λ mask : BVec, length mask = n_neurons W2) train
    ∧ length V = n_neurons W2
    ∧ (¬ 1 == 0 →
       ∃ V',
         for_each (Inlined.loop_body W2 1 0 1 1 1)
           (initial_potentials W2 0, []) (enumerate [0; 1; 2; 3])
         = Ok (V', train)).
Proof.
  apply (notebook_setup_is_silent W2 1 0 1 1 1 [0; 1; 2; 3]).
  - reflexivity.
  - reflexivity.
Defined.

(** * After a spike *)



(** * The spike train only grows *)

(** X3.  Whatever the shapes, in a run that returns every earlier time
    point was reached without an exception, and the masks recorded up to
    it are the first masks of the train the run returns: a recorded mask
    is never changed or dropped by a later step. *)
Theorem spike_train_append_only (W : Mat) (V0 : Vec)
    (tau_m v_reset v_thresh membr_R t_max dt : Q) (train : list BVec) :
  Jitted.run_simulation W V0 tau_m v_reset v_thresh membr_R t_max dt
  = Ok train →
  ∀ n, ∃ Vn,
    Jitted.run_loop n W V0 tau_m v_reset v_thresh membr_R t_max dt
    = Ok (Vn, take (n - 1) train).
Proof.
  unfold Jitted.run_simulation, Jitted.run_loop. intros Hrun n.
  destruct (arange 0 t_max dt) as [ts|e]; [|discriminate].
  cbn [mbind result_bind] in *.
  apply bind_Ok in Hrun as ([V' st'] & Hloop & Hst). injection Hst as ->.
  destruct ts as [|t ts].
  { injection Hloop as _ <-. exists V0. unfold enumerate. simpl.
    by rewrite !take_nil. }
  destruct (enumerate_cons t ts) as (items & Hen & _ & Hlater).
  rewrite Hen in *. rewrite jloop_first in Hloop.
  destruct n as [|n]; [by exists V0|].
  rewrite firstn_cons, jloop_first. replace (S n - 1)%nat with n by lia.
  rewrite <- (take_drop n items), for_each_app in Hloop.
  apply bind_Ok in Hloop as ([Vn stn] & Hn & Hrest).
  exists Vn. rewrite Hn. do 2 f_equal.
  destruct (jloop_returns W tau_m v_reset v_thresh membr_R dt (take n items)
              ltac:(by apply Forall_take) _ _ _ _ Hn)
    as (masks & -> & Hmasks & _).
  destruct (jloop_returns W tau_m v_reset v_thresh membr_R dt (drop n items)
              ltac:(by apply Forall_drop) _ _ _ _ Hrest)
    as (rest & -> & Hrest' & _).
  simpl. rewrite length_take in Hmasks. rewrite length_drop in Hrest'.
  destruct (Nat.le_gt_cases (length items) n) as [Hge|Hlt].
  - destruct rest; [|simpl in Hrest'; lia].
    rewrite app_nil_r. rewrite take_ge; [reflexivity | lia].
  - rewrite take_app_length'; [reflexivity | lia].
Qed.

Lemma spike_train_append_only_witness :
  ∃ Vn, Jitted.run_loop 3 W2 [3 # 2; 0] 1 0 1 1 4 1
        = Ok (Vn, take (3 - 1) [[true; false]; [false; true]; [true; false]]).
Proof.
  apply (spike_train_append_only W2 [3 # 2; 0] 1 0 1 1 4 1
           [[true; false]; [false; true]; [true; false]] eq_refl 3%nat).
Defined.

(** * A zero time constant *)

Lemma inlined_first (W : Mat) (tau_m v_reset v_thresh membr_R dt : Q)
    (s : list Q * list (list bool)) (t : Q) (items : list (nat * Q)) :
  for_each (Inlined.loop_body W tau_m v_reset v_thresh membr_R dt) s
    ((0%nat, t) :: items)
  = for_each (Inlined.loop_body W tau_m v_reset v_thresh membr_R dt) s items.
Proof. rewrite for_each_cons. by destruct s. Qed.

(** With [tau_m] zero the first step of the loop written out in place gets
    as far as the division and raises there. *)
Lemma inlined_step_divides_by_zero (W : Mat) (V : Vec) (st : list BVec)
    (tau_m v_reset v_thresh membr_R dt : Q) (it : nat * Q) :
  tau_m == 0 → ncols W = length V → later it →
  Inlined.loop_body W tau_m v_reset v_thresh membr_R dt (V, st) it
  = Raise ZeroDivision.
Proof.
  intros Htau Hc Hit. destruct it as [i t].
  unfold later in Hit; simpl in Hit. unfold Inlined.loop_body.
  destruct (Nat.eqb_spec i 0) as [|_]; [contradiction|].
  rewrite jnp_where_same by apply length_vge. cbn [mbind result_bind].
  rewrite py_last_snoc. cbn [mbind result_bind].
  rewrite dot_contracts by by rewrite length_vge. cbn [mbind result_bind].
  unfold py_div. apply Qeq_bool_iff in Htau. by rewrite Htau.
Qed.

(** X4.  The driver written out in place divides Python floats: with
    [tau_m = 0] and as many columns in [W] as potentials it raises a
    division by zero as soon as one step runs ([t_max / dt > 1]), and
    returns the empty train when none does. *)
Theorem inlined_zero_time_constant (W : Mat) (V0 : Vec)
    (tau_m v_reset v_thresh membr_R t_max dt : Q) :
  tau_m == 0 → ncols W = length V0 → ¬ dt == 0 →
  (1 < t_max / dt →
   Inlined.run_simulation W V0 tau_m v_reset v_thresh membr_R t_max dt
   = Raise ZeroDivision)
  ∧ (t_max / dt <= 1 →
     Inlined.run_simulation W V0 tau_m v_reset v_thresh membr_R t_max dt
     = Ok []).
Proof.
  intros Htau Hc Hdt. unfold Inlined.run_simulation.
  destruct (arange_points t_max dt Hdt) as (ts & -> & Hlen).
  cbn [mbind result_bind]. unfold num_points in Hlen. split; intros Ht.
  - assert (Hk : (1 < Qceiling (t_max / dt))%Z).
    { rewrite Zlt_Qlt. eapply Qlt_le_trans; [exact Ht | apply Qle_ceiling]. }
    destruct ts as [|t ts]; [simpl in Hlen; lia|].
    destruct (enumerate_cons t ts) as (items & -> & Hitems & Hlater).
    rewrite inlined_first.
    destruct items as [|it items]; [simpl in *; lia|].
    apply Forall_cons in Hlater as [Hit _]. rewrite for_each_cons.
    by rewrite inlined_step_divides_by_zero.
  - apply Qceiling_resp_le in Ht. change 1 with (inject_Z 1) in Ht.
    rewrite Qceiling_Z in Ht.
    destruct ts as [|t [|t' ts]]; [reflexivity | reflexivity |].
    simpl in Hlen. lia.
Qed.

Lemma inlined_zero_time_constant_witness :
  (1 < 4 / 1 →
   Inlined.run_simulation W2 [3 # 2; 0] 0 0 1 1 4 1 = Raise ZeroDivision)
  ∧ (4 / 1 <= 1 → Inlined.run_simulation W2 [3 # 2; 0] 0 0 1 1 4 1 = Ok []).
Proof.
  apply (inlined_zero_time_constant W2 [3 # 2; 0] 0 0 1 1 4 1).
  - reflexivity.
  - reflexivity.
  - discriminate.
Defined.

(** * A weight matrix with a single row *)

Lemma broadcast_stretch_r {A B C} (f : A → B → C) (x : list A) (b : B) :
  broadcast f x [b] = Ok ((λ a, f a b) <$> x).
Proof. unfold broadcast. by destruct x as [|a [|a' x]]. Qed.

(** A step on a 1-by-[N] matrix and [N] potentials: the one current is
    added to every neuron. *)
Lemma rounded_step_row_matrix {A : Arith} (W : Rounded.Mat F32)
    (row V : list F32) (tau_m v_reset v_thresh membr_R dt : F32) :
  Rounded.mrows W = [row] → Rounded.ncols W = length V →
  ∃ V',
    Rounded.run_step V v_thresh v_reset W tau_m dt membr_R
    = Ok (V', (λ v, geb32 v v_thresh) <$> V)
    ∧ length V' = length V
    ∧ ∀ i a, V !! i = Some a →
        V' !! i
        = Some (if geb32 a v_thresh then v_reset
                else add32 a
                       (mul32 (div32 dt tau_m)
                          (add32 (add32 (neg32 a) v_reset)
                             (mul32 membr_R
                                (sum32
                                   (zip_with
                                      (λ w (b : bool),
                                         mul32 w
                                           (if b then one32 else zero32))
                                      row
                                      ((λ v, geb32 v v_thresh) <$> V))))))).
Proof.
  intros Hrow Hc.
  unfold Rounded.run_step, Rounded.run_step_locals, Rounded.jnp_where,
    Rounded.vadd, Rounded.dot, Rounded.vge.
  rewrite broadcast_same by by rewrite length_fmap.
  cbn [mbind result_bind].
  rewrite Hc, length_fmap, Nat.eqb_refl. cbn [mbind result_bind].
  rewrite Hrow. cbn [fmap list_fmap Rounded.smulv].
  rewrite broadcast_stretch_r. cbn [mbind result_bind].
  rewrite broadcast_same
    by (unfold Rounded.smulv, Rounded.vadds, Rounded.vneg;
        repeat (rewrite length_zip_with || rewrite length_fmap); lia).
  cbn [mbind result_bind].
  rewrite broadcast_same
    by (unfold Rounded.smulv, Rounded.vadds, Rounded.vneg;
        repeat (rewrite length_zip_with || rewrite length_fmap); lia).
  cbn [mbind result_bind Rounded.l_V Rounded.l_spiked].
  eexists. split; [reflexivity|]. split.
  - unfold Rounded.smulv, Rounded.vadds, Rounded.vneg.
    repeat (rewrite length_zip_with || rewrite length_fmap). lia.
  - intros i a Ha.
    unfold Rounded.smulv, Rounded.vadds, Rounded.vneg, Rounded.dot_row,
      Rounded.b2f32.
    repeat rewrite ?lookup_zip_with, ?list_lookup_fmap, ?Ha;
      cbn [mbind option_bind fmap option_fmap option_map].
    by destruct (geb32 a v_thresh).
Qed.

(** A property of the potentials that every step re-establishes holds
    throughout the loop, and so does what such a step says of its mask. *)
Lemma rounded_loop_invariant {A : Arith} (W : Rounded.weights F64 F32)
    (tau_m v_reset v_thresh membr_R dt : F64)
    (P : list F32 → Prop) (R : list bool → Prop) :
  (∀ V, P V →
     ∃ V' mask,
       Rounded.run_step V (cast v_thresh) (cast v_reset) (Rounded.traced W)
         (cast tau_m) (cast dt) (cast membr_R) = Ok (V', mask)
       ∧ P V' ∧ R mask) →
  ∀ items : list (nat * F32), Forall Rounded.later items →
  ∀ (V : list F32) (st : list (list bool)), P V →
  ∃ V' masks,
    for_each (Rounded.loop_body W tau_m v_reset v_thresh membr_R dt)
      (V, st) items = Ok (V', st ++ masks)
    ∧ P V' ∧ length masks = length items ∧ Forall R masks.
Proof.
  intros Hstep. induction items as [|it items IH]; intros Hl V st HV.
  - exists V, []. by rewrite app_nil_r.
  - apply Forall_cons in Hl as [Hit Hitems].
    rewrite for_each_cons, rounded_body_later by exact Hit.
    destruct (Hstep V HV) as (V1 & mask & -> & HV1 & Hmask).
    cbn [mbind result_bind].
    destruct (IH Hitems V1 (st ++ [mask]) HV1)
      as (V' & masks & -> & HV' & Hlen & Hall).
    exists V', (mask :: masks). rewrite <- app_assoc. simpl.
    repeat split; auto.
Qed.

(** X5.  A weight matrix with one row and as many columns as there are
    potentials is accepted: its single synaptic current, the sum over [j]
    of [row[j] * spiked[j]] with the mask read as 0/1, is broadcast to
    every neuron; a neuron below the threshold ends the step at
    [v + (dt / tau_m) * (- v + v_reset + membr_R * I_syn)] and one at or
    above it at [v_reset], in the arithmetic of the step; no step raises,
    and the loop records one mask with one entry per potential for every
    time point after the first, however many there are. *)
Theorem row_matrix_is_broadcast {A : Arith} (W : Rounded.weights F64 F32)
    (row V0 : list F32) (tau_m v_reset v_thresh membr_R dt : F64)
    (ts : list F32) :
  Rounded.mrows (Rounded.traced W) = [row] →
  Rounded.ncols (Rounded.traced W) = length V0 →
  (∀ V, length V = length V0 →
     ∃ V',
       Rounded.run_step V (cast v_thresh) (cast v_reset) (Rounded.traced W)
         (cast tau_m) (cast dt) (cast membr_R)
       = Ok (V', (λ v, geb32 v (cast v_thresh)) <$> V)
       ∧ length V' = length V0
       ∧ ∀ i a, V !! i = Some a →
           V' !! i
           = Some (if geb32 a (cast v_thresh) then cast v_reset
                   else add32 a
                          (mul32 (div32 (cast dt) (cast tau_m))
                             (add32 (add32 (neg32 a) (cast v_reset))
                                (mul32 (cast membr_R)
                                   (sum32
                                      (zip_with
                                         (λ w (b : bool),
                                            mul32 w
                                              (if b then one32
                                               else zero32))
                                         row
                                         ((λ v, geb32 v (cast v_thresh))
                                            <$> V))))))))
  ∧ ∃ V' train,
      for_each (Rounded.loop_body W tau_m v_reset v_thresh membr_R dt)
        (V0, []) (enumerate ts) = Ok (V', train)
      ∧ length train = (length ts - 1)%nat
      ∧ Forall (λ mask : list bool, length mask = length V0) train.
Proof.
  intros Hrow Hc.
  assert (Hstep : ∀ V, length V = length V0 →
     ∃ V',
       Rounded.run_step V (cast v_thresh) (cast v_reset) (Rounded.traced W)
         (cast tau_m) (cast dt) (cast membr_R)
       = Ok (V', (λ v, geb32 v (cast v_thresh)) <$> V)
       ∧ length V' = length V0
       ∧ ∀ i a, V !! i = Some a →
           V' !! i
           = Some (if geb32 a (cast v_thresh) then cast v_reset
                   else add32 a
                          (mul32 (div32 (cast dt) (cast tau_m))
                             (add32 (add32 (neg32 a) (cast v_reset))
                                (mul32 (cast membr_R)
                                   (sum32
                                      (zip_with
                                         (λ w (b : bool),
                                            mul32 w
                                              (if b then one32
                                               else zero32))
                                         row
                                         ((λ v, geb32 v (cast v_thresh))
                                            <$> V)))))))).
  { intros V HV.
    destruct (rounded_step_row_matrix (Rounded.traced W) row V (cast tau_m)
                (cast v_reset) (cast v_thresh) (cast membr_R) (cast dt)
                Hrow) as (V' & Hs & HV' & Hpt); [lia|].
    exists V'. repeat split; auto. lia. }
  split; [exact Hstep|].
  destruct ts as [|t ts].
  { exists V0, []. by repeat split. }
  destruct (enumerate_later t ts) as (items & -> & Hitems & Hlater).
  rewrite (rounded_loop_first W tau_m v_reset v_thresh membr_R dt).
  destruct (rounded_loop_invariant W tau_m v_reset v_thresh membr_R dt
              (λ V, length V = length V0)
              (λ mask, length mask = length V0)) with (items := items)
      (V := V0) (st := @nil (list bool))
    as (V' & train & Hrun & _ & Hlen & Hall); [|exact Hlater|reflexivity|].
  - intros V HV. destruct (Hstep V HV) as (V' & Hs & HV' & _).
    exists V', ((λ v, geb32 v (cast v_thresh)) <$> V).
    repeat split; auto. by rewrite length_fmap.
  - exists V', train. simpl in Hrun. rewrite Hrun.
    repeat split; auto. simpl. lia.
Qed.

Lemma row_matrix_is_broadcast_witness :
  ∃ V' train,
    for_each
      (Rounded.loop_body (A := ieee)
         (Rounded.Jax (Rounded.mkMat 2 [[IEEE.single 1 1; IEEE.single 2 1]]))
         (IEEE.double 1 1) (IEEE.double 0 1) (IEEE.double 1 1)
         (IEEE.double 1 1) (IEEE.double 1 1))
      ([IEEE.single 3 2; IEEE.single 0 1], [])
      (enumerate [IEEE.single 0 1; IEEE.single 1 1; IEEE.single 2 1])
    = Ok (V', train)
    ∧ length train = 2%nat
    ∧ Forall (λ mask : list bool, length mask = 2%nat) train.
Proof.
  apply (row_matrix_is_broadcast (A := ieee)
           (Rounded.Jax
              (Rounded.mkMat 2 [[IEEE.single 1 1; IEEE.single 2 1]]))
           [IEEE.single 1 1; IEEE.single 2 1]
           [IEEE.single 3 2; IEEE.single 0 1]
           (IEEE.double 1 1) (IEEE.double 0 1) (IEEE.double 1 1)
           (IEEE.double 1 1) (IEEE.double 1 1)
           [IEEE.single 0 1; IEEE.single 1 1; IEEE.single 2 1]).
  - reflexivity.
  - reflexivity.
Defined.

(** The run of the witness, computed: the current of the one row reaches
    both neurons. *)
Example row_matrix_run :
  Rounded.run_step (A := ieee) [IEEE.single 3 2; IEEE.single 0 1]
    (IEEE.single 1 1) (IEEE.single 0 1)
    (Rounded.mkMat 2 [[IEEE.single 1 1; IEEE.single 2 1]])
    (IEEE.single 1 1) (IEEE.single 1 1) (IEEE.single 1 1)
  = Ok ([IEEE.single 0 1; IEEE.single 1 1], [true; false]).
Proof. vm_compute. reflexivity. Qed.

(** * No time point after the first *)

(** X6.  When [arange(0, t_max, dt)] has at most one point
    ([t_max / dt <= 1]: a duration of at most one step, a duration that is
    not positive, or a step of the other sign) both drivers return the
    empty spike train: no step runs, so whatever the shapes and whatever
    [tau_m] is, nothing raises. *)
Theorem no_later_time_point (W : Mat) (V0 : Vec)
    (tau_m v_reset v_thresh membr_R t_max dt : Q) :
  ¬ dt == 0 → t_max / dt <= 1 →
  Jitted.run_simulation W V0 tau_m v_reset v_thresh membr_R t_max dt = Ok []
  ∧ Inlined.run_simulation W V0 tau_m v_reset v_thresh membr_R t_max dt
    = Ok [].
Proof.
  intros Hdt Ht.
  assert (Hk : (num_points t_max dt ≤ 1)%nat).
  { unfold num_points. apply Qceiling_resp_le in Ht.
    change 1 with (inject_Z 1) in Ht. rewrite Qceiling_Z in Ht. lia. }
  split; [by apply no_step_run|].
  unfold Inlined.run_simulation.
  destruct (arange_points t_max dt Hdt) as (ts & -> & Hlen).
  cbn [mbind result_bind].
  destruct ts as [|t [|t' ts]]; [reflexivity | reflexivity |].
  simpl in Hlen. lia.
Qed.

Lemma no_later_time_point_witness :
  Jitted.run_simulation (mkMat 3 [[1; 2; 3]]) [0; 0] 0 0 1 1 (- (2)) 1 = Ok []
  ∧ Inlined.run_simulation (mkMat 3 [[1; 2; 3]]) [0; 0] 0 0 1 1 (- (2)) 1
    = Ok [].
Proof.
  apply (no_later_time_point (mkMat 3 [[1; 2; 3]]) [0; 0] 0 0 1 1 (- (2)) 1).
  - discriminate.
  - discriminate.
Defined.

(** ** Tracing: [run_for_n] and [f] *)

Lemma run_for_n_loop (x a : Z) (indices : list Z) :
  foldl (λ accum _, Sharp.add accum (Sharp.Int x)) (Sharp.Int a) indices
  = Sharp.Int (a + Z.of_nat (length indices) * x).
Proof.
  revert a. induction indices as [|i indices IH]; intros a; simpl.
  - f_equal. lia.
  - rewrite IH. f_equal. lia.
Qed.

(** X7.  On Python integers [run_for_n x n] returns [n * x] when [n] is
    positive, and [0] when it is not: the loop body then never runs. *)
Theorem run_for_n_multiplies (x n : Z) :
  Sharp.run_for_n (Sharp.Int x) (Sharp.Int n)
  = Ok (Sharp.Int (Z.max 0 n * x)).
Proof.
  unfold Sharp.run_for_n. simpl. rewrite run_for_n_loop.
  rewrite length_fmap, length_seq. do 2 f_equal. lia.
Qed.


(** ** The shopping carts *)

Lemma cart_bind_ok {A B} (m : Cart.M A) (k : A → Cart.M B) (h h' : Cart.heap)
    (a : A) :
  m h = (Ok a, h') → (m ≫= k) h = k a h'.
Proof. intros Hm. unfold mbind, Cart.cart_bind. by rewrite Hm. Qed.

Lemma cart_new (c : Cart.class) (h : Cart.heap) :
  Cart.new c h
  = (Ok (length h),
     h ++ [Cart.OCart c (Some (S (length h))); Cart.OItems []]).
Proof.
  unfold Cart.new, Cart.alloc, Cart.set_items, Cart.read_cart, Cart.store,
    mbind, Cart.cart_bind, mret, Cart.cart_ret.
  rewrite <- (assoc_L (++)). simpl.
  rewrite (list_lookup_middle h _ _ (length h) eq_refl).
  rewrite (insert_app_r_alt h _ (length h)), Nat.sub_diag by lia. simpl.
  rewrite length_app, Nat.add_1_r. reflexivity.
Qed.

Lemma cart_add_item_in_place (h : Cart.heap) (cart l : Cart.loc)
    (xs : list string) (item : string) :
  h !! cart = Some (Cart.OCart Cart.ShoppingCart (Some l)) →
  h !! l = Some (Cart.OItems xs) →
  Cart.add_item cart item h
  = (Ok Cart.VNone, <[l := Cart.OItems (xs ++ [item])]> h).
Proof.
  intros Hcart Hl.
  unfold Cart.add_item, Cart.get_items, Cart.append, Cart.read_cart,
    Cart.read_items, Cart.store, mbind, Cart.cart_bind, mret, Cart.cart_ret.
  repeat (first [rewrite Hcart | rewrite Hl]; simpl). reflexivity.
Qed.

Lemma cart_add_item_functional (h : Cart.heap) (cart l : Cart.loc)
    (xs : list string) (item : string) :
  h !! cart = Some (Cart.OCart Cart.FunctionalShoppingCart (Some l)) →
  h !! l = Some (Cart.OItems xs) →
  Cart.add_item cart item h
  = (Ok (Cart.VRef (length h)),
     h ++ [Cart.OCart Cart.FunctionalShoppingCart (Some (2 + length h)%nat);
           Cart.OItems []; Cart.OItems (xs ++ [item])]).
Proof.
  intros Hcart Hl.
  assert (Hlt : (cart < length h)%nat) by by eapply lookup_lt_Some.
  assert (Hlt' : (l < length h)%nat) by by eapply lookup_lt_Some.
  unfold Cart.add_item.
  rewrite (cart_bind_ok _ _ h h (Cart.FunctionalShoppingCart, Some l));
    [|by unfold Cart.read_cart; rewrite Hcart].
  rewrite (cart_bind_ok _ _ _ _ _ (cart_new _ h)).
  set (h1 := h ++ _).
  assert (H1cart : h1 !! cart
                   = Some (Cart.OCart Cart.FunctionalShoppingCart (Some l))).
  { unfold h1. by rewrite lookup_app_l. }
  assert (H1l : h1 !! l = Some (Cart.OItems xs)).
  { unfold h1. by rewrite lookup_app_l. }
  unfold Cart.get_items, Cart.deepcopy, Cart.append, Cart.set_items,
    Cart.read_cart, Cart.read_items, Cart.store, Cart.alloc, mbind,
    Cart.cart_bind, mret, Cart.cart_ret.
  repeat (first [rewrite H1cart | rewrite H1l]; simpl).
  rewrite (list_lookup_middle h1 [] _ (length h1) eq_refl).
  rewrite (insert_app_r_alt h1 _ (length h1)), Nat.sub_diag by lia. simpl.
  unfold h1 at 1.
  rewrite <- (assoc_L (++)). simpl.
  rewrite (list_lookup_middle h _ _ (length h) eq_refl).
  unfold h1. rewrite <- (assoc_L (++)). simpl.
  rewrite (insert_app_r_alt h _ (length h)), Nat.sub_diag by lia. simpl.
  rewrite length_app. simpl.
  do 6 f_equal. lia.
Qed.

(** What a store holds at a reference after a list has grown. *)
Lemma cart_lookup_grown (h : Cart.heap) (l j : Cart.loc) (xs : list string)
    (item : string) (c : Cart.class) (items : option Cart.loc) :
  h !! l = Some (Cart.OItems xs) →
  <[l := Cart.OItems (xs ++ [item])]> h !! j = Some (Cart.OCart c items)
  ↔ h !! j = Some (Cart.OCart c items).
Proof.
  intros Hl. destruct (decide (l = j)) as [<-|Hne].
  - rewrite list_lookup_insert_eq by by eapply lookup_lt_Some.
    rewrite Hl. split; intros; discriminate.
  - by rewrite list_lookup_insert_ne.
Qed.

(** X10.  [ShoppingCart.add_item] returns [None] and allocates nothing: the
    item is appended to the list the cart already holds.  Where no two
    carts hold the same list, every other cart holds what it held before,
    and no two carts hold the same list afterwards. *)
Theorem shopping_cart_add_item (h : Cart.heap) (cart l : Cart.loc)
    (item : string) :
  Cart.separate h →
  h !! cart = Some (Cart.OCart Cart.ShoppingCart (Some l)) →
  let r := Cart.add_item cart item h in
  ∃ xs, Cart.contents h cart = Some xs
        ∧ r.1 = Ok Cart.VNone
        ∧ length r.2 = length h
        ∧ r.2 !! cart = h !! cart
        ∧ Cart.contents r.2 cart = Some (xs ++ [item])
        ∧ (∀ other, other ≠ cart →
             Cart.contents r.2 other = Cart.contents h other)
        ∧ Cart.separate r.2.
Proof.
  intros (Hlist & Hshare & Hinit) Hcart r.
  destruct (Hlist _ _ _ Hcart) as [xs Hl].
  assert (Hlt : (l < length h)%nat) by by eapply lookup_lt_Some.
  assert (Hne : l ≠ cart) by (intros ->; congruence).
  exists xs. unfold r.
  rewrite (cart_add_item_in_place h cart l xs item Hcart Hl). simpl.
  split; [by unfold Cart.contents; rewrite Hcart, Hl|].
  split; [done|]. split; [by rewrite length_insert|].
  split; [by rewrite list_lookup_insert_ne|].
  split; [|split].
  - unfold Cart.contents.
    rewrite list_lookup_insert_ne, Hcart by done.
    by rewrite list_lookup_insert_eq.
  - intros other Hother. unfold Cart.contents.
    destruct (decide (l = other)) as [<-|Hlo].
    + by rewrite list_lookup_insert_eq, Hl.
    + rewrite list_lookup_insert_ne by done.
      destruct (h !! other) as [[ys|c [l'|]]|] eqn:Ho; try done.
      rewrite list_lookup_insert_ne; [done|].
      intros <-. apply Hother. by eapply Hshare.
  - split; [|split].
    + intros cart0 c l0 H0. apply (cart_lookup_grown h l) in H0; [|done].
      destruct (Hlist _ _ _ H0) as [ys Hys].
      destruct (decide (l = l0)) as [<-|Hl0].
      * eexists. by apply list_lookup_insert_eq.
      * exists ys. by rewrite list_lookup_insert_ne.
    + intros cart1 cart2 c1 c2 l0 H1 H2.
      apply (cart_lookup_grown h l) in H1, H2; try done.
      by eapply Hshare.
    + intros cart0 c H0. apply (cart_lookup_grown h l) in H0; [|done].
      by eapply Hinit.
Qed.

Lemma shopping_cart_add_item_witness :
  ∃ xs,
    Cart.contents
      [Cart.OCart Cart.ShoppingCart (Some 1%nat); Cart.OItems ["banana"%string]]
      0 = Some xs
    ∧ (Cart.add_item 0 "apple"%string
         [Cart.OCart Cart.ShoppingCart (Some 1%nat);
          Cart.OItems ["banana"%string]]).1 = Ok Cart.VNone
    ∧ length (Cart.add_item 0 "apple"%string
                [Cart.OCart Cart.ShoppingCart (Some 1%nat);
                 Cart.OItems ["banana"%string]]).2
      = length [Cart.OCart Cart.ShoppingCart (Some 1%nat);
                Cart.OItems ["banana"%string]]
    ∧ (Cart.add_item 0 "apple"%string
         [Cart.OCart Cart.ShoppingCart (Some 1%nat);
          Cart.OItems ["banana"%string]]).2 !! 0%nat
      = [Cart.OCart Cart.ShoppingCart (Some 1%nat);
         Cart.OItems ["banana"%string]] !! 0%nat
    ∧ Cart.contents
        (Cart.add_item 0 "apple"%string
           [Cart.OCart Cart.ShoppingCart (Some 1%nat);
            Cart.OItems ["banana"%string]]).2 0 = Some (xs ++ ["apple"%string])
    ∧ (∀ other, other ≠ 0%nat →
         Cart.contents
           (Cart.add_item 0 "apple"%string
              [Cart.OCart Cart.ShoppingCart (Some 1%nat);
               Cart.OItems ["banana"%string]]).2 other
         = Cart.contents
             [Cart.OCart Cart.ShoppingCart (Some 1%nat);
              Cart.OItems ["banana"%string]] other)
    ∧ Cart.separate
        (Cart.add_item 0 "apple"%string
           [Cart.OCart Cart.ShoppingCart (Some 1%nat);
            Cart.OItems ["banana"%string]]).2.
Proof.
  apply (shopping_cart_add_item
           [Cart.OCart Cart.ShoppingCart (Some 1%nat);
            Cart.OItems ["banana"%string]] 0 1 "apple"%string); [|reflexivity].
  repeat split.
  - intros [|[|cart]] c l H; simpl in H; try discriminate.
    injection H as <- <-. by eexists.
  - intros [|[|cart1]] [|[|cart2]] c1 c2 l H1 H2; simpl in H1, H2;
      try discriminate; reflexivity.
  - intros [|[|cart]] c H; simpl in H; discriminate.
Defined.

(** X11.  [FunctionalShoppingCart.add_item] returns a cart that did not
    exist before, holding a list that did not exist before: the items of
    [self] followed by the new one.  Every object that existed is as it
    was, so [self] holds what it held; and where no two carts held the same
    list, none do afterwards. *)
Theorem functional_cart_add_item (h : Cart.heap) (cart l : Cart.loc)
    (xs : list string) (item : string) :
  h !! cart = Some (Cart.OCart Cart.FunctionalShoppingCart (Some l)) →
  h !! l = Some (Cart.OItems xs) →
  let r := Cart.add_item cart item h in
  ∃ new_cart,
    r.1 = Ok (Cart.VRef new_cart)
    ∧ (length h ≤ new_cart)%nat
    ∧ h `prefix_of` r.2
    ∧ Cart.contents r.2 new_cart = Some (xs ++ [item])
    ∧ Cart.contents r.2 cart = Some xs
    ∧ (Cart.separate h → Cart.separate r.2).
Proof.
  intros Hcart Hl r.
  assert (Hlt : (cart < length h)%nat) by by eapply lookup_lt_Some.
  assert (Hlt' : (l < length h)%nat) by by eapply lookup_lt_Some.
  exists (length h). unfold r.
  rewrite (cart_add_item_functional h cart l xs item Hcart Hl). simpl.
  set (tl := [_; _; _]).
  assert (Hnew : ∀ j o, (h ++ tl) !! j = Some o →
            h !! j = Some o
            ∨ (j = length h
               ∧ o = Cart.OCart Cart.FunctionalShoppingCart
                       (Some (S (S (length h)))))
            ∨ (length h < j)%nat ∧ ∃ ys, o = Cart.OItems ys).
  { intros j o Hj. apply lookup_app_Some in Hj as [Hj|[Hge Hj]]; [by left|].
    right. unfold tl in Hj.
    destruct (j - length h)%nat as [|[|[|k]]] eqn:Hk; simpl in Hj;
      try discriminate; injection Hj as <-.
    - left. split; [lia|done].
    - right. split; [lia|by eexists].
    - right. split; [lia|by eexists]. }
  split; [done|]. split; [done|]. split; [by apply prefix_app_r|].
  split; [|split].
  - unfold Cart.contents, tl.
    rewrite (list_lookup_middle h _ _ (length h) eq_refl).
    rewrite lookup_app_r by lia.
    by replace (S (S (length h)) - length h)%nat with 2%nat by lia.
  - unfold Cart.contents. rewrite lookup_app_l, Hcart by done.
    by rewrite lookup_app_l, Hl.
  - intros (Hlist & Hshare & Hinit). split; [|split].
    + intros cart0 c l0 H0.
      destruct (Hnew _ _ H0) as [Hold|[[-> Ho]|[_ [ys Ho]]]];
        [|injection Ho as -> ->|discriminate].
      * destruct (Hlist _ _ _ Hold) as [ys Hys]. exists ys.
        rewrite lookup_app_l; [done|by eapply lookup_lt_Some].
      * eexists. rewrite lookup_app_r by lia.
        by replace (S (S (length h)) - length h)%nat with 2%nat by lia.
    + intros cart1 cart2 c1 c2 l0 H1 H2.
      destruct (Hnew _ _ H1) as [Hold1|[[-> Ho1]|[_ [ys Ho1]]]];
        [| |discriminate];
        (destruct (Hnew _ _ H2) as [Hold2|[[-> Ho2]|[_ [zs Ho2]]]];
           [| |discriminate]).
      * by eapply Hshare.
      * injection Ho2 as -> ->. destruct (Hlist _ _ _ Hold1) as [ys Hys].
        apply lookup_lt_Some in Hys. lia.
      * injection Ho1 as -> ->. destruct (Hlist _ _ _ Hold2) as [ys Hys].
        apply lookup_lt_Some in Hys. lia.
      * done.
    + intros cart0 c H0.
      destruct (Hnew _ _ H0) as [Hold|[[-> Ho]|[_ [ys Ho]]]];
        [by eapply Hinit|discriminate|discriminate].
Qed.

Lemma functional_cart_add_item_witness :
  ∃ new_cart,
    (Cart.add_item 0 "apple"%string
       [Cart.OCart Cart.FunctionalShoppingCart (Some 1%nat);
        Cart.OItems ["banana"%string]]).1 = Ok (Cart.VRef new_cart)
    ∧ (2 ≤ new_cart)%nat
    ∧ Cart.contents
        (Cart.add_item 0 "apple"%string
           [Cart.OCart Cart.FunctionalShoppingCart (Some 1%nat);
            Cart.OItems ["banana"%string]]).2 new_cart
      = Some ["banana"%string; "apple"%string]
    ∧ Cart.contents
        (Cart.add_item 0 "apple"%string
           [Cart.OCart Cart.FunctionalShoppingCart (Some 1%nat);
            Cart.OItems ["banana"%string]]).2 0
      = Some ["banana"%string].
Proof.
  destruct (functional_cart_add_item
              [Cart.OCart Cart.FunctionalShoppingCart (Some 1%nat);
               Cart.OItems ["banana"%string]] 0 1 ["banana"%string] "apple"%string
              eq_refl eq_refl) as (new_cart & H1 & H2 & _ & H3 & H4 & _).
  exists new_cart. repeat split; assumption.
Defined.

(** X12.  With [ShoppingCart] both items are in the cart, in the order
    they were added.  With [FunctionalShoppingCart] the cart the first
    call returned is dropped: the first cart stays empty, and the cart
    the second call returns holds the second item only. *)
Theorem dropped_cart (h : Cart.heap) (a b : string) :
  let in_place := Cart.fill_in_place a b h in
  let functional := Cart.fill_functional a b h in
  (∃ cart, in_place.1 = Ok cart
           ∧ Cart.contents in_place.2 cart = Some [a; b])
  ∧ (∃ func_cart new_cart,
       functional.1 = Ok (func_cart, Cart.VRef new_cart)
       ∧ new_cart ≠ func_cart
       ∧ Cart.contents functional.2 func_cart = Some []
       ∧ Cart.contents functional.2 new_cart = Some [b]).
Proof.
  intros in_place functional. split.
  - exists (length h). unfold in_place, Cart.fill_in_place.
    rewrite (cart_bind_ok _ _ _ _ _ (cart_new _ h)).
    set (h1 := h ++ _).
    assert (Hcart : h1 !! length h
                    = Some (Cart.OCart Cart.ShoppingCart
                              (Some (S (length h))))).
    { apply list_lookup_middle. done. }
    assert (Hl : h1 !! S (length h) = Some (Cart.OItems [])).
    { unfold h1. rewrite lookup_app_r by lia.
      by replace (S (length h) - length h)%nat with 1%nat by lia. }
    assert (Hlt : (S (length h) < length h1)%nat) by by eapply lookup_lt_Some.
    rewrite (cart_bind_ok _ _ _ _ _
               (cart_add_item_in_place h1 _ _ [] a Hcart Hl)).
    set (h2 := <[_ := _]> h1).
    assert (Hcart2 : h2 !! length h
                     = Some (Cart.OCart Cart.ShoppingCart
                               (Some (S (length h))))).
    { unfold h2. by rewrite list_lookup_insert_ne by lia. }
    assert (Hl2 : h2 !! S (length h) = Some (Cart.OItems ([] ++ [a]))).
    { unfold h2. by rewrite list_lookup_insert_eq. }
    rewrite (cart_bind_ok _ _ _ _ _
               (cart_add_item_in_place h2 _ _ _ b Hcart2 Hl2)).
    simpl. split; [done|]. unfold Cart.contents.
    rewrite list_lookup_insert_ne, Hcart2 by lia.
    rewrite list_lookup_insert_eq; [done|].
    unfold h2. by rewrite length_insert.
  - unfold functional, Cart.fill_functional.
    rewrite (cart_bind_ok _ _ _ _ _ (cart_new _ h)).
    set (h1 := h ++ _).
    assert (Hcart : h1 !! length h
                    = Some (Cart.OCart Cart.FunctionalShoppingCart
                              (Some (S (length h))))).
    { apply list_lookup_middle. done. }
    assert (Hl : h1 !! S (length h) = Some (Cart.OItems [])).
    { unfold h1. rewrite lookup_app_r by lia.
      by replace (S (length h) - length h)%nat with 1%nat by lia. }
    assert (Hlt : (S (length h) < length h1)%nat) by by eapply lookup_lt_Some.
    rewrite (cart_bind_ok _ _ _ _ _
               (cart_add_item_functional h1 _ _ [] a Hcart Hl)).
    set (h2 := h1 ++ _).
    assert (Hcart2 : h2 !! length h
                     = Some (Cart.OCart Cart.FunctionalShoppingCart
                               (Some (S (length h))))).
    { unfold h2. rewrite lookup_app_l by lia. done. }
    assert (Hl2 : h2 !! S (length h) = Some (Cart.OItems [])).
    { unfold h2. by rewrite lookup_app_l. }
    assert (Hlt2 : (length h1 < length h2)%nat).
    { unfold h2. rewrite length_app. simpl. lia. }
    rewrite (cart_bind_ok _ _ _ _ _
               (cart_add_item_functional h2 _ _ [] b Hcart2 Hl2)).
    simpl. exists (length h), (length h2).
    split; [done|]. split; [lia|]. unfold Cart.contents. split.
    + rewrite lookup_app_l, Hcart2 by lia. by rewrite lookup_app_l, Hl2 by lia.
    + rewrite (list_lookup_middle h2 _ _ (length h2) eq_refl).
      rewrite lookup_app_r by lia.
      by replace (S (S (length h2)) - length h2)%nat with 2%nat by lia.
Qed.

